(** * Gitdown: the directive parser of [src/dist/gitdown.js]

    A shallow embedding of [Gitdown.Parser] (its [parse], [execute] and
    [play] methods), of the JavaScript built-ins those methods rely on
    ([JSON.parse], [String.prototype.replace], [Array.prototype.sort] with
    its default comparator) and of the [Gitdown] constructor guard.

    JavaScript strings are sequences of UTF-16 code units; they are modelled
    as lists of code units, each an [N]. *)

From Stdlib Require Import List NArith ZArith Bool Lia String Ascii.
From Stdlib Require Import Permutation.
From Stdlib Require Decimal DecimalNat DecimalZ.
Import ListNotations.

(* ================================================================== *)
(** ** JavaScript strings *)
(* ================================================================== *)

Definition jsstring := list N.

(** String literals of this development are written with an apostrophe
    wherever the JavaScript text has a double quote (code unit 34). *)
Definition unit_of_ascii (a : ascii) : N :=
  if Ascii.eqb a "'"%char then 34%N else N_of_ascii a.

Definition js (s : string) : jsstring :=
  map unit_of_ascii (list_ascii_of_string s).

Definition jsstring_eqb (a b : jsstring) : bool :=
  if list_eq_dec N.eq_dec a b then true else false.

(** [s.startsWith(p)], returning the remainder on success. *)
Fixpoint strip_prefix (p s : jsstring) : option jsstring :=
  match p with
  | [] => Some s
  | x :: p' =>
      match s with
      | [] => None
      | y :: s' => if N.eqb x y then strip_prefix p' s' else None
      end
  end.

(** Comparison of two strings by code units, as the default comparator of
    [Array.prototype.sort] does after [ToString]. *)
Fixpoint jsstring_ltb (a b : jsstring) : bool :=
  match a, b with
  | [], [] => false
  | [], _ :: _ => true
  | _ :: _, [] => false
  | x :: a', y :: b' =>
      if N.ltb x y then true
      else if N.ltb y x then false
      else jsstring_ltb a' b'
  end.

(** Decimal digits of a number, as [ToString] prints an integer. *)
Fixpoint uint_units (d : Decimal.uint) : jsstring :=
  match d with
  | Decimal.Nil => []
  | Decimal.D0 d => 48%N :: uint_units d
  | Decimal.D1 d => 49%N :: uint_units d
  | Decimal.D2 d => 50%N :: uint_units d
  | Decimal.D3 d => 51%N :: uint_units d
  | Decimal.D4 d => 52%N :: uint_units d
  | Decimal.D5 d => 53%N :: uint_units d
  | Decimal.D6 d => 54%N :: uint_units d
  | Decimal.D7 d => 55%N :: uint_units d
  | Decimal.D8 d => 56%N :: uint_units d
  | Decimal.D9 d => 57%N :: uint_units d
  end.

Definition nat_toString (n : nat) : jsstring := uint_units (Nat.to_uint n).

(** [ToString] of a weight.  A weight is an integer that a number holds
    exactly, a safe integer, and such a number is printed with its
    decimal digits and its sign.  Larger numbers are not: they are
    rounded, and from 1e21 on printed in exponent notation, so what is
    stated about the order of the weights is stated for safe integers. *)
Definition Z_toString (z : Z) : jsstring :=
  match Z.to_int z with
  | Decimal.Pos d => uint_units d
  | Decimal.Neg d => 45%N :: uint_units d
  end.

(** [Number.isSafeInteger] on an integer. *)
Definition safe_integer (w : Z) : Prop := (Z.abs w < 2 ^ 53)%Z.

(* ================================================================== *)
(** ** [JSON.parse] *)
(* ================================================================== *)

Module JSON.

(** Parsed values.  A number keeps its lexeme: the parser only uses the
    grammar of numbers, never their value. *)
#[warnings="-register-all"]
Inductive json : Type :=
| JNull
| JBool (b : bool)
| JNumber (lexeme : jsstring)
| JString (s : jsstring)
| JArray (elems : list json)
| JObject (fields : list (jsstring * json)).

Inductive token : Type :=
| TLBrace | TRBrace | TLBracket | TRBracket | TComma | TColon
| TString (s : jsstring)
| TNumber (lexeme : jsstring)
| TTrue | TFalse | TNull.

(** *** Lexer: one code unit at a time *)

Inductive numstate : Type :=
| NMinus | NZero | NInt | NDot | NFrac | NExp | NExpSign | NExpDigits.

Inductive lstate : Type :=
| LStart
| LStr (acc : jsstring)
| LEsc (acc : jsstring)
| LHex (acc : jsstring) (todo : nat) (v : N)
| LNum (st : numstate) (acc : jsstring)
| LWord (rest : jsstring) (t : token).

Definition is_ws (c : N) : bool :=
  N.eqb c 9 || N.eqb c 10 || N.eqb c 13 || N.eqb c 32.

Definition is_digit (c : N) : bool := N.leb 48 c && N.leb c 57.

Definition is_digit19 (c : N) : bool := N.leb 49 c && N.leb c 57.

Definition is_e (c : N) : bool := N.eqb c 101 || N.eqb c 69.

Definition hex_value (c : N) : option N :=
  if is_digit c then Some (c - 48)%N
  else if N.leb 97 c && N.leb c 102 then Some (c - 87)%N
  else if N.leb 65 c && N.leb c 70 then Some (c - 55)%N
  else None.

Definition start_unit (c : N) : option (lstate * list token) :=
  if is_ws c then Some (LStart, [])
  else if N.eqb c 123 then Some (LStart, [TLBrace])
  else if N.eqb c 125 then Some (LStart, [TRBrace])
  else if N.eqb c 91 then Some (LStart, [TLBracket])
  else if N.eqb c 93 then Some (LStart, [TRBracket])
  else if N.eqb c 44 then Some (LStart, [TComma])
  else if N.eqb c 58 then Some (LStart, [TColon])
  else if N.eqb c 34 then Some (LStr [], [])
  else if N.eqb c 45 then Some (LNum NMinus [c], [])
  else if N.eqb c 48 then Some (LNum NZero [c], [])
  else if is_digit19 c then Some (LNum NInt [c], [])
  else if N.eqb c 116 then Some (LWord (js "rue") TTrue, [])
  else if N.eqb c 102 then Some (LWord (js "alse") TFalse, [])
  else if N.eqb c 110 then Some (LWord (js "ull") TNull, [])
  else None.

(** A number ends at the first unit that cannot continue it; that unit is
    then read as the start of the next token. *)
Definition end_number (acc : jsstring) (c : N) : option (lstate * list token) :=
  match start_unit c with
  | Some (st, ts) => Some (st, TNumber (rev acc) :: ts)
  | None => None
  end.

Definition num_step (st : numstate) (acc : jsstring) (c : N)
  : option (lstate * list token) :=
  match st with
  | NMinus =>
      if N.eqb c 48 then Some (LNum NZero (c :: acc), [])
      else if is_digit19 c then Some (LNum NInt (c :: acc), [])
      else None
  | NZero =>
      if N.eqb c 46 then Some (LNum NDot (c :: acc), [])
      else if is_e c then Some (LNum NExp (c :: acc), [])
      else end_number acc c
  | NInt =>
      if is_digit c then Some (LNum NInt (c :: acc), [])
      else if N.eqb c 46 then Some (LNum NDot (c :: acc), [])
      else if is_e c then Some (LNum NExp (c :: acc), [])
      else end_number acc c
  | NDot =>
      if is_digit c then Some (LNum NFrac (c :: acc), []) else None
  | NFrac =>
      if is_digit c then Some (LNum NFrac (c :: acc), [])
      else if is_e c then Some (LNum NExp (c :: acc), [])
      else end_number acc c
  | NExp =>
      if N.eqb c 43 || N.eqb c 45 then Some (LNum NExpSign (c :: acc), [])
      else if is_digit c then Some (LNum NExpDigits (c :: acc), [])
      else None
  | NExpSign =>
      if is_digit c then Some (LNum NExpDigits (c :: acc), []) else None
  | NExpDigits =>
      if is_digit c then Some (LNum NExpDigits (c :: acc), [])
      else end_number acc c
  end.

Definition escape_unit (c : N) : option N :=
  if N.eqb c 34 then Some 34%N
  else if N.eqb c 92 then Some 92%N
  else if N.eqb c 47 then Some 47%N
  else if N.eqb c 98 then Some 8%N
  else if N.eqb c 102 then Some 12%N
  else if N.eqb c 110 then Some 10%N
  else if N.eqb c 114 then Some 13%N
  else if N.eqb c 116 then Some 9%N
  else None.

Definition lex_step (st : lstate) (c : N) : option (lstate * list token) :=
  match st with
  | LStart => start_unit c
  | LStr acc =>
      if N.eqb c 34 then Some (LStart, [TString (rev acc)])
      else if N.eqb c 92 then Some (LEsc acc, [])
      else if N.ltb c 32 then None
      else Some (LStr (c :: acc), [])
  | LEsc acc =>
      if N.eqb c 117 then Some (LHex acc 4 0%N, [])
      else match escape_unit c with
           | Some u => Some (LStr (u :: acc), [])
           | None => None
           end
  | LHex acc todo v =>
      match hex_value c with
      | None => None
      | Some h =>
          let v' := (v * 16 + h)%N in
          match todo with
          | 0 => None
          | 1 => Some (LStr (v' :: acc), [])
          | S todo' => Some (LHex acc todo' v', [])
          end
      end
  | LNum ns acc => num_step ns acc c
  | LWord rest t =>
      match rest with
      | [] => None
      | r :: rest' =>
          if N.eqb c r
          then match rest' with
               | [] => Some (LStart, [t])
               | _ :: _ => Some (LWord rest' t, [])
               end
          else None
      end
  end.

Definition lex_end (st : lstate) : option (list token) :=
  match st with
  | LStart => Some []
  | LNum NZero acc | LNum NInt acc | LNum NFrac acc | LNum NExpDigits acc =>
      Some [TNumber (rev acc)]
  | _ => None
  end.

Fixpoint lex_from (st : lstate) (s : jsstring) : option (list token) :=
  match s with
  | [] => lex_end st
  | c :: r =>
      match lex_step st c with
      | None => None
      | Some (st', ts) =>
          match lex_from st' r with
          | None => None
          | Some more => Some (ts ++ more)
          end
      end
  end.

(** *** Parser: a stack machine over the tokens *)

(** Property definition of [JSON.parse]: a repeated key keeps its place and
    takes the later value. *)
Fixpoint obj_set (k : jsstring) (v : json) (fields : list (jsstring * json))
  : list (jsstring * json) :=
  match fields with
  | [] => [(k, v)]
  | (k', v') :: rest =>
      if jsstring_eqb k k' then (k', v) :: rest
      else (k', v') :: obj_set k v rest
  end.

Fixpoint obj_get (k : jsstring) (fields : list (jsstring * json))
  : option json :=
  match fields with
  | [] => None
  | (k', v') :: rest => if jsstring_eqb k k' then Some v' else obj_get k rest
  end.

Fixpoint obj_delete (k : jsstring) (fields : list (jsstring * json))
  : list (jsstring * json) :=
  match fields with
  | [] => []
  | (k', v') :: rest =>
      if jsstring_eqb k k' then obj_delete k rest
      else (k', v') :: obj_delete k rest
  end.

(** The containers that are open around the value being read. *)
Inductive frame : Type :=
| FArr (elems : list json)
| FObj (fields : list (jsstring * json)) (key : jsstring).

Inductive pstate : Type :=
| PValue (stk : list frame)
| PFirstElem (stk : list frame)
| PFirstKey (stk : list frame)
| PKey (fields : list (jsstring * json)) (stk : list frame)
| PColon (fields : list (jsstring * json)) (key : jsstring) (stk : list frame)
| PArrNext (elems : list json) (stk : list frame)
| PObjNext (fields : list (jsstring * json)) (stk : list frame)
| PDone (v : json).

Definition deliver (v : json) (stk : list frame) : pstate :=
  match stk with
  | [] => PDone v
  | FArr elems :: stk' => PArrNext (elems ++ [v]) stk'
  | FObj fields k :: stk' => PObjNext (obj_set k v fields) stk'
  end.

Definition value_token (t : token) (stk : list frame) : option pstate :=
  match t with
  | TNull => Some (deliver JNull stk)
  | TTrue => Some (deliver (JBool true) stk)
  | TFalse => Some (deliver (JBool false) stk)
  | TNumber l => Some (deliver (JNumber l) stk)
  | TString s => Some (deliver (JString s) stk)
  | TLBracket => Some (PFirstElem stk)
  | TLBrace => Some (PFirstKey stk)
  | _ => None
  end.

Definition parse_step (st : pstate) (t : token) : option pstate :=
  match st with
  | PValue stk => value_token t stk
  | PFirstElem stk =>
      match t with
      | TRBracket => Some (deliver (JArray []) stk)
      | _ => value_token t (FArr [] :: stk)
      end
  | PFirstKey stk =>
      match t with
      | TRBrace => Some (deliver (JObject []) stk)
      | TString k => Some (PColon [] k stk)
      | _ => None
      end
  | PKey fields stk =>
      match t with
      | TString k => Some (PColon fields k stk)
      | _ => None
      end
  | PColon fields k stk =>
      match t with
      | TColon => Some (PValue (FObj fields k :: stk))
      | _ => None
      end
  | PArrNext elems stk =>
      match t with
      | TComma => Some (PValue (FArr elems :: stk))
      | TRBracket => Some (deliver (JArray elems) stk)
      | _ => None
      end
  | PObjNext fields stk =>
      match t with
      | TComma => Some (PKey fields stk)
      | TRBrace => Some (deliver (JObject fields) stk)
      | _ => None
      end
  | PDone _ => None
  end.

Fixpoint parse_from (st : pstate) (ts : list token) : option json :=
  match ts with
  | [] => match st with PDone v => Some v | _ => None end
  | t :: ts' =>
      match parse_step st t with
      | None => None
      | Some st' => parse_from st' ts'
      end
  end.

(** [JSON.parse(text)]: [None] stands for the [SyntaxError] it throws. *)
Definition parse (text : jsstring) : option json :=
  match lex_from LStart text with
  | None => None
  | Some ts => parse_from (PValue []) ts
  end.

End JSON.

Import JSON.

(* ================================================================== *)
(** ** [String.prototype.replace] with a string pattern *)
(* ================================================================== *)

(** The first occurrence of [pat] in [s]: the text before it and the text
    after it. *)
Fixpoint index_of (pat s : jsstring) : option (jsstring * jsstring) :=
  match strip_prefix pat s with
  | Some post => Some ([], post)
  | None =>
      match s with
      | [] => None
      | c :: s' =>
          match index_of pat s' with
          | Some (pre, post) => Some (c :: pre, post)
          | None => None
          end
      end
  end.

(** [GetSubstitution] for a string pattern: there are no captures, so only
    [$$], [$&], [$`] and [$'] are patterns; any other [$] is kept. *)
Fixpoint GetSubstitution (matched pre post replacement : jsstring)
  : jsstring :=
  match replacement with
  | [] => []
  | c :: r =>
      if N.eqb c 36 then
        match r with
        | [] => [c]
        | d :: r' =>
            if N.eqb d 36 then 36%N :: GetSubstitution matched pre post r'
            else if N.eqb d 38
            then matched ++ GetSubstitution matched pre post r'
            else if N.eqb d 96
            then pre ++ GetSubstitution matched pre post r'
            else if N.eqb d 39
            then post ++ GetSubstitution matched pre post r'
            else c :: GetSubstitution matched pre post r
        end
      else c :: GetSubstitution matched pre post r
  end.

(** [s.replace(pat, replacement)] for strings [pat] and [replacement]. *)
Definition replace (pat replacement s : jsstring) : jsstring :=
  match index_of pat s with
  | None => s
  | Some (pre, post) =>
      pre ++ GetSubstitution pat pre post replacement ++ post
  end.

(* ================================================================== *)
(** ** [Array.prototype.sort] with the default comparator *)
(* ================================================================== *)

(** The default comparator compares the elements' [ToString]. *)
Definition sort_before (x y : Z) : bool :=
  jsstring_ltb (Z_toString x) (Z_toString y).

Fixpoint sort_insert (x : Z) (l : list Z) : list Z :=
  match l with
  | [] => [x]
  | y :: l' => if sort_before x y then x :: l else y :: sort_insert x l'
  end.

Definition js_sort (l : list Z) : list Z := fold_right sort_insert [] l.

(* ================================================================== *)
(** ** [Gitdown.Parser] *)
(* ================================================================== *)

Inductive Error : Type :=
| SyntaxError
| TypeError
| ReferenceError (ident : string)
| HelperError (reason : jsstring).

(** What a statement does: completes, or throws. *)
Inductive Completion (A : Type) : Type :=
| Normal (a : A)
| Throw (e : Error).

Arguments Normal {A} a.
Arguments Throw {A} e.

(** What [Promise.resolve(helper(...))] becomes. *)
Inductive Settled : Type :=
| Fulfils (value : jsstring)
| Rejects (reason : jsstring)
| Hangs.

(** What a call of a helper does: it throws, or it returns a value or a
    promise. *)
Inductive Reply : Type :=
| Raises (reason : jsstring)
| Answers (p : Settled).

(** A helper is a function that carries a [weight] method.  Weights are
    integers; [call] receives the markdown and the parameters. *)
Record Helper : Type := {
  weight : Z;
  call : jsstring -> json -> Reply
}.

(** An entry of [commands].  [name] is [None] when [command.gitdown] is
    [undefined]; [helper] is [None] when the registry has no helper. *)
Record Command : Type := {
  bindingIndex : nat;
  name : option json;
  parameters : json;
  helper : option Helper;
  executed : bool
}.

(** The state object that [parse] returns and [execute] updates. *)
Record State : Type := {
  markdown : jsstring;
  commands : list Command;
  change : bool
}.

(** What the caller of [play] or [get] observes. *)
Inductive Outcome (A : Type) : Type :=
| Fulfilled (a : A)
| Rejected (e : Error)
| Thrown (e : Error)
| Pending
| OutOfFuel.

Arguments Fulfilled {A} a.
Arguments Rejected {A} e.
Arguments Thrown {A} e.
Arguments Pending {A}.
Arguments OutOfFuel {A}.

(** The observable steps of a run, in order. *)
Inductive Event : Type :=
| Parsed (pass : nat) (st : State)
| Invoked (pass : nat) (binding : nat)
| Replaced (pass : nat) (binding : nat) (st : State).

(** *** The pattern [/<<({"gitdown"(?:[^}]+}))>>/g] *)

Definition opening : jsstring := js "<<{'gitdown'".

Definition closing : jsstring := js "}>>".

(** The longest run of units other than the closing brace. *)
Fixpoint span_not_brace (s : jsstring) : jsstring * jsstring :=
  match s with
  | [] => ([], [])
  | c :: s' =>
      if N.eqb c 125 then ([], s)
      else let (run, rest) := span_not_brace s' in (c :: run, rest)
  end.

(** The match of the pattern at the start of [s], if there is one. *)
Definition match_at (s : jsstring) : option jsstring :=
  match strip_prefix opening s with
  | None => None
  | Some r =>
      match span_not_brace r with
      | ([], _) => None
      | (run, rest) =>
          match strip_prefix closing rest with
          | None => None
          | Some _ => Some (opening ++ run ++ closing)
          end
      end
  end.

(** The pieces of [s] a global replace works with: the matches, leftmost
    first and not overlapping, and the units between them.  [skip] counts
    the units of the current match still to be passed over. *)
Inductive chunk : Type :=
| Lit (c : N)
| Hit (m : jsstring).

Fixpoint scan (skip : nat) (s : jsstring) : list chunk :=
  match s with
  | [] => []
  | c :: s' =>
      match skip with
      | S k => scan k s'
      | 0 =>
          match match_at s with
          | Some m => Hit m :: scan (List.length m - 1) s'
          | None => Lit c :: scan 0 s'
          end
      end
  end.

(** [m.slice(2, -2)] *)
Definition slice_2_m2 (m : jsstring) : jsstring :=
  firstn (List.length m - 4) (skipn 2 m).

(** The placeholder of a binding index: the index between two U+2282 and
    two U+2283 (the code units 8834 and 8835). *)
Definition placeholder (n : nat) : jsstring :=
  [8834%N; 8834%N] ++ nat_toString n ++ [8835%N; 8835%N].

(** [command.gitdown] *)
Definition get_gitdown (command : json) : Completion (option json) :=
  match command with
  | JObject fields => Normal (obj_get (js "gitdown") fields)
  | JNull => Throw TypeError
  | _ => Normal None
  end.

(** [delete parameters.gitdown] *)
Definition delete_gitdown (command : json) : json :=
  match command with
  | JObject fields => JObject (obj_delete (js "gitdown") fields)
  | v => v
  end.

Section Parser.

(** [Gitdown.helpers[name]]: the helpers are loaded from files that are
    not part of this development.  [None] is any value on which
    [.weight()] throws a [TypeError], [undefined] in particular. *)
Variable helpers : option json -> option Helper.

(** The order in which the promises of one round settle. *)
Variable sched : nat -> list (nat * Settled) -> list (nat * Settled).

(** The callback of the global replace in [parser.parse]. *)
Definition on_match (m : jsstring) (index : nat) (cmds : list Command)
  : Completion (jsstring * nat * list Command) :=
  match JSON.parse (slice_2_m2 m) with
  | None => Throw SyntaxError
  | Some command =>
      match get_gitdown command with
      | Throw e => Throw e
      | Normal nm =>
          let index' := S index in
          Normal (placeholder index', index',
                  cmds ++ [{| bindingIndex := index';
                              name := nm;
                              parameters := delete_gitdown command;
                              helper := helpers nm;
                              executed := false |}])
      end
  end.

Fixpoint replace_hits (chunks : list chunk) (index : nat)
  (cmds : list Command) : Completion (jsstring * nat * list Command) :=
  match chunks with
  | [] => Normal ([], index, cmds)
  | Lit c :: rest =>
      match replace_hits rest index cmds with
      | Throw e => Throw e
      | Normal (out, index', cmds') => Normal (c :: out, index', cmds')
      end
  | Hit m :: rest =>
      match on_match m index cmds with
      | Throw e => Throw e
      | Normal (ph, index1, cmds1) =>
          match replace_hits rest index1 cmds1 with
          | Throw e => Throw e
          | Normal (out, index', cmds') => Normal (ph ++ out, index', cmds')
          end
      end
  end.

(** [parser.parse(markdown, commands)]; [index] is the parser's
    [bindingIndex] before the call, and its value after the call is
    returned next to the state. *)
Definition parse (md : jsstring) (cmds : list Command) (index : nat)
  : Completion (State * nat) :=
  match replace_hits (scan 0 md) index cmds with
  | Throw e => Throw e
  | Normal (md', index', cmds') =>
      Normal ({| markdown := md';
                 commands := cmds';
                 change := negb (Nat.eqb index index') |}, index')
  end.

Definition notExecutedCommands (cmds : list Command) : list Command :=
  filter (fun c => negb (executed c)) cmds.

(** [notExecutedCommands.map(command => command.helper.weight())] *)
Fixpoint weights (cmds : list Command) : Completion (list Z) :=
  match cmds with
  | [] => Normal []
  | c :: rest =>
      match helper c with
      | None => Throw TypeError
      | Some h =>
          match weights rest with
          | Throw e => Throw e
          | Normal ws => Normal (weight h :: ws)
          end
      end
  end.

Definition lowestWeight (ws : list Z) : option Z := hd_error (js_sort ws).

Definition has_weight (w : option Z) (c : Command) : bool :=
  match helper c, w with
  | Some h, Some w => Z.eqb (weight h) w
  | _, _ => false
  end.

(** The [forEach] of [parser.execute]: every helper is called with the
    markdown as it is when the round starts. *)
Fixpoint invoke_all (pass : nat) (md : jsstring) (cs : list Command)
  : list Event * Completion (list (nat * Settled)) :=
  match cs with
  | [] => ([], Normal [])
  | c :: rest =>
      match helper c with
      | None => ([], Throw TypeError)
      | Some h =>
          match call h md (parameters c) with
          | Raises e => ([Invoked pass (bindingIndex c)],
                         Throw (HelperError e))
          | Answers p =>
              let (evs, r) := invoke_all pass md rest in
              (Invoked pass (bindingIndex c) :: evs,
               match r with
               | Throw e => Throw e
               | Normal ps => Normal ((bindingIndex c, p) :: ps)
               end)
          end
      end
  end.

(** [command.executed = true], on the command object the promise callback
    closes over. *)
Definition mark_executed (binding : nat) (cmds : list Command)
  : list Command :=
  map (fun c =>
         if Nat.eqb (bindingIndex c) binding
         then {| bindingIndex := bindingIndex c;
                 name := name c;
                 parameters := parameters c;
                 helper := helper c;
                 executed := true |}
         else c) cmds.

(** The callback of one fulfilled promise. *)
Definition substitute (binding : nat) (value : jsstring) (st : State)
  : State :=
  {| markdown := replace (placeholder binding) value (markdown st);
     commands := mark_executed binding (commands st);
     change := change st |}.

(** The promises settle in the order [done]; [Promise.all] rejects with the
    first rejection and stays pending while a promise hangs. *)
Fixpoint settle (pass : nat) (done : list (nat * Settled)) (st : State)
  (hung : bool) : list Event * Outcome State :=
  match done with
  | [] => ([], if hung then Pending else Fulfilled st)
  | (binding, Fulfils value) :: rest =>
      let st' := substitute binding value st in
      let (evs, r) := settle pass rest st' hung in
      (Replaced pass binding st' :: evs, r)
  | (_, Rejects reason) :: _ => ([], Rejected (HelperError reason))
  | (_, Hangs) :: rest => settle pass rest st true
  end.

(** [parser.execute(state)] *)
Definition execute (pass : nat) (st : State) : list Event * Outcome State :=
  match notExecutedCommands (commands st) with
  | [] => ([], Fulfilled st)
  | todo =>
      match weights todo with
      | Throw e => ([], Thrown e)
      | Normal ws =>
          let lowestWeightCommands :=
            filter (has_weight (lowestWeight ws)) todo in
          match invoke_all pass (markdown st) lowestWeightCommands with
          | (evs, Throw e) => (evs, Thrown e)
          | (evs, Normal promises) =>
              let (evs', r) := settle pass (sched pass promises) st false in
              (evs ++ evs', r)
          end
      end
  end.

(** [parser.play(markdown, commands)].  The recursive call is made in a
    promise callback, where a throw becomes a rejection. *)
Fixpoint play (fuel pass : nat) (md : jsstring) (cmds : list Command)
  (index : nat) : list Event * Outcome State :=
  match fuel with
  | 0 => ([], OutOfFuel)
  | S fuel' =>
      match parse md cmds index with
      | Throw e => ([], Thrown e)
      | Normal (st, index') =>
          match execute pass st with
          | (evs, Fulfilled st') =>
              if negb (change st')
                 && Nat.eqb (List.length (notExecutedCommands (commands st'))) 0
              then (Parsed pass st :: evs, Fulfilled st')
              else
                let (evs', r) :=
                  play fuel' (S pass) (markdown st') (commands st') index' in
                (Parsed pass st :: evs ++ evs',
                 match r with
                 | Thrown e => Rejected e
                 | _ => r
                 end)
          | (evs, r) => (Parsed pass st :: evs, r)
          end
      end
  end.

(** [gitdown.get()]: a new parser, whose [bindingIndex] is 0, plays the
    markdown and the promise resolves to [state.markdown]. *)
Definition get (fuel : nat) (GFM : jsstring)
  : list Event * Outcome jsstring :=
  let (evs, r) := play fuel 0 GFM [] 0 in
  (evs,
   match r with
   | Fulfilled st => Fulfilled (markdown st)
   | Rejected e => Rejected e
   | Thrown e => Thrown e
   | Pending => Pending
   | OutOfFuel => OutOfFuel
   end).

End Parser.

(* ================================================================== *)
(** ** The [Gitdown] function and [Gitdown.read] *)
(* ================================================================== *)

Module Constructor.

(** The values the identifiers around [Gitdown] are bound to. *)
Inductive Value : Type :=
| VUndefined
| VString (s : jsstring)
| VObject.

(** What [new Gitdown(GFM)] builds: an object whose [get] plays [GFM]. *)
Record Instance : Type := { GFM : Value }.

(** A scope binds identifiers to values; an identifier is resolved in the
    innermost scope that binds it, and resolving an identifier that no scope
    binds throws. *)
Definition Scope := list (string * Value).

Fixpoint scope_get (ident : string) (sc : Scope) : option Value :=
  match sc with
  | [] => None
  | (x, v) :: rest =>
      if String.eqb ident x then Some v else scope_get ident rest
  end.

Fixpoint resolve (ident : string) (chain : list Scope) : Completion Value :=
  match chain with
  | [] => Throw (ReferenceError ident)
  | sc :: outer =>
      match scope_get ident sc with
      | Some v => Normal v
      | None => resolve ident outer
      end
  end.

(** The scopes around the guard of [Gitdown]: the function's own (its
    parameter, its variable [gitdown], not yet assigned, and [arguments]),
    the module's (its three variables and what the module wrapper of Node
    binds), then the global object of the host. *)
Definition body_scopes (host : Scope) (arg : Value) : list Scope :=
  [[("GFM"%string, arg); ("gitdown"%string, VUndefined);
    ("arguments"%string, VObject)];
   [("Gitdown"%string, VObject); ("Promise"%string, VObject);
    ("fs"%string, VObject); ("exports"%string, VObject);
    ("require"%string, VObject); ("module"%string, VObject);
    ("__filename"%string, VObject); ("__dirname"%string, VObject)];
   host].

(** [Gitdown(GFM)], called with [new] ([is_new = true]) or as a plain
    function. *)
Definition Gitdown (host : Scope) (is_new : bool) (arg : Value)
  : Completion Instance :=
  if is_new then Normal {| GFM := arg |}
  else
    match resolve "input"%string (body_scopes host arg) with
    | Throw e => Throw e
    | Normal v => Normal {| GFM := v |}
    end.

(** [Gitdown.read(fileName)], given the contents of the file. *)
Definition read (host : Scope) (contents : jsstring) : Completion Instance :=
  Gitdown host false (VString contents).

End Constructor.

(* ================================================================== *)
(** ** Helpers and documents used in the examples *)
(* ================================================================== *)

(** Promises that settle in the order in which they were created. *)
Definition fifo : nat -> list (nat * Settled) -> list (nat * Settled) :=
  fun _ l => l.

(** Promises that settle in the opposite order. *)
Definition lifo : nat -> list (nat * Settled) -> list (nat * Settled) :=
  fun _ l => rev l.

Definition const_helper (w : Z) (out : jsstring) : Helper :=
  {| weight := w; call := fun _ _ => Answers (Fulfils out) |}.

Definition registry (entries : list (jsstring * Helper)) (nm : option json)
  : option Helper :=
  match nm with
  | Some (JString s) =>
      match find (fun e => jsstring_eqb s (fst e)) entries with
      | Some e => Some (snd e)
      | None => None
      end
  | _ => None
  end.

Definition demo_helpers : option json -> option Helper :=
  registry
    [(js "upper", const_helper 0 (js "X"));
     (js "low", const_helper 1 (js "x"));
     (js "two", const_helper 2 (js "y"));
     (js "high", const_helper 5 (js "<<{'gitdown':'low'}>>"));
     (js "ten", const_helper 10 (js "z"));
     (js "after", const_helper 1 [36%N; 39%N]);
     (js "amp", const_helper 1 [36%N; 38%N])].

Definition invocations (evs : list Event) : list (nat * nat) :=
  flat_map (fun e => match e with
                     | Invoked pass b => [(pass, b)]
                     | _ => []
                     end) evs.

Definition event_state (e : Event) : option State :=
  match e with
  | Parsed _ st => Some st
  | Replaced _ _ st => Some st
  | Invoked _ _ => None
  end.

Definition upper_only : option json -> option Helper :=
  registry [(js "upper", const_helper 0 (js "X"))].

Definition upper_scanned : State :=
  {| markdown := js "A " ++ placeholder 1 ++ js " B";
     commands := [{| bindingIndex := 1;
                     name := Some (JString (js "upper"));
                     parameters := JObject [];
                     helper := Some (const_helper 0 (js "X"));
                     executed := false |}];
     change := true |}.

Definition low_command (binding : nat) : Command :=
  {| bindingIndex := binding;
     name := Some (JString (js "low"));
     parameters := JObject [];
     helper := Some (const_helper 1 (js "x"));
     executed := false |}.

Definition two_low : State :=
  {| markdown := placeholder 1 ++ js " " ++ placeholder 2;
     commands := [low_command 1; low_command 2];
     change := true |}.

(* ================================================================== *)
(** ** Predicates on texts *)
(* ================================================================== *)

(** [/<<({"gitdown"(?:[^}]+}))>>/.test(s)] *)
Fixpoint has_match (s : jsstring) : bool :=
  match match_at s with
  | Some _ => true
  | None =>
      match s with
      | [] => false
      | _ :: s' => has_match s'
      end
  end.

(** [s.indexOf(pat) >= 0] *)
Definition occurs (pat s : jsstring) : Prop :=
  exists pre post, s = pre ++ pat ++ post.

(** A text seen as units and placeholder tokens. *)
Inductive tok : Type :=
| Chr (c : N)
| Ph (n : nat).

Definition render (t : tok) : jsstring :=
  match t with
  | Chr c => [c]
  | Ph n => placeholder n
  end.

Definition flat (toks : list tok) : jsstring := flat_map render toks.

Definition tok_ok (bound : nat) (t : tok) : Prop :=
  match t with
  | Chr c => c <> 8834%N
  | Ph n => 1 <= n <= bound
  end.

(** The only occurrences of the unit U+2282 in [s] are in placeholders
    whose binding index is between 1 and [bound]. *)
Definition tokenised (bound : nat) (s : jsstring) : Prop :=
  exists toks, s = flat toks /\ Forall (tok_ok bound) toks.

(** The binding indexes of a registry are 1, 2, 3, ... in order. *)
Definition numbered (cmds : list Command) : Prop :=
  map bindingIndex cmds = seq 1 (List.length cmds).

(* ================================================================== *)
(** ** Definitions used in the proofs *)
(* ================================================================== *)

Definition gitdown_key : jsstring := js "gitdown".

Definition has_key (fields : list (jsstring * json)) : Prop :=
  obj_get gitdown_key fields <> None.

(** The outermost open container is the object of the match, and the key
    [gitdown] is in it or is the key whose value is being read. *)
Definition frame_rooted (fr : frame) : Prop :=
  match fr with
  | FObj fields k => k = gitdown_key \/ has_key fields
  | FArr _ => False
  end.

Fixpoint stack_rooted (stk : list frame) : Prop :=
  match stk with
  | [] => False
  | fr :: stk' =>
      match stk' with
      | [] => frame_rooted fr
      | _ :: _ => stack_rooted stk'
      end
  end.

Definition rooted (st : pstate) : Prop :=
  match st with
  | PValue stk | PFirstElem stk | PFirstKey stk | PArrNext _ stk =>
      stack_rooted stk
  | PKey fields stk | PObjNext fields stk =>
      stack_rooted stk \/ (stk = [] /\ has_key fields)
  | PColon fields k stk =>
      stack_rooted stk \/ (stk = [] /\ (k = gitdown_key \/ has_key fields))
  | PDone v => exists fields, v = JObject fields /\ has_key fields
  end.

(** Every hit of the scan is a match of the pattern. *)
Definition genuine (ch : chunk) : Prop :=
  match ch with
  | Lit _ => True
  | Hit m => exists s, match_at s = Some m
  end.

(** A command as [parse] pushes it. *)
Definition fresh (helpers : option json -> option Helper) (c : Command)
  : Prop :=
  executed c = false /\ helper c = helpers (name c).

(** What follows the two opening units of a placeholder. *)
Definition ph_body (n : nat) : jsstring := nat_toString n ++ [8835%N; 8835%N].

(** Units of tokens are not the opening unit of a placeholder. *)
Definition chr_ok (t : tok) : Prop :=
  match t with
  | Chr c => c <> 8834%N
  | Ph _ => True
  end.

(** A helper none of whose values has the opening unit of placeholders. *)
Definition clean_helper (h : Helper) : Prop :=
  forall md p v, call h md p = Answers (Fulfils v) -> ~ In 8834%N v.

Definition clean_commands (cmds : list Command) : Prop :=
  Forall (fun c => forall h, helper c = Some h -> clean_helper h) cmds.

Definition clean_promise (p : nat * Settled) : Prop :=
  match snd p with
  | Fulfils v => ~ In 8834%N v
  | _ => True
  end.

(** The invariant of a run.  Its second half is kept only in a clean run:
    one where the document, the values of the helpers and the scheduler
    bring no opening unit of placeholders into the text. *)
Definition consistent (clean_run : Prop) (st : State) : Prop :=
  numbered (commands st) /\
  (clean_run ->
   tokenised (List.length (commands st)) (markdown st) /\
   clean_commands (commands st)).

Definition event_ok (clean_run : Prop) (e : Event) : Prop :=
  forall st, event_state e = Some st -> consistent clean_run st.

(** The substitution of a value without [$], on tokens. *)
Fixpoint subst_tok (i : nat) (v : jsstring) (toks : list tok) : list tok :=
  match toks with
  | [] => []
  | Chr c :: rest => Chr c :: subst_tok i v rest
  | Ph n :: rest =>
      if Nat.eqb n i then map Chr v ++ rest else Ph n :: subst_tok i v rest
  end.

(** A value that is inserted as it is and brings no placeholder. *)
Definition plain (v : jsstring) : Prop := ~ In 8834%N v /\ ~ In 36%N v.

Definition plain_promise (p : nat * Settled) : Prop :=
  exists v, snd p = Fulfils v /\ plain v.

(** The callbacks of the fulfilled promises of [done], in that order. *)
Definition resolve_all (done : list (nat * Settled)) (st : State) : State :=
  fold_left (fun st p => match snd p with
                         | Fulfils v => substitute (fst p) v st
                         | _ => st
                         end) done st.

(* ================================================================== *)
(** ** Definitions used in the further properties *)
(* ================================================================== *)

Definition is_hit (ch : chunk) : bool :=
  match ch with
  | Hit _ => true
  | Lit _ => false
  end.

(** The number of matches of the pattern in a text. *)
Definition hits (s : jsstring) : nat :=
  List.length (filter is_hit (scan 0 s)).

(** The matches of the pattern in a text, leftmost first. *)
Definition matched_texts (s : jsstring) : list jsstring :=
  flat_map (fun ch => match ch with
                      | Hit m => [m]
                      | Lit _ => []
                      end) (scan 0 s).

(** The text a global replace builds when its callback numbers the matches
    from [index] on. *)
Fixpoint rewritten (chunks : list chunk) (index : nat) : jsstring :=
  match chunks with
  | [] => []
  | Lit c :: rest => c :: rewritten rest index
  | Hit _ :: rest => placeholder (S index) ++ rewritten rest (S index)
  end.

(** The command [c] is what the callback of [parse] pushes for the match
    [m]: its name is the value of the key [gitdown] of the parsed object,
    its parameters are that object without the key. *)
Definition directive_of (helpers : option json -> option Helper)
  (m : jsstring) (c : Command) : Prop :=
  exists fields nm params,
    JSON.parse (slice_2_m2 m) = Some (JObject fields) /\
    obj_get (js "gitdown") fields = Some nm /\
    name c = Some nm /\
    helper c = helpers (Some nm) /\
    executed c = false /\
    parameters c = JObject params /\
    forall k, obj_get k params =
              if jsstring_eqb k (js "gitdown") then None else obj_get k fields.

(** The command [c] once its promise callback has run. *)
Definition done_command (c : Command) : Command :=
  {| bindingIndex := bindingIndex c;
     name := name c;
     parameters := parameters c;
     helper := helper c;
     executed := true |}.

(** The commands a round executes: the unexecuted ones whose weight is
    the lowest weight [w] of the round. *)
Definition in_round (w : option Z) (c : Command) : bool :=
  negb (executed c) && has_weight w c.

(** The registry after the promise callbacks of the bindings [bs]. *)
Definition mark_all (bs : list nat) (cmds : list Command) : list Command :=
  fold_left (fun cs b => mark_executed b cs) bs cmds.

(** A helper that always fulfils, with a value without [<]. *)
Definition tame (h : Helper) : Prop :=
  forall md p, exists v, call h md p = Answers (Fulfils v) /\ ~ In 60%N v.

Definition tame_commands (cmds : list Command) : Prop :=
  Forall (fun c => exists h, helper c = Some h /\ tame h) cmds.

(** A registry of helpers that return text without [<]. *)
Definition text_helpers : option json -> option Helper :=
  registry [(js "upper", const_helper 0 (js "X"));
            (js "low", const_helper 1 (js "x"))].

(** The binding indexes of the helpers invoked during a run, in order. *)
Definition invoked (evs : list Event) : list nat :=
  map snd (invocations evs).

(** The binding indexes of the commands still to execute. *)
Definition pending (cmds : list Command) : list nat :=
  map bindingIndex (notExecutedCommands cmds).

(* ================================================================== *)
(** ** Locating the repository *)
(* ================================================================== *)

(** [Gitdown._pathGit] walks up from the directory of the module until a
    directory holds [.git].  The file system is a parameter:
    [existsSync] answers whether a path exists, [realpathSync] resolves a
    path or throws.  The loop is run with fuel; [dirname] is the global
    variable the function assigns. *)
Module Paths.

Section FileSystem.

Variable FsError : Type.
Variable existsSync : jsstring -> bool.
Variable realpathSync : jsstring -> FsError + jsstring.

Inductive Thrown : Type :=
| GitPathNotLocated
| FsThrew (e : FsError).

Inductive Result : Type :=
| Returns (path : jsstring)
| Throws (e : Thrown)
| Looping.

Fixpoint walk (fuel : nat) (dirname : jsstring) : jsstring * Result :=
  match fuel with
  | O => (dirname, Looping)
  | S fuel =>
      if existsSync (dirname ++ js "/.git") then
        (dirname, Returns (dirname ++ js "/.git"))
      else
        match realpathSync (dirname ++ js "/..") with
        | inl e => (dirname, Throws (FsThrew e))
        | inr dirname' =>
            if existsSync dirname' && negb (jsstring_eqb dirname' (js "/"))
            then walk fuel dirname'
            else (dirname', Throws GitPathNotLocated)
        end
  end.

Definition _pathGit (fuel : nat) (__dirname : jsstring) : jsstring * Result :=
  walk fuel __dirname.

Definition _pathRepository (fuel : nat) (__dirname : jsstring)
  : jsstring * Result :=
  match _pathGit fuel __dirname with
  | (dirname, Returns gitpath) =>
      match realpathSync (gitpath ++ js "/..") with
      | inl e => (dirname, Throws (FsThrew e))
      | inr path => (dirname, Returns path)
      end
  | other => other
  end.

(** The directories the loop passes through: from [d] it moves to the
    resolved parent when [d] holds no [.git] and the parent exists and is
    not the root. *)
Inductive climbs : jsstring -> jsstring -> Prop :=
| climbs_here (d : jsstring) : climbs d d
| climbs_up (d d' d'' : jsstring) :
    existsSync (d ++ js "/.git") = false ->
    realpathSync (d ++ js "/..") = inr d' ->
    existsSync d' = true ->
    d' <> js "/" ->
    climbs d' d'' ->
    climbs d d''.

End FileSystem.

Arguments GitPathNotLocated {FsError}.
Arguments FsThrew {FsError} e.
Arguments Returns {FsError} path.
Arguments Throws {FsError} e.
Arguments Looping {FsError}.

(** A file system given by the list of its paths and by a table of the
    paths [realpathSync] resolves; on any other path it throws. *)
Definition listed (paths : list jsstring) (p : jsstring) : bool :=
  existsb (jsstring_eqb p) paths.

Fixpoint resolved (table : list (jsstring * jsstring)) (p : jsstring)
  : jsstring + jsstring :=
  match table with
  | [] => inl p
  | (q, r) :: table => if jsstring_eqb p q then inr r else resolved table p
  end.

Definition demo_paths : list jsstring :=
  [js "/repo"; js "/repo/.git"; js "/repo/src"; js "/repo/src/dist"].

Definition demo_table : list (jsstring * jsstring) :=
  [(js "/repo/src/dist/..", js "/repo/src");
   (js "/repo/src/..", js "/repo");
   (js "/repo/..", js "/");
   (js "/repo/.git/..", js "/repo")].

(** The same tree with the [.git] directory directly under the root. *)
Definition root_paths : list jsstring :=
  [js "/"; js "//.git"; js "/src"; js "/src/lib"].

Definition root_table : list (jsstring * jsstring) :=
  [(js "/src/lib/..", js "/src"); (js "/src/..", js "/"); (js "//..", js "/")].

End Paths.

(** The number of objects in a value, at any depth. *)
Fixpoint objects (v : json) : nat :=
  match v with
  | JArray elems =>
      (fix sum (l : list json) : nat :=
         match l with
         | [] => 0
         | x :: r => objects x + sum r
         end) elems
  | JObject fields =>
      S ((fix sum (l : list (jsstring * json)) : nat :=
            match l with
            | [] => 0
            | (_, x) :: r => objects x + sum r
            end) fields)
  | _ => 0
  end.

Fixpoint objects_in (elems : list json) : nat :=
  match elems with
  | [] => 0
  | x :: r => objects x + objects_in r
  end.

Fixpoint objects_of (fields : list (jsstring * json)) : nat :=
  match fields with
  | [] => 0
  | (_, x) :: r => objects x + objects_of r
  end.

Definition frame_objects (f : frame) : nat :=
  match f with
  | FArr elems => objects_in elems
  | FObj fields _ => objects_of fields
  end.

Fixpoint stack_objects (stk : list frame) : nat :=
  match stk with
  | [] => 0
  | f :: r => frame_objects f + stack_objects r
  end.

Definition state_objects (st : pstate) : nat :=
  match st with
  | PValue stk | PFirstElem stk | PFirstKey stk => stack_objects stk
  | PKey fields stk | PColon fields _ stk | PObjNext fields stk =>
      objects_of fields + stack_objects stk
  | PArrNext elems stk => objects_in elems + stack_objects stk
  | PDone v => objects v
  end.

(** The closing braces among tokens, and among code units. *)
Fixpoint closings (ts : list token) : nat :=
  match ts with
  | [] => 0
  | TRBrace :: r => S (closings r)
  | _ :: r => closings r
  end.

Fixpoint braces (s : jsstring) : nat :=
  match s with
  | [] => 0
  | c :: r => (if N.eqb c 125 then 1 else 0) + braces r
  end.

(** The word being read by the lexer is never a brace. *)
Definition word_state (st : lstate) : Prop :=
  match st with
  | LWord _ t => closings [t] = 0
  | _ => True
  end.

(** A command whose name and parameters hold no object besides the
    parameters themselves. *)
Definition flat_command (c : Command) : Prop :=
  objects (parameters c) = 1 /\
  forall nm, name c = Some nm -> objects nm = 0.

(** The text in which each match of the pattern, numbered from [index]
    on, is replaced by the value [val] gives for its number. *)
Fixpoint expanded (val : nat -> jsstring) (chunks : list chunk) (index : nat)
  : jsstring :=
  match chunks with
  | [] => []
  | Lit c :: rest => c :: expanded val rest index
  | Hit _ :: rest => val (S index) ++ expanded val rest (S index)
  end.

(** The tokens of the text a scan builds. *)
Fixpoint toks_of (chunks : list chunk) (index : nat) : list tok :=
  match chunks with
  | [] => []
  | Lit c :: rest => Chr c :: toks_of rest index
  | Hit _ :: rest => Ph (S index) :: toks_of rest (S index)
  end.

(** A value that is inserted as it is, brings no placeholder and cannot
    be part of a directive. *)
Definition text_value (v : jsstring) : Prop :=
  ~ In 36%N v /\ ~ In 8834%N v /\ ~ In 60%N v.

(** The helper of [c] fulfils with [val (bindingIndex c)] on the
    parameters of [c], whatever the text it is given. *)
Definition answers_with (val : nat -> jsstring) (c : Command) : Prop :=
  exists h,
    helper c = Some h /\
    forall md, call h md (parameters c)
               = Answers (Fulfils (val (bindingIndex c))).

Definition promise_of (val : nat -> jsstring) (i : nat) : nat * Settled :=
  (i, Fulfils (val i)).

(** The substitutions of the bindings [order], one after the other. *)
Definition fill (val : nat -> jsstring) (order : list nat) (md : jsstring)
  : jsstring :=
  fold_left (fun m i => replace (placeholder i) (val i) m) order md.

Definition fill_toks (val : nat -> jsstring) (order : list nat)
  (toks : list tok) : list tok :=
  fold_left (fun t i => subst_tok i (val i) t) order toks.

(** The values of the two helpers of [text_helpers] in a document that
    calls [upper] first. *)
Definition upper_then_low (i : nat) : jsstring :=
  if Nat.eqb i 1 then js "X" else js "x".

(** The helper of [c], called with the text [md], returns the promise
    [p]. *)
Definition promises_with (md : jsstring) (c : Command) (p : Settled) : Prop :=
  exists h, helper c = Some h /\ call h md (parameters c) = Answers p.

(** A registry whose helper rejects. *)
Definition rejecting_helpers : option json -> option Helper :=
  registry [(js "upper", const_helper 0 (js "X"));
            (js "fail",
             {| weight := 0;
                call := fun _ _ => Answers (Rejects (js "no")) |})].

(** A value in which every [$] is doubled. *)
Fixpoint escape_dollars (v : jsstring) : jsstring :=
  match v with
  | [] => []
  | c :: r =>
      if N.eqb c 36 then 36%N :: 36%N :: escape_dollars r
      else c :: escape_dollars r
  end.

(** A registry with a helper whose promise never settles. *)
Definition hanging_helpers : option json -> option Helper :=
  registry [(js "upper", const_helper 0 (js "X"));
            (js "wait",
             {| weight := 0; call := fun _ _ => Answers Hangs |})].

(** The binding indexes of the placeholder tokens of a text. *)
Definition phs (toks : list tok) : list nat :=
  flat_map (fun t => match t with
                     | Ph n => [n]
                     | Chr _ => []
                     end) toks.

(** The text is made of units other than U+2282 and of placeholders
    whose binding indexes satisfy [P], each of them at most once. *)
Definition once (P : nat -> Prop) (s : jsstring) : Prop :=
  exists toks,
    s = flat toks /\ Forall chr_ok toks /\ NoDup (phs toks) /\
    Forall P (phs toks).

(** A helper whose values have neither [$] nor the unit U+2282. *)
Definition plain_helper (h : Helper) : Prop :=
  forall md p v, call h md p = Answers (Fulfils v) -> plain v.

Definition plain_commands (cmds : list Command) : Prop :=
  Forall (fun c => forall h, helper c = Some h -> plain_helper h) cmds.

(** The substitution steps of a trace: for each callback of a fulfilled
    promise, the text its round began with, the state before the
    callback, the binding index and the state after.  [text] and [cur]
    are the text of the round and the state before the events. *)
Fixpoint steps (text : jsstring) (cur : State) (evs : list Event)
  : list (jsstring * State * nat * State) :=
  match evs with
  | [] => []
  | Parsed _ st :: rest => steps (markdown st) st rest
  | Invoked _ _ :: rest => steps text cur rest
  | Replaced _ b st' :: rest => (text, cur, b, st') :: steps text st' rest
  end.

(** The registry has a command of binding index [b] whose helper, called
    with [text] and the parameters of the command, fulfils with [v]. *)
Definition invoked_with (text : jsstring) (cmds : list Command) (b : nat)
  (p : Settled) : Prop :=
  exists c h,
    In c cmds /\ bindingIndex c = b /\ helper c = Some h /\
    call h text (parameters c) = Answers p.

(** The step puts the value of the helper of binding [b] in the place of
    the one placeholder of [b], or changes nothing when the text has no
    such placeholder. *)
Definition replaces_token (s : jsstring * State * nat * State) : Prop :=
  let '(text, before, b, after) := s in
  exists v,
    invoked_with text (commands before) b (Fulfils v) /\
    ((exists pre post,
         markdown before = pre ++ placeholder b ++ post /\
         ~ occurs (placeholder b) pre /\
         ~ occurs (placeholder b) post /\
         markdown after = pre ++ v ++ post) \/
     (~ occurs (placeholder b) (markdown before) /\
      markdown after = markdown before)).

(** The state of a run in which every placeholder is met at most once. *)
Definition unique (st : State) : Prop :=
  numbered (commands st) /\
  once (fun k => 1 <= k <= List.length (commands st)) (markdown st) /\
  plain_commands (commands st).

Definition step_binding (s : jsstring * State * nat * State) : nat :=
  snd (fst s).

(** The binding indexes of the callbacks of a trace, in order. *)
Definition replaced (evs : list Event) : list nat :=
  flat_map (fun e => match e with
                     | Replaced _ b _ => [b]
                     | _ => []
                     end) evs.

(* ================================================================== *)
(** ** Lemmas on strings and on the pattern *)
(* ================================================================== *)

Lemma strip_prefix_app (p s : jsstring) : strip_prefix p (p ++ s) = Some s.
Proof.
  induction p as [|x p IH]; simpl; [reflexivity|].
  now rewrite N.eqb_refl.
Qed.

Lemma strip_prefix_Some (p s r : jsstring) :
  strip_prefix p s = Some r -> s = p ++ r.
Proof.
  revert s; induction p as [|x p IH]; intros s H; simpl in *.
  - now inversion H.
  - destruct s as [|y s]; [discriminate|].
    destruct (N.eqb_spec x y) as [->|]; [|discriminate].
    now rewrite (IH _ H).
Qed.

Lemma strip_prefix_head (x y : N) (p s : jsstring) :
  x <> y -> strip_prefix (x :: p) (y :: s) = None.
Proof.
  intros Hne; simpl. now destruct (N.eqb_spec x y).
Qed.

Lemma span_not_brace_spec (s run rest : jsstring) :
  span_not_brace s = (run, rest) ->
  s = run ++ rest /\ Forall (fun c => c <> 125%N) run.
Proof.
  revert run rest; induction s as [|c s IH]; intros run rest H; simpl in H.
  - inversion H; subst; split; [reflexivity|constructor].
  - destruct (N.eqb_spec c 125) as [->|Hc].
    + inversion H; subst; split; [reflexivity|constructor].
    + destruct (span_not_brace s) as [run' rest'] eqn:E.
      inversion H; subst.
      destruct (IH _ _ eq_refl) as [-> HF].
      split; [reflexivity|now constructor].
Qed.

(** The run stops at the first closing brace. *)
Lemma span_not_brace_app (run rest : jsstring) :
  Forall (fun c => c <> 125%N) run ->
  span_not_brace (run ++ 125%N :: rest) = (run, 125%N :: rest).
Proof.
  induction 1 as [|c run Hc _ IH]; simpl; [reflexivity|].
  destruct (N.eqb_spec c 125) as [->|_]; [contradiction|].
  now rewrite IH.
Qed.

Lemma match_at_shape (s m : jsstring) :
  match_at s = Some m ->
  exists run rest,
    m = opening ++ run ++ closing /\ s = m ++ rest /\ run <> [] /\
    Forall (fun c => c <> 125%N) run.
Proof.
  unfold match_at; intros H.
  destruct (strip_prefix opening s) as [r|] eqn:E1; [|discriminate].
  destruct (span_not_brace r) as [run rest] eqn:E2.
  destruct run as [|c run]; [discriminate|].
  destruct (strip_prefix closing rest) as [rest'|] eqn:E3; [|discriminate].
  injection H as <-.
  apply strip_prefix_Some in E1, E3.
  apply span_not_brace_spec in E2 as [E2 HF].
  exists (c :: run), rest'; repeat split; try assumption; try discriminate.
  rewrite E1, E2, E3. simpl. now rewrite <- app_assoc.
Qed.

Lemma match_at_head (c : N) (s : jsstring) :
  c <> 60%N -> match_at (c :: s) = None.
Proof.
  intros Hc; unfold match_at.
  change opening with (60%N :: tl opening).
  rewrite strip_prefix_head; [reflexivity|congruence].
Qed.

Lemma scan_skip (l r : jsstring) : scan (List.length l) (l ++ r) = scan 0 r.
Proof. induction l as [|c l IH]; simpl; [reflexivity|exact IH]. Qed.

Lemma scan_hit (s m rest : jsstring) :
  match_at s = Some m -> s = m ++ rest -> scan 0 s = Hit m :: scan 0 rest.
Proof.
  intros Hm Hs.
  destruct (match_at_shape _ _ Hm) as (run & _ & Hshape & _).
  destruct m as [|c m]; [discriminate Hshape|].
  subst s. change ((c :: m) ++ rest) with (c :: (m ++ rest)) in *.
  cbn [scan]. rewrite Hm.
  cbn [List.length]. rewrite Nat.sub_succ, Nat.sub_0_r. now rewrite scan_skip.
Qed.

Lemma scan_lit (c : N) (s : jsstring) :
  match_at (c :: s) = None -> scan 0 (c :: s) = Lit c :: scan 0 s.
Proof. intros H; cbn [scan]. now rewrite H. Qed.

Lemma scan_lits (l s : jsstring) :
  Forall (fun c => c <> 60%N) l -> scan 0 (l ++ s) = map Lit l ++ scan 0 s.
Proof.
  induction 1 as [|c l Hc _ IH]; simpl app; [reflexivity|].
  rewrite scan_lit by now apply match_at_head.
  simpl. now rewrite IH.
Qed.

Lemma has_match_cons (c : N) (s : jsstring) :
  has_match (c :: s) = false <->
  match_at (c :: s) = None /\ has_match s = false.
Proof.
  cbn [has_match]. destruct (match_at (c :: s)); split; intros H.
  - discriminate.
  - now destruct H.
  - now split.
  - now destruct H.
Qed.

Lemma has_match_lits (l s : jsstring) :
  Forall (fun c => c <> 60%N) l -> has_match (l ++ s) = has_match s.
Proof.
  induction 1 as [|c l Hc _ IH]; simpl app; [reflexivity|].
  cbn [has_match]. now rewrite match_at_head.
Qed.

Lemma scan_no_match (s : jsstring) :
  has_match s = false -> scan 0 s = map Lit s.
Proof.
  induction s as [|c s IH]; intros H; [reflexivity|].
  apply has_match_cons in H as [H1 H2].
  rewrite scan_lit by assumption. simpl. now rewrite IH.
Qed.

(* ================================================================== *)
(** ** Lemmas on [parse], [execute] and [play] *)
(* ================================================================== *)

Section ParserFacts.

Variable helpers : option json -> option Helper.
Variable sched : nat -> list (nat * Settled) -> list (nat * Settled).

Lemma replace_hits_lits (l : jsstring) (chunks : list chunk) (index : nat)
  (cmds : list Command) :
  replace_hits helpers (map Lit l ++ chunks) index cmds =
  match replace_hits helpers chunks index cmds with
  | Throw e => Throw e
  | Normal (out, index', cmds') => Normal (l ++ out, index', cmds')
  end.
Proof.
  induction l as [|c l IH]; simpl.
  - now destruct (replace_hits helpers chunks index cmds) as [[[? ?] ?]|].
  - rewrite IH.
    now destruct (replace_hits helpers chunks index cmds) as [[[? ?] ?]|].
Qed.

Lemma parse_no_match (md : jsstring) (cmds : list Command) (index : nat) :
  has_match md = false ->
  parse helpers md cmds index =
  Normal ({| markdown := md; commands := cmds; change := false |}, index).
Proof.
  intros H; unfold parse.
  rewrite (scan_no_match _ H).
  rewrite <- (app_nil_r (map Lit md)), replace_hits_lits; simpl.
  now rewrite app_nil_r, Nat.eqb_refl.
Qed.

Lemma execute_idle (pass : nat) (st : State) :
  notExecutedCommands (commands st) = [] ->
  execute sched pass st = ([], Fulfilled st).
Proof. intros H; unfold execute. now rewrite H. Qed.

Lemma play_no_match (fuel pass : nat) (md : jsstring) (index : nat) :
  has_match md = false ->
  play helpers sched (S fuel) pass md [] index =
  ([Parsed pass {| markdown := md; commands := []; change := false |}],
   Fulfilled {| markdown := md; commands := []; change := false |}).
Proof.
  intros H; cbn [play].
  rewrite (parse_no_match _ _ _ H).
  now rewrite execute_idle.
Qed.

Lemma get_no_match (fuel : nat) (text : jsstring) :
  has_match text = false ->
  snd (get helpers sched (S fuel) text) = Fulfilled text.
Proof.
  intros H; unfold get.
  now rewrite (play_no_match fuel 0 text 0 H).
Qed.

End ParserFacts.

(* ================================================================== *)
(** ** Lemmas on [replace] *)
(* ================================================================== *)

Lemma index_of_Some (pat s pre post : jsstring) :
  index_of pat s = Some (pre, post) -> s = pre ++ pat ++ post.
Proof.
  revert pre post; induction s as [|c s IH]; intros pre post H.
  - cbn [index_of] in H.
    destruct (strip_prefix pat []) as [r|] eqn:E; [|discriminate].
    injection H as <- <-. now apply strip_prefix_Some in E.
  - cbn [index_of] in H.
    destruct (strip_prefix pat (c :: s)) as [r|] eqn:E.
    + injection H as <- <-. now apply strip_prefix_Some in E.
    + destruct (index_of pat s) as [[pre' post']|]; [|discriminate].
      injection H as <- <-. now rewrite (IH _ _ eq_refl).
Qed.

Lemma GetSubstitution_plain (matched pre post v : jsstring) :
  ~ In 36%N v -> GetSubstitution matched pre post v = v.
Proof.
  induction v as [|c v IH]; intros H; [reflexivity|].
  cbn [GetSubstitution].
  destruct (N.eqb_spec c 36) as [->|_]; [exfalso; apply H; now left|].
  rewrite IH; [reflexivity|]. intros Hin; apply H; now right.
Qed.

Lemma replace_found (pat v s pre post : jsstring) :
  index_of pat s = Some (pre, post) ->
  replace pat v s = pre ++ GetSubstitution pat pre post v ++ post.
Proof. intros H; unfold replace; now rewrite H. Qed.

Lemma replace_absent (pat v s : jsstring) :
  index_of pat s = None -> replace pat v s = s.
Proof. intros H; unfold replace; now rewrite H. Qed.

(* ================================================================== *)
(** ** What [JSON.parse] returns for the text of a match *)
(* ================================================================== *)

Lemma jsstring_eqb_eq (a b : jsstring) : jsstring_eqb a b = true <-> a = b.
Proof.
  unfold jsstring_eqb. destruct (list_eq_dec N.eq_dec a b); split; congruence.
Qed.

Lemma jsstring_eqb_refl (a : jsstring) : jsstring_eqb a a = true.
Proof. now apply jsstring_eqb_eq. Qed.

Lemma obj_set_has (k : jsstring) (v : json) (fields : list (jsstring * json)) :
  obj_get k (obj_set k v fields) <> None.
Proof.
  induction fields as [|[k' v'] fields IH]; simpl.
  - now rewrite jsstring_eqb_refl.
  - destruct (jsstring_eqb k k') eqn:E; simpl; rewrite E; [discriminate|exact IH].
Qed.

Lemma obj_set_keeps (k k' : jsstring) (v : json)
  (fields : list (jsstring * json)) :
  obj_get k fields <> None -> obj_get k (obj_set k' v fields) <> None.
Proof.
  induction fields as [|[k0 v0] fields IH]; simpl; [congruence|].
  destruct (jsstring_eqb k k0) eqn:E; intros H.
  - destruct (jsstring_eqb k' k0); simpl; rewrite E; discriminate.
  - destruct (jsstring_eqb k' k0); simpl; rewrite E; [exact H|now apply IH].
Qed.

Lemma stack_rooted_cons (fr : frame) (stk : list frame) :
  stack_rooted stk -> stack_rooted (fr :: stk).
Proof. destruct stk; simpl; [contradiction|trivial]. Qed.

Lemma deliver_rooted (v : json) (stk : list frame) :
  stack_rooted stk -> rooted (deliver v stk).
Proof.
  destruct stk as [|fr [|fr' stk]]; [contradiction| |].
  - destruct fr as [elems|fields k]; simpl; [contradiction|].
    intros [->|H]; right; split; trivial.
    + apply obj_set_has.
    + now apply obj_set_keeps.
  - intros H. destruct fr; simpl; [exact H|left; exact H].
Qed.

Lemma value_token_rooted (t : token) (stk : list frame) (st' : pstate) :
  stack_rooted stk -> value_token t stk = Some st' -> rooted st'.
Proof.
  intros Hs H.
  destruct t; simpl in H; try discriminate; injection H as <-;
    try (now apply deliver_rooted); exact Hs.
Qed.

Lemma parse_step_rooted (st st' : pstate) (t : token) :
  rooted st -> parse_step st t = Some st' -> rooted st'.
Proof.
  destruct st as [stk|stk|stk|fields stk|fields k stk|elems stk|fields stk|v];
    simpl; intros Hr H.
  - eapply value_token_rooted; eauto.
  - destruct t; try (eapply value_token_rooted; [|exact H];
                     now apply stack_rooted_cons).
    injection H as <-. now apply deliver_rooted.
  - destruct t; try discriminate; injection H as <-.
    + now apply deliver_rooted.
    + left; exact Hr.
  - destruct t; try discriminate; injection H as <-.
    destruct Hr as [Hr|[-> Hr]]; [left|right]; auto.
  - destruct t; try discriminate; injection H as <-.
    destruct Hr as [Hr|[-> Hr]].
    + exact (stack_rooted_cons (FObj fields k) stk Hr).
    + exact Hr.
  - destruct t; try discriminate; injection H as <-.
    + now apply deliver_rooted.
    + exact (stack_rooted_cons (FArr elems) stk Hr).
  - destruct t; try discriminate; injection H as <-.
    + destruct Hr as [Hr|[-> Hr]]; [now apply deliver_rooted|].
      simpl. now exists fields.
    + exact Hr.
  - discriminate.
Qed.

Lemma parse_from_rooted (ts : list token) (st : pstate) (v : json) :
  rooted st -> parse_from st ts = Some v ->
  exists fields, v = JObject fields /\ has_key fields.
Proof.
  revert st; induction ts as [|t ts IH]; intros st Hr H; simpl in H.
  - destruct st; try discriminate. injection H as <-. exact Hr.
  - destruct (parse_step st t) as [st'|] eqn:E; [|discriminate].
    eapply IH; [|exact H]. eapply parse_step_rooted; eauto.
Qed.

Lemma lex_from_gitdown (x : jsstring) :
  lex_from LStart (js "{'gitdown'" ++ x) =
  match lex_from LStart x with
  | None => None
  | Some more => Some (TLBrace :: TString gitdown_key :: more)
  end.
Proof. cbn. destruct (lex_from LStart x); reflexivity. Qed.

Lemma JSON_parse_gitdown (x : jsstring) (v : json) :
  JSON.parse (js "{'gitdown'" ++ x) = Some v ->
  exists fields nm, v = JObject fields /\ obj_get gitdown_key fields = Some nm.
Proof.
  unfold JSON.parse. rewrite lex_from_gitdown.
  destruct (lex_from LStart x) as [more|]; [|discriminate].
  intros H.
  change (parse_from (PColon [] gitdown_key []) more = Some v) in H.
  apply parse_from_rooted in H as (fields & -> & Hk).
  - unfold has_key in Hk.
    destruct (obj_get gitdown_key fields) as [nm|] eqn:E; [|congruence].
    now exists fields, nm.
  - right; split; [reflexivity|now left].
Qed.

Lemma slice_spec (l : jsstring) (a b c d : N) :
  slice_2_m2 (a :: b :: l ++ [c; d]) = l.
Proof.
  unfold slice_2_m2. cbn [skipn].
  replace (List.length (a :: b :: l ++ [c; d]) - 4) with (List.length l + 0)
    by (cbn [List.length]; rewrite length_app; simpl; lia).
  rewrite firstn_app_2. simpl. apply app_nil_r.
Qed.

Lemma slice_of_match (run : jsstring) :
  slice_2_m2 (opening ++ run ++ closing) = js "{'gitdown'" ++ run ++ [125%N].
Proof.
  rewrite <- (slice_spec (js "{'gitdown'" ++ run ++ [125%N]) 60 60 62 62).
  f_equal. simpl. now rewrite <- app_assoc.
Qed.

(** Whatever the pattern matches parses to an object that has the key
    [gitdown], or does not parse. *)
Lemma match_parses_to_directive (s m : jsstring) (v : json) :
  match_at s = Some m -> JSON.parse (slice_2_m2 m) = Some v ->
  exists fields nm, v = JObject fields /\ obj_get gitdown_key fields = Some nm.
Proof.
  intros Hm Hp.
  destruct (match_at_shape _ _ Hm) as (run & rest & -> & _).
  rewrite slice_of_match in Hp. now apply JSON_parse_gitdown in Hp.
Qed.

Lemma scan_genuine (s : jsstring) (k : nat) : Forall genuine (scan k s).
Proof.
  revert k; induction s as [|c s IH]; intros k; simpl; [constructor|].
  destruct k as [|k]; [|apply IH].
  destruct (match_at (c :: s)) as [m|] eqn:E; constructor; try apply IH.
  - now exists (c :: s).
  - exact I.
Qed.

(* ================================================================== *)
(** ** What the scan of [parse] registers *)
(* ================================================================== *)

Section ScanFacts.

Variable helpers : option json -> option Helper.
Variable sched : nat -> list (nat * Settled) -> list (nat * Settled).

Lemma on_match_cases (m : jsstring) (index : nat) (cmds : list Command) :
  genuine (Hit m) ->
  (JSON.parse (slice_2_m2 m) = None /\
   on_match helpers m index cmds = Throw SyntaxError) \/
  (exists command nm,
      JSON.parse (slice_2_m2 m) = Some command /\
      get_gitdown command = Normal (Some nm) /\
      on_match helpers m index cmds =
      Normal (placeholder (S index), S index,
              cmds ++ [{| bindingIndex := S index;
                          name := Some nm;
                          parameters := delete_gitdown command;
                          helper := helpers (Some nm);
                          executed := false |}])).
Proof.
  intros [s Hm]. unfold on_match.
  destruct (JSON.parse (slice_2_m2 m)) as [command|] eqn:E; [right|now left].
  destruct (match_parses_to_directive _ _ _ Hm E) as (fields & nm & -> & Hk).
  exists (JObject fields), nm. cbn [get_gitdown].
  fold gitdown_key. now rewrite Hk.
Qed.

Lemma replace_hits_grows (chunks : list chunk) :
  Forall genuine chunks ->
  forall index cmds out index' cmds',
    replace_hits helpers chunks index cmds = Normal (out, index', cmds') ->
    exists news,
      cmds' = cmds ++ news /\ index' = index + List.length news /\
      map bindingIndex news = seq (S index) (List.length news) /\
      Forall (fresh helpers) news.
Proof.
  induction 1 as [|ch chunks Hg _ IH]; intros index cmds out index' cmds' H.
  - injection H as <- <- <-. exists []. rewrite app_nil_r, Nat.add_0_r.
    repeat split; constructor.
  - destruct ch as [c|m]; cbn [replace_hits] in H.
    + destruct (replace_hits helpers chunks index cmds)
        as [[[out0 i0] c0]|] eqn:E; [|discriminate].
      injection H as <- <- <-. now apply (IH _ _ _ _ _ E).
    + destruct (on_match_cases m index cmds Hg)
        as [[_ Ho]|(command & nm & _ & _ & Ho)];
        rewrite Ho in H; [discriminate|].
      destruct (replace_hits helpers chunks (S index) _)
        as [[[out0 i0] c0]|] eqn:E; [|discriminate].
      injection H as <- <- <-.
      destruct (IH _ _ _ _ _ E) as (news & -> & -> & Hn & Hf).
      eexists (_ :: news). rewrite <- app_assoc. split; [reflexivity|].
      cbn [List.length map bindingIndex seq]. rewrite Hn.
      repeat split; [lia|]. constructor; [|exact Hf]. now split.
Qed.

Lemma replace_hits_throws (chunks : list chunk) :
  Forall genuine chunks ->
  forall index cmds e,
    replace_hits helpers chunks index cmds = Throw e -> e = SyntaxError.
Proof.
  induction 1 as [|ch chunks Hg _ IH]; intros index cmds e H; [discriminate|].
  destruct ch as [c|m]; cbn [replace_hits] in H.
  - destruct (replace_hits helpers chunks index cmds)
      as [[[out0 i0] c0]|] eqn:E; [discriminate|].
    injection H as <-. now apply (IH _ _ _ E).
  - destruct (on_match_cases m index cmds Hg)
      as [[_ Ho]|(command & nm & _ & _ & Ho)];
      rewrite Ho in H; [now injection H|].
    destruct (replace_hits helpers chunks (S index) _)
      as [[[out0 i0] c0]|] eqn:E; [discriminate|].
    injection H as <-. now apply (IH _ _ _ E).
Qed.

Lemma replace_hits_invalid (chunks : list chunk) (m : jsstring) :
  Forall genuine chunks -> In (Hit m) chunks ->
  JSON.parse (slice_2_m2 m) = None ->
  forall index cmds,
    replace_hits helpers chunks index cmds = Throw SyntaxError.
Proof.
  intros Hg Hin Hp index cmds.
  destruct (replace_hits helpers chunks index cmds)
    as [[[out i] c]|e] eqn:E.
  - exfalso. revert index cmds out i c E.
    induction Hg as [|ch chunks Hch _ IH]; intros index cmds out i c E;
      [contradiction|].
    destruct ch as [u|m0]; cbn [replace_hits] in E.
    + destruct Hin as [Hin|Hin]; [discriminate|].
      destruct (replace_hits helpers chunks index cmds)
        as [[[out0 i0] c0]|] eqn:E0; [|discriminate].
      now apply (IH Hin _ _ _ _ _ E0).
    + destruct (on_match_cases m0 index cmds Hch)
        as [[_ Ho]|(command & nm & Hc & _ & Ho)];
        rewrite Ho in E; [discriminate|].
      destruct Hin as [Hin|Hin]; [injection Hin as ->; congruence|].
      destruct (replace_hits helpers chunks (S index) _)
        as [[[out0 i0] c0]|] eqn:E0; [|discriminate].
      now apply (IH Hin _ _ _ _ _ E0).
  - now rewrite (replace_hits_throws _ Hg _ _ _ E).
Qed.

Lemma replace_hits_records (chunks : list chunk) (m : jsstring)
  (command : json) (nm : option json) :
  Forall genuine chunks -> In (Hit m) chunks ->
  JSON.parse (slice_2_m2 m) = Some command ->
  get_gitdown command = Normal nm ->
  forall index cmds out index' cmds',
    replace_hits helpers chunks index cmds = Normal (out, index', cmds') ->
    exists c, In c cmds' /\ executed c = false /\ helper c = helpers nm.
Proof.
  intros Hg Hin Hp Hn.
  induction Hg as [|ch chunks Hch Hg IH];
    intros index cmds out index' cmds' E; [contradiction|].
  destruct ch as [u|m0]; cbn [replace_hits] in E.
  - destruct Hin as [Hin|Hin]; [discriminate|].
    destruct (replace_hits helpers chunks index cmds)
      as [[[out0 i0] c0]|] eqn:E0; [|discriminate].
    injection E as <- <- <-. now apply (IH Hin _ _ _ _ _ E0).
  - destruct (on_match_cases m0 index cmds Hch)
      as [[_ Ho]|(command0 & nm0 & Hc & Hn0 & Ho)];
      rewrite Ho in E; [discriminate|].
    destruct (replace_hits helpers chunks (S index) _)
      as [[[out0 i0] c0]|] eqn:E0; [|discriminate].
    injection E as <- <- <-.
    destruct Hin as [Hin|Hin]; [|now apply (IH Hin _ _ _ _ _ E0)].
    injection Hin as ->.
    destruct (replace_hits_grows _ Hg _ _ _ _ _ E0) as (news & -> & _).
    eexists. split; [apply in_or_app; left; apply in_or_app; right; now left|].
    cbn [executed helper]. split; [reflexivity|]. congruence.
Qed.

Lemma weights_undefined (l : list Command) (c : Command) :
  In c l -> helper c = None -> weights l = Throw TypeError.
Proof.
  intros Hin Hc.
  assert (Hall : forall l e, weights l = Throw e -> e = TypeError).
  { clear. induction l as [|c l IH]; intros e H; [discriminate|].
    cbn [weights] in H. destruct (helper c); [|now injection H].
    destruct (weights l); [discriminate|]. injection H as <-. now apply IH. }
  induction l as [|c0 l IH]; [contradiction|]. cbn [weights].
  destruct (helper c0) as [h|] eqn:E0; [|reflexivity].
  destruct Hin as [->|Hin]; [congruence|]. now rewrite (IH Hin).
Qed.

Lemma execute_undefined (pass : nat) (st : State) (c : Command) :
  In c (commands st) -> executed c = false -> helper c = None ->
  execute sched pass st = ([], Thrown TypeError).
Proof.
  intros Hin He Hh; unfold execute.
  assert (Hc : In c (notExecutedCommands (commands st))).
  { apply filter_In. split; [exact Hin|now rewrite He]. }
  destruct (notExecutedCommands (commands st)) as [|c0 todo]; [contradiction|].
  now rewrite (weights_undefined _ _ Hc Hh).
Qed.

Lemma play_undefined (fuel pass : nat) (md : jsstring) (cmds : list Command)
  (index index' : nat) (st : State) (c : Command) :
  parse helpers md cmds index = Normal (st, index') ->
  In c (commands st) -> executed c = false -> helper c = None ->
  play helpers sched (S fuel) pass md cmds index
  = ([Parsed pass st], Thrown TypeError).
Proof.
  intros Hp Hin He Hh. cbn [play]. rewrite Hp.
  now rewrite (execute_undefined pass st c Hin He Hh).
Qed.

End ScanFacts.

(* ================================================================== *)
(** ** Placeholders and tokenised texts *)
(* ================================================================== *)

Lemma uint_units_digits (d : Decimal.uint) :
  Forall (fun c => (48 <= c <= 57)%N) (uint_units d).
Proof. induction d; simpl; constructor; trivial; lia. Qed.

Lemma uint_units_inj (d d' : Decimal.uint) :
  uint_units d = uint_units d' -> d = d'.
Proof.
  revert d'; induction d; intros d' H; destruct d'; simpl in H;
    try discriminate H; try reflexivity;
    injection H as H; f_equal; now apply IHd.
Qed.

Lemma nat_toString_inj (n m : nat) : nat_toString n = nat_toString m -> n = m.
Proof.
  intros H. apply DecimalNat.Unsigned.to_uint_inj. now apply uint_units_inj.
Qed.

Lemma nat_toString_not (c : N) (n : nat) :
  (c < 48 \/ 57 < c)%N -> ~ In c (nat_toString n).
Proof.
  intros Hc Hin. unfold nat_toString in Hin.
  pose proof (uint_units_digits (Nat.to_uint n)) as HF.
  rewrite Forall_forall in HF. specialize (HF _ Hin). lia.
Qed.

Lemma placeholder_unfold (n : nat) :
  placeholder n = 8834%N :: 8834%N :: ph_body n.
Proof. reflexivity. Qed.

Lemma ph_body_not (c : N) (n : nat) :
  (c < 48 \/ 57 < c)%N -> c <> 8835%N -> ~ In c (ph_body n).
Proof.
  intros Hc Hc' Hin. unfold ph_body in Hin.
  apply in_app_or in Hin as [Hin|[Hin|[Hin|[]]]]; try congruence.
  now apply (nat_toString_not c n).
Qed.

Lemma placeholder_not (c : N) (n : nat) :
  (c < 48 \/ 57 < c)%N -> c <> 8835%N -> c <> 8834%N ->
  ~ In c (placeholder n).
Proof.
  intros Hc H1 H2 Hin. rewrite placeholder_unfold in Hin.
  destruct Hin as [Hin|[Hin|Hin]]; try congruence.
  now apply (ph_body_not c n).
Qed.

Lemma cons_eq_inv (a b : N) (l l' : jsstring) :
  a :: l = b :: l' -> a = b /\ l = l'.
Proof. intros H; injection H; auto. Qed.

(** Two lists that agree up to the first occurrence of a unit. *)
Lemma app_unit_inj (x : N) (l1 l2 s t : jsstring) :
  ~ In x l1 -> ~ In x l2 -> l1 ++ x :: s = l2 ++ x :: t -> l1 = l2 /\ s = t.
Proof.
  revert l2; induction l1 as [|a l1 IH]; intros l2 H1 H2 H.
  - destruct l2 as [|b l2]; simpl in H.
    + injection H as ->. now split.
    + injection H as -> _. exfalso; apply H2; now left.
  - destruct l2 as [|b l2]; simpl in H.
    + injection H as -> _. exfalso; apply H1; now left.
    + injection H as -> H.
      destruct (IH l2) as [-> ->]; trivial.
      * intros Hin; apply H1; now right.
      * intros Hin; apply H2; now right.
      * now split.
Qed.

(** A unit that is not in [l] is first met after [l]. *)
Lemma app_eq_unit (x : N) (l t p q : jsstring) :
  ~ In x l -> l ++ t = p ++ x :: q ->
  exists p', p = l ++ p' /\ t = p' ++ x :: q.
Proof.
  revert p; induction l as [|a l IH]; intros p Hl H.
  - now exists p.
  - destruct p as [|b p]; simpl in H.
    + injection H as -> _. exfalso; apply Hl; now left.
    + injection H as -> H.
      destruct (IH p) as (p' & -> & ->); trivial.
      * intros Hin; apply Hl; now right.
      * now exists p'.
Qed.

Lemma placeholder_app_inj (n m : nat) (s t : jsstring) :
  placeholder n ++ s = placeholder m ++ t -> n = m /\ s = t.
Proof.
  rewrite !placeholder_unfold. unfold ph_body. simpl.
  intros H. injection H as H.
  rewrite <- !app_assoc in H. simpl in H.
  apply app_unit_inj in H as [Hd Hs]; try (apply nat_toString_not; lia).
  split; [now apply nat_toString_inj|now injection Hs].
Qed.

Lemma flat_app (t1 t2 : list tok) : flat (t1 ++ t2) = flat t1 ++ flat t2.
Proof. apply flat_map_app. Qed.

Lemma flat_chrs (v : jsstring) : flat (map Chr v) = v.
Proof. induction v as [|c v IH]; simpl; [reflexivity|now rewrite IH]. Qed.

Lemma tok_ok_chr_ok (bound : nat) (t : tok) : tok_ok bound t -> chr_ok t.
Proof. destruct t; simpl; trivial. Qed.

(** An occurrence of a placeholder in a tokenised text is one of its
    tokens. *)
Lemma flat_split_ph (toks : list tok) :
  Forall chr_ok toks ->
  forall pre post n,
    flat toks = pre ++ placeholder n ++ post ->
    exists t1 t2, toks = t1 ++ Ph n :: t2 /\ pre = flat t1 /\ post = flat t2.
Proof.
  induction 1 as [|t toks Ht _ IH]; intros pre post n H.
  - destruct pre; discriminate H.
  - destruct t as [c|m]; cbn [flat flat_map render] in H.
    + destruct pre as [|x pre].
      * injection H as -> _. now contradiction Ht.
      * simpl in H. injection H as -> H.
        destruct (IH _ _ _ H) as (t1 & t2 & -> & -> & ->).
        now exists (Chr x :: t1), t2.
    + fold (flat toks) in H.
      destruct pre as [|x pre].
      * apply placeholder_app_inj in H as [-> <-].
        now exists [], toks.
      * rewrite !placeholder_unfold in H. simpl in H.
        apply cons_eq_inv in H as [<- H].
        destruct pre as [|y pre]; simpl in H; apply cons_eq_inv in H as [Hy H].
        { exfalso.
          apply (app_eq_unit 8834 (ph_body m) _ [] _) in H as (p' & Hp & _);
            [|apply ph_body_not; [lia|discriminate]].
          unfold ph_body in Hp. destruct (nat_toString m); discriminate Hp. }
        subst y.
        apply app_eq_unit in H as (p' & -> & H);
          [|apply ph_body_not; [lia|discriminate]].
        change (8834%N :: 8834%N :: ph_body n ++ post)
          with (placeholder n ++ post) in H.
        destruct (IH _ _ _ H) as (t1 & t2 & -> & -> & ->).
        now exists (Ph m :: t1), t2.
Qed.

(** A unit that no placeholder has stands in a tokenised text as a token
    of its own. *)
Lemma flat_split_chr (toks : list tok) (c : N) :
  (c < 48 \/ 57 < c)%N -> c <> 8835%N -> c <> 8834%N ->
  forall a rest,
    flat toks = a ++ c :: rest ->
    exists t1 t2, toks = t1 ++ Chr c :: t2 /\ a = flat t1 /\ rest = flat t2.
Proof.
  intros Hc H1 H2.
  induction toks as [|t toks IH]; intros a rest H.
  - destruct a; discriminate H.
  - destruct t as [x|m]; cbn [flat flat_map render] in H; fold (flat toks) in H.
    + destruct a as [|y a]; simpl in H; injection H as -> H.
      * exists [], toks. now subst.
      * destruct (IH _ _ H) as (t1 & t2 & -> & -> & ->).
        now exists (Chr y :: t1), t2.
    + apply app_eq_unit in H as (p' & -> & H);
        [|now apply placeholder_not].
      destruct (IH _ _ H) as (t1 & t2 & -> & -> & ->).
      now exists (Ph m :: t1), t2.
Qed.

Lemma tokenised_nil (bound : nat) : tokenised bound [].
Proof. exists []. split; [reflexivity|constructor]. Qed.

Lemma tokenised_cons (bound : nat) (c : N) (s : jsstring) :
  c <> 8834%N -> tokenised bound s -> tokenised bound (c :: s).
Proof.
  intros Hc (toks & -> & HF). exists (Chr c :: toks).
  split; [reflexivity|now constructor].
Qed.

Lemma tokenised_ph (bound n : nat) (s : jsstring) :
  1 <= n <= bound -> tokenised bound s -> tokenised bound (placeholder n ++ s).
Proof.
  intros Hn (toks & -> & HF). exists (Ph n :: toks).
  split; [reflexivity|now constructor].
Qed.

Lemma tokenised_app (bound : nat) (s t : jsstring) :
  tokenised bound s -> tokenised bound t -> tokenised bound (s ++ t).
Proof.
  intros (t1 & -> & H1) (t2 & -> & H2). exists (t1 ++ t2).
  split; [now rewrite flat_app|now apply Forall_app].
Qed.

Lemma tokenised_mono (b b' : nat) (s : jsstring) :
  b <= b' -> tokenised b s -> tokenised b' s.
Proof.
  intros Hb (toks & -> & HF). exists toks. split; [reflexivity|].
  eapply Forall_impl; [|exact HF].
  intros [c|n]; simpl; [trivial|lia].
Qed.

Lemma tokenised_plain (bound : nat) (s : jsstring) :
  ~ In 8834%N s -> tokenised bound s.
Proof.
  induction s as [|c s IH]; intros H; [apply tokenised_nil|].
  apply tokenised_cons.
  - intros ->; apply H; now left.
  - apply IH. intros Hin; apply H; now right.
Qed.

Lemma tokenised_split_ph (bound n : nat) (pre post : jsstring) :
  tokenised bound (pre ++ placeholder n ++ post) ->
  tokenised bound pre /\ tokenised bound post /\ 1 <= n <= bound.
Proof.
  intros (toks & H & HF).
  assert (Hc : Forall chr_ok toks).
  { eapply Forall_impl; [|exact HF]. apply tok_ok_chr_ok. }
  destruct (flat_split_ph toks Hc _ _ _ (eq_sym H)) as (t1 & t2 & -> & -> & ->).
  apply Forall_app in HF as [HF1 HF2]. inversion HF2; subst.
  repeat split; try (eexists; split; [reflexivity|eassumption]);
    simpl in *; lia.
Qed.

Lemma tokenised_split_chr (bound : nat) (c : N) (a rest : jsstring) :
  (c < 48 \/ 57 < c)%N -> c <> 8835%N -> c <> 8834%N ->
  tokenised bound (a ++ c :: rest) ->
  tokenised bound a /\ tokenised bound rest.
Proof.
  intros Hc H1 H2 (toks & H & HF).
  destruct (flat_split_chr toks c Hc H1 H2 _ _ (eq_sym H))
    as (t1 & t2 & -> & -> & ->).
  apply Forall_app in HF as [HF1 HF2]. inversion HF2; subst.
  split; eexists; split; try reflexivity; eassumption.
Qed.

(* ================================================================== *)
(** ** The registry and the text stay consistent during a run *)
(* ================================================================== *)

Lemma numbered_app (cmds news : list Command) :
  numbered cmds ->
  map bindingIndex news = seq (S (List.length cmds)) (List.length news) ->
  numbered (cmds ++ news).
Proof.
  unfold numbered; intros H1 H2.
  now rewrite map_app, length_app, seq_app, H1, H2.
Qed.

Lemma numbered_NoDup (cmds : list Command) :
  numbered cmds -> NoDup (map bindingIndex cmds).
Proof. unfold numbered; intros ->. apply seq_NoDup. Qed.

Lemma mark_executed_bindings (i : nat) (cmds : list Command) :
  map bindingIndex (mark_executed i cmds) = map bindingIndex cmds.
Proof.
  unfold mark_executed. rewrite map_map. apply map_ext.
  intros c. now destruct (bindingIndex c =? i).
Qed.

Lemma mark_executed_length (i : nat) (cmds : list Command) :
  List.length (mark_executed i cmds) = List.length cmds.
Proof. apply length_map. Qed.

Lemma mark_executed_clean (i : nat) (cmds : list Command) :
  clean_commands cmds -> clean_commands (mark_executed i cmds).
Proof.
  unfold clean_commands, mark_executed. rewrite Forall_map.
  apply Forall_impl. intros c H. now destruct (bindingIndex c =? i).
Qed.

Lemma mark_executed_numbered (i : nat) (cmds : list Command) :
  numbered cmds -> numbered (mark_executed i cmds).
Proof.
  unfold numbered. now rewrite mark_executed_bindings, mark_executed_length.
Qed.

Lemma placeholder_no_lt (k : nat) :
  Forall (fun c => c <> 60%N) (placeholder k).
Proof.
  apply Forall_forall. intros c Hin ->.
  revert Hin. apply placeholder_not; [lia|discriminate|discriminate].
Qed.

(** Two commands of a registry with distinct binding indexes that have the
    same binding index are the same command. *)
Lemma same_binding_same_command (cmds : list Command) (c c' : Command) :
  NoDup (map bindingIndex cmds) -> In c cmds -> In c' cmds ->
  bindingIndex c = bindingIndex c' -> c = c'.
Proof.
  induction cmds as [|c0 cmds IH]; cbn [map]; intros Hnd Hc Hc' Hsame;
    [contradiction|].
  apply NoDup_cons_iff in Hnd as [Hfresh Hrest].
  destruct Hc as [<-|Hc], Hc' as [<-|Hc'].
  - reflexivity.
  - contradict Hfresh. rewrite Hsame. now apply in_map.
  - contradict Hfresh. rewrite <- Hsame. now apply in_map.
  - exact (IH Hrest Hc Hc' Hsame).
Qed.

(** In a numbered registry and a tokenised text, a placeholder that occurs
    in the text has the binding index of exactly one command. *)
Lemma placeholder_has_command (st : State) (n : nat) :
  numbered (commands st) ->
  tokenised (List.length (commands st)) (markdown st) ->
  occurs (placeholder n) (markdown st) ->
  exists! c, In c (commands st) /\ bindingIndex c = n.
Proof.
  intros Hn Ht (pre & post & Ho). rewrite Ho in Ht.
  apply tokenised_split_ph in Ht as (_ & _ & Hb).
  assert (Hin : In n (map bindingIndex (commands st))).
  { rewrite Hn. apply in_seq. lia. }
  apply in_map_iff in Hin as (c & Hc & Hin).
  exists c. split; [now split|].
  intros c' [Hin' Hc'].
  apply (same_binding_same_command (commands st)); trivial;
    [now apply numbered_NoDup|congruence].
Qed.

Lemma GetSubstitution_tokenised (b : nat) (matched pre post : jsstring) :
  tokenised b matched -> tokenised b pre -> tokenised b post ->
  forall v, ~ In 8834%N v ->
            tokenised b (GetSubstitution matched pre post v).
Proof.
  intros Hm Hpre Hpost v.
  remember (List.length v) as n eqn:Hn.
  assert (Hle : List.length v <= n) by lia. clear Hn.
  revert v Hle; induction n as [|n IH]; intros v Hle Hv.
  - destruct v; [apply tokenised_nil|simpl in Hle; lia].
  - destruct v as [|c r]; [apply tokenised_nil|].
    assert (Hc : c <> 8834%N) by (intros ->; apply Hv; now left).
    assert (Hr : ~ In 8834%N r) by (intros Hin; apply Hv; now right).
    assert (IHr : tokenised b (GetSubstitution matched pre post r)).
    { apply IH; [simpl in Hle; lia|exact Hr]. }
    cbn [GetSubstitution].
    destruct (c =? 36)%N; [|now apply tokenised_cons].
    destruct r as [|d r']; [apply tokenised_cons; [exact Hc|apply tokenised_nil]|].
    assert (IHr' : tokenised b (GetSubstitution matched pre post r')).
    { apply IH; [simpl in Hle; lia|].
      intros Hin; apply Hr; now right. }
    destruct (d =? 36)%N; [apply tokenised_cons; [discriminate|exact IHr']|].
    destruct (d =? 38)%N; [now apply tokenised_app|].
    destruct (d =? 96)%N; [now apply tokenised_app|].
    destruct (d =? 39)%N; [now apply tokenised_app|].
    now apply tokenised_cons.
Qed.

Lemma replace_tokenised (b i : nat) (v md : jsstring) :
  tokenised b md -> ~ In 8834%N v ->
  tokenised b (replace (placeholder i) v md).
Proof.
  intros Ht Hv. unfold replace.
  destruct (index_of (placeholder i) md) as [[pre post]|] eqn:E; [|exact Ht].
  apply index_of_Some in E. rewrite E in Ht.
  apply tokenised_split_ph in Ht as (Hpre & Hpost & Hi).
  apply tokenised_app; [exact Hpre|].
  apply tokenised_app; [|exact Hpost].
  apply GetSubstitution_tokenised; trivial.
  rewrite <- (app_nil_r (placeholder i)).
  apply tokenised_ph; [exact Hi|apply tokenised_nil].
Qed.

Section RunInvariant.

Variable helpers : option json -> option Helper.
Variable sched : nat -> list (nat * Settled) -> list (nat * Settled).

Lemma replace_hits_tokenised (n : nat) :
  forall md, List.length md <= n ->
  forall index cmds out index' cmds',
    tokenised index md ->
    replace_hits helpers (scan 0 md) index cmds = Normal (out, index', cmds') ->
    tokenised index' out.
Proof.
  induction n as [|n IH]; intros md Hlen index cmds out index' cmds' Ht H.
  - destruct md; [|simpl in Hlen; lia].
    injection H as <- <- <-. apply tokenised_nil.
  - destruct Ht as (toks & Hmd & HF).
    destruct toks as [|[c|k] toks]; subst md.
    + injection H as <- <- <-. apply tokenised_nil.
    + inversion HF as [|? ? Hc HF']; subst.
      assert (Htail : tokenised index (flat toks)) by now exists toks.
      change (flat (Chr c :: toks)) with (c :: flat toks) in *.
      destruct (match_at (c :: flat toks)) as [m|] eqn:Em.
      * destruct (match_at_shape _ _ Em) as (run & rest & Hm & Hs & _).
        rewrite (scan_hit _ _ _ Em Hs) in H. cbn [replace_hits] in H.
        destruct (on_match_cases helpers m index cmds)
          as [[_ Ho]|(command & nm & _ & _ & Ho)];
          [now exists (c :: flat toks)| |]; rewrite Ho in H; [discriminate|].
        destruct (replace_hits helpers (scan 0 rest) (S index) _)
          as [[[out0 i0] c0]|] eqn:E0; [|discriminate].
        injection H as <- <- <-.
        destruct (replace_hits_grows helpers _ (scan_genuine rest 0)
                    _ _ _ _ _ E0) as (news & _ & Hi0 & _).
        apply tokenised_ph; [lia|].
        eapply (IH rest); [| |exact E0].
        -- assert (Hl : List.length (c :: flat toks)
                        = List.length m + List.length rest)
             by now rewrite Hs, length_app.
           assert (0 < List.length m).
           { rewrite Hm. unfold opening. simpl. lia. }
           lia.
        -- apply (tokenised_mono index); [lia|].
           assert (Hcut : c :: flat toks
                          = (opening ++ run ++ [125%N; 62%N]) ++ 62%N :: rest).
           { rewrite Hs, Hm. change closing with ([125%N; 62%N] ++ [62%N]).
             now rewrite <- !app_assoc. }
           assert (Hall : tokenised index (c :: flat toks))
             by now apply tokenised_cons.
           rewrite Hcut in Hall.
           apply tokenised_split_chr in Hall as [_ Hrest];
             [exact Hrest|lia|discriminate|discriminate].
      * rewrite (scan_lit _ _ Em) in H. cbn [replace_hits] in H.
        destruct (replace_hits helpers (scan 0 (flat toks)) index cmds)
          as [[[out0 i0] c0]|] eqn:E0; [|discriminate].
        injection H as <- <- <-.
        apply tokenised_cons; [exact Hc|].
        apply (IH (flat toks)) with (index := index) (cmds := cmds)
                                    (cmds' := c0); trivial.
        simpl in Hlen. lia.
    + inversion HF as [|? ? Hk HF']; subst. simpl in Hk.
      change (flat (Ph k :: toks)) with (placeholder k ++ flat toks) in *.
      rewrite (scan_lits _ _ (placeholder_no_lt k)), replace_hits_lits in H.
      destruct (replace_hits helpers (scan 0 (flat toks)) index cmds)
        as [[[out0 i0] c0]|] eqn:E0; [|discriminate].
      injection H as <- <- <-.
      destruct (replace_hits_grows helpers _ (scan_genuine (flat toks) 0)
                  _ _ _ _ _ E0) as (news & _ & Hi0 & _).
      apply tokenised_ph; [lia|].
      apply (IH (flat toks)) with (index := index) (cmds := cmds)
                                  (cmds' := c0); trivial; [|now exists toks].
      rewrite length_app, placeholder_unfold in Hlen. simpl in Hlen. lia.
Qed.

Lemma parse_commands (md : jsstring) (cmds : list Command) (index index' : nat)
  (st : State) :
  parse helpers md cmds index = Normal (st, index') ->
  exists news,
    commands st = cmds ++ news /\ index' = index + List.length news /\
    map bindingIndex news = seq (S index) (List.length news) /\
    Forall (fresh helpers) news.
Proof.
  unfold parse; intros H.
  destruct (replace_hits helpers (scan 0 md) index cmds)
    as [[[out i] c0]|] eqn:E; [|discriminate].
  injection H as <- <-. cbn [commands].
  exact (replace_hits_grows helpers _ (scan_genuine md 0) _ _ _ _ _ E).
Qed.

Lemma parse_tokenised (md : jsstring) (cmds : list Command)
  (index index' : nat) (st : State) :
  tokenised index md ->
  parse helpers md cmds index = Normal (st, index') ->
  tokenised index' (markdown st).
Proof.
  unfold parse; intros Ht H.
  destruct (replace_hits helpers (scan 0 md) index cmds)
    as [[[out i] c0]|] eqn:E; [|discriminate].
  injection H as <- <-. cbn [markdown].
  exact (replace_hits_tokenised (List.length md) md (le_n _) _ _ _ _ _ Ht E).
Qed.

(** The run is clean when the document, the values of the helpers and the
    scheduler bring no opening unit of placeholders into the text. *)
Variable clean_run : Prop.
Hypothesis clean_registry :
  clean_run -> forall nm h, helpers nm = Some h -> clean_helper h.
Hypothesis clean_sched :
  clean_run -> forall pass l, incl (sched pass l) l.

Lemma parse_consistent (md : jsstring) (cmds : list Command)
  (index index' : nat) (st : State) :
  numbered cmds -> index = List.length cmds ->
  (clean_run -> tokenised index md /\ clean_commands cmds) ->
  parse helpers md cmds index = Normal (st, index') ->
  consistent clean_run st /\ index' = List.length (commands st).
Proof.
  intros Hn Hi Hc Hp.
  destruct (parse_commands _ _ _ _ _ Hp) as (news & Hcs & Hi' & Hb & Hf).
  assert (Hlen : index' = List.length (commands st)).
  { rewrite Hcs, length_app. lia. }
  split; [|exact Hlen]. split.
  - rewrite Hcs. apply numbered_app; [exact Hn|]. now rewrite <- Hi.
  - intros Hclean. destruct (Hc Hclean) as [Ht Hcc]. split.
    + rewrite <- Hlen. now apply (parse_tokenised md cmds index).
    + rewrite Hcs. apply Forall_app. split; [exact Hcc|].
      eapply Forall_impl; [|exact Hf].
      intros c [_ Hh] h Hch. rewrite Hh in Hch.
      now apply (clean_registry Hclean (name c)).
Qed.

Lemma substitute_consistent (st : State) (i : nat) (v : jsstring) :
  consistent clean_run st -> (clean_run -> ~ In 8834%N v) ->
  consistent clean_run (substitute i v st).
Proof.
  intros [Hn Hc] Hv. split; cbn [substitute commands markdown].
  - now apply mark_executed_numbered.
  - intros Hclean. destruct (Hc Hclean) as [Ht Hcc].
    rewrite mark_executed_length. split.
    + apply replace_tokenised; auto.
    + now apply mark_executed_clean.
Qed.

Lemma substitute_length (st : State) (i : nat) (v : jsstring) :
  List.length (commands (substitute i v st)) = List.length (commands st).
Proof. apply mark_executed_length. Qed.

Lemma settle_consistent (pass : nat) (done : list (nat * Settled)) :
  (clean_run -> Forall clean_promise done) ->
  forall st hung,
    consistent clean_run st ->
    Forall (event_ok clean_run) (fst (settle pass done st hung)) /\
    (forall st', snd (settle pass done st hung) = Fulfilled st' ->
                 consistent clean_run st' /\
                 List.length (commands st') = List.length (commands st)).
Proof.
  induction done as [|[i p] done IH]; intros Hd st hung Hst.
  - simpl. split; [constructor|].
    destruct hung; [discriminate|]. intros st' H. injection H as <-. now split.
  - assert (Hd' : clean_run -> Forall clean_promise done).
    { intros Hc. specialize (Hd Hc). now inversion Hd. }
    destruct p as [v| |]; cbn [settle].
    + assert (Hs : consistent clean_run (substitute i v st)).
      { apply substitute_consistent; [exact Hst|].
        intros Hc. specialize (Hd Hc). now inversion Hd. }
      destruct (IH Hd' (substitute i v st) hung Hs) as [He Hf].
      destruct (settle pass done (substitute i v st) hung) as [evs r].
      cbn [fst snd] in *. split.
      * constructor; [|exact He]. intros st' H. now injection H as <-.
      * intros st' H. destruct (Hf st' H) as [H1 H2].
        split; [exact H1|]. now rewrite H2, substitute_length.
    + simpl. split; [constructor|discriminate].
    + now apply IH.
Qed.

Lemma event_ok_invoked (pass binding : nat) :
  event_ok clean_run (Invoked pass binding).
Proof. intros st H. discriminate H. Qed.

Lemma invoke_all_events (pass : nat) (md : jsstring) (cs : list Command) :
  Forall (event_ok clean_run) (fst (invoke_all pass md cs)).
Proof.
  induction cs as [|c cs IH]; cbn [invoke_all]; [constructor|].
  destruct (helper c) as [h|]; [|constructor].
  destruct (call h md (parameters c)) as [e|p].
  - constructor; [apply event_ok_invoked|constructor].
  - destruct (invoke_all pass md cs) as [evs r]. cbn [fst] in *.
    constructor; [apply event_ok_invoked|exact IH].
Qed.

Lemma invoke_all_clean (pass : nat) (md : jsstring) (cs : list Command) :
  clean_commands cs ->
  forall evs promises,
    invoke_all pass md cs = (evs, Normal promises) ->
    Forall clean_promise promises.
Proof.
  induction 1 as [|c cs Hc _ IH]; intros evs promises H; cbn [invoke_all] in H.
  - injection H as _ <-. constructor.
  - destruct (helper c) as [h|]; [|discriminate].
    destruct (call h md (parameters c)) as [e|p] eqn:Ec; [discriminate|].
    destruct (invoke_all pass md cs) as [evs0 [ps|e]]; [|discriminate].
    injection H as _ <-. constructor; [|now apply (IH evs0)].
    unfold clean_promise. cbn [snd].
    destruct p as [v| |]; trivial. now apply (Hc h eq_refl md (parameters c)).
Qed.

Lemma clean_commands_filter (f : Command -> bool) (cmds : list Command) :
  clean_commands cmds -> clean_commands (filter f cmds).
Proof.
  unfold clean_commands. rewrite !Forall_forall.
  intros H c Hin. apply filter_In in Hin as [Hin _]. now apply H.
Qed.

Lemma execute_consistent (pass : nat) (st : State) :
  consistent clean_run st ->
  Forall (event_ok clean_run) (fst (execute sched pass st)) /\
  (forall st', snd (execute sched pass st) = Fulfilled st' ->
               consistent clean_run st' /\
               List.length (commands st') = List.length (commands st)).
Proof.
  intros Hst. unfold execute.
  destruct (notExecutedCommands (commands st)) as [|c0 todo] eqn:En.
  { split; [constructor|]. intros st' H. injection H as <-. now split. }
  destruct (weights (c0 :: todo)) as [ws|e]; [|split; [constructor|discriminate]].
  pose proof (invoke_all_events pass (markdown st)
                (filter (has_weight (lowestWeight ws)) (c0 :: todo))) as Hev.
  pose proof (invoke_all_clean pass (markdown st)
                (filter (has_weight (lowestWeight ws)) (c0 :: todo))) as Hcl.
  destruct (invoke_all pass (markdown st)
              (filter (has_weight (lowestWeight ws)) (c0 :: todo)))
    as [evs [promises|e]]; cbn [fst] in Hev; [|split; [exact Hev|discriminate]].
  assert (Hd : clean_run -> Forall clean_promise (sched pass promises)).
  { intros Hc.
    assert (Hp : Forall clean_promise promises).
    { apply (Hcl (clean_commands_filter _ _
                    (eq_ind _ clean_commands
                       (clean_commands_filter _ _ (proj2 (proj2 Hst Hc)))
                       _ En)) evs promises eq_refl). }
    rewrite Forall_forall in *. intros p Hin.
    apply Hp. now apply (clean_sched Hc pass promises). }
  destruct (settle_consistent pass (sched pass promises) Hd st false Hst)
    as [He Hf].
  destruct (settle pass (sched pass promises) st false) as [evs' r].
  cbn [fst snd] in *. split; [now apply Forall_app|exact Hf].
Qed.

Lemma play_consistent (fuel : nat) :
  forall pass md cmds index,
    numbered cmds -> index = List.length cmds ->
    (clean_run -> tokenised index md /\ clean_commands cmds) ->
    Forall (event_ok clean_run)
      (fst (play helpers sched fuel pass md cmds index)) /\
    (forall st, snd (play helpers sched fuel pass md cmds index) = Fulfilled st ->
                consistent clean_run st).
Proof.
  induction fuel as [|fuel IH]; intros pass md cmds index Hn Hi Hc.
  { simpl. split; [constructor|discriminate]. }
  cbn [play].
  destruct (parse helpers md cmds index) as [[st index']|e] eqn:Ep;
    [|split; [constructor|discriminate]].
  destruct (parse_consistent _ _ _ _ _ Hn Hi Hc Ep) as [Hst Hi'].
  assert (Hpe : event_ok clean_run (Parsed pass st)).
  { intros st0 H. now injection H as <-. }
  destruct (execute_consistent pass st Hst) as [He Hf].
  destruct (execute sched pass st) as [evs r]. cbn [fst snd] in *.
  destruct r as [st'|e|e| |];
    try (split; [constructor; assumption|discriminate]).
  destruct (Hf st' eq_refl) as [Hst' Hlen].
  destruct (negb (change st') &&
            (List.length (notExecutedCommands (commands st')) =? 0)).
  { split; [constructor; assumption|].
    intros st0 H. now injection H as <-. }
  destruct (IH (S pass) (markdown st') (commands st') index'
              (proj1 Hst') (eq_trans Hi' (eq_sym Hlen))) as [He' Hf'].
  { intros Hclean. rewrite Hi', <- Hlen. exact (proj2 Hst' Hclean). }
  destruct (play helpers sched fuel (S pass) (markdown st') (commands st')
              index') as [evs' r']. cbn [fst snd] in *.
  split.
  - constructor; [assumption|now apply Forall_app].
  - intros st0 H. apply Hf'. now destruct r'.
Qed.

End RunInvariant.

(* ================================================================== *)
(** ** Substitutions of one round commute *)
(* ================================================================== *)

Lemma index_of_eq (pat s : jsstring) :
  index_of pat s =
  match strip_prefix pat s with
  | Some post => Some ([], post)
  | None =>
      match s with
      | [] => None
      | c :: s' =>
          match index_of pat s' with
          | Some (pre, post) => Some (c :: pre, post)
          | None => None
          end
      end
  end.
Proof. destruct s; reflexivity. Qed.

Lemma replace_plain (pat v s : jsstring) :
  ~ In 36%N v ->
  replace pat v s =
  match index_of pat s with
  | None => s
  | Some (pre, post) => pre ++ v ++ post
  end.
Proof.
  intros Hv; unfold replace.
  destruct (index_of pat s) as [[pre post]|]; [|reflexivity].
  now rewrite GetSubstitution_plain.
Qed.

Lemma replace_cons_miss (pat v s : jsstring) (c : N) :
  ~ In 36%N v -> strip_prefix pat (c :: s) = None ->
  replace pat v (c :: s) = c :: replace pat v s.
Proof.
  intros Hv Hs. rewrite !replace_plain by exact Hv.
  rewrite (index_of_eq pat (c :: s)), Hs.
  now destruct (index_of pat s) as [[pre post]|].
Qed.

Lemma replace_skip (i : nat) (v l s : jsstring) :
  ~ In 36%N v -> Forall (fun c => c <> 8834%N) l ->
  replace (placeholder i) v (l ++ s) = l ++ replace (placeholder i) v s.
Proof.
  intros Hv; induction 1 as [|c l Hc _ IH]; [reflexivity|].
  simpl app. rewrite replace_cons_miss, IH; trivial.
  rewrite placeholder_unfold. apply strip_prefix_head. congruence.
Qed.

Lemma replace_at_same (i : nat) (v s : jsstring) :
  ~ In 36%N v -> replace (placeholder i) v (placeholder i ++ s) = v ++ s.
Proof.
  intros Hv. rewrite replace_plain by exact Hv.
  now rewrite index_of_eq, strip_prefix_app.
Qed.

Lemma ph_body_no_open (n : nat) : Forall (fun c => c <> 8834%N) (ph_body n).
Proof.
  apply Forall_forall. intros c Hin ->.
  revert Hin. apply ph_body_not; [lia|discriminate].
Qed.

Lemma strip_prefix_inside (i n : nat) (s : jsstring) :
  strip_prefix (placeholder i) (8834%N :: ph_body n ++ s) = None.
Proof.
  rewrite placeholder_unfold.
  pose proof (ph_body_no_open n) as Hb.
  destruct (ph_body n) as [|x l] eqn:E.
  - unfold ph_body in E. destruct (nat_toString n); discriminate E.
  - inversion Hb; subst. simpl app.
    change (strip_prefix (8834%N :: 8834%N :: ph_body i)
              (8834%N :: x :: l ++ s))
      with (if (8834 =? 8834)%N
            then strip_prefix (8834%N :: ph_body i) (x :: l ++ s)
            else None).
    rewrite N.eqb_refl. apply strip_prefix_head. congruence.
Qed.

Lemma replace_at_other (i n : nat) (v s : jsstring) :
  n <> i -> ~ In 36%N v ->
  replace (placeholder i) v (placeholder n ++ s)
  = placeholder n ++ replace (placeholder i) v s.
Proof.
  intros Hn Hv.
  assert (H0 : strip_prefix (placeholder i) (placeholder n ++ s) = None).
  { destruct (strip_prefix (placeholder i) (placeholder n ++ s)) as [r|] eqn:E;
      [|reflexivity].
    apply strip_prefix_Some in E. apply placeholder_app_inj in E as [E _].
    contradiction. }
  rewrite (placeholder_unfold n) in *. simpl app in *.
  rewrite replace_cons_miss by assumption. f_equal.
  rewrite replace_cons_miss by (trivial; apply strip_prefix_inside).
  f_equal. apply replace_skip; [exact Hv|apply ph_body_no_open].
Qed.

Lemma replace_flat (i : nat) (v : jsstring) (toks : list tok) :
  Forall chr_ok toks -> ~ In 36%N v ->
  replace (placeholder i) v (flat toks) = flat (subst_tok i v toks).
Proof.
  intros HF Hv; induction HF as [|t toks Ht _ IH].
  - rewrite replace_plain by exact Hv. reflexivity.
  - destruct t as [c|n]; cbn [subst_tok].
    + change (flat (Chr c :: toks)) with (c :: flat toks).
      rewrite replace_cons_miss, IH; trivial.
      rewrite placeholder_unfold. apply strip_prefix_head.
      simpl in Ht. congruence.
    + change (flat (Ph n :: toks)) with (placeholder n ++ flat toks).
      destruct (Nat.eqb_spec n i) as [->|Hn].
      * rewrite replace_at_same by exact Hv.
        now rewrite flat_app, flat_chrs.
      * rewrite replace_at_other, IH; trivial.
Qed.

Lemma subst_tok_chrs (i : nat) (v w : jsstring) (toks : list tok) :
  subst_tok i v (map Chr w ++ toks) = map Chr w ++ subst_tok i v toks.
Proof. induction w as [|c w IH]; simpl; [reflexivity|now rewrite IH]. Qed.

Lemma subst_tok_comm (i j : nat) (v w : jsstring) (toks : list tok) :
  i <> j ->
  subst_tok i v (subst_tok j w toks) = subst_tok j w (subst_tok i v toks).
Proof.
  intros Hij; induction toks as [|[c|n] toks IH]; cbn [subst_tok].
  - reflexivity.
  - now rewrite IH.
  - destruct (n =? j) eqn:Ej, (n =? i) eqn:Ei.
    + apply Nat.eqb_eq in Ej, Ei. congruence.
    + rewrite subst_tok_chrs. cbn [subst_tok]. now rewrite Ej.
    + rewrite subst_tok_chrs. cbn [subst_tok]. now rewrite Ei.
    + cbn [subst_tok]. now rewrite Ej, Ei, IH.
Qed.

Lemma subst_tok_ok (i : nat) (v : jsstring) (toks : list tok) :
  Forall chr_ok toks -> ~ In 8834%N v -> Forall chr_ok (subst_tok i v toks).
Proof.
  intros HF Hv; induction HF as [|t toks Ht HF IH]; [constructor|].
  destruct t as [c|n]; cbn [subst_tok]; [now constructor|].
  destruct (n =? i); [|now constructor].
  apply Forall_app. split; [|exact HF].
  apply Forall_forall. intros t Hin.
  apply in_map_iff in Hin as (c & <- & Hc). simpl. congruence.
Qed.

Lemma replace_comm (b i j : nat) (v w md : jsstring) :
  tokenised b md -> i <> j -> plain v -> plain w ->
  replace (placeholder i) v (replace (placeholder j) w md)
  = replace (placeholder j) w (replace (placeholder i) v md).
Proof.
  intros (toks & -> & HF) Hij [Hv Hv'] [Hw Hw'].
  assert (Hc : Forall chr_ok toks).
  { eapply Forall_impl; [|exact HF]. apply tok_ok_chr_ok. }
  rewrite (replace_flat j w toks Hc Hw'), (replace_flat i v toks Hc Hv').
  rewrite replace_flat by (trivial; now apply subst_tok_ok).
  rewrite replace_flat by (trivial; now apply subst_tok_ok).
  now rewrite subst_tok_comm.
Qed.

Lemma mark_executed_comm (i j : nat) (cmds : list Command) :
  mark_executed i (mark_executed j cmds)
  = mark_executed j (mark_executed i cmds).
Proof.
  unfold mark_executed. rewrite !map_map. apply map_ext. intros c.
  destruct (bindingIndex c =? j) eqn:Ej, (bindingIndex c =? i) eqn:Ei;
    cbn [bindingIndex]; rewrite ?Ej, ?Ei; reflexivity.
Qed.

Lemma substitute_comm (b i j : nat) (v w : jsstring) (st : State) :
  tokenised b (markdown st) -> i <> j -> plain v -> plain w ->
  substitute i v (substitute j w st) = substitute j w (substitute i v st).
Proof.
  intros Ht Hij Hv Hw. unfold substitute. cbn [markdown commands change].
  now rewrite (replace_comm b i j v w), mark_executed_comm.
Qed.

Lemma resolve_all_perm (l l' : list (nat * Settled)) :
  Permutation l l' ->
  NoDup (map fst l) -> Forall plain_promise l ->
  forall b st, tokenised b (markdown st) ->
               resolve_all l st = resolve_all l' st.
Proof.
  induction 1 as [|x l l' _ IH|x y l|l l' l'' H1 IH1 H2 IH2];
    intros Hnd Hpl b st Ht.
  - reflexivity.
  - inversion Hnd; inversion Hpl as [|? ? (v & Hx & Hv) Hpl']; subst.
    cbn [resolve_all fold_left]. rewrite Hx.
    apply (IH H2 Hpl' b). cbn [substitute markdown].
    apply replace_tokenised; [exact Ht|apply Hv].
  - inversion Hnd as [|? ? Hn1 Hnd1]; subst.
    inversion Hpl as [|? ? (w & Hy & Hw) Hpl1]; subst.
    inversion Hpl1 as [|? ? (v & Hx & Hv) _]; subst.
    cbn [resolve_all fold_left]. rewrite Hx, Hy. f_equal.
    apply (substitute_comm b); trivial.
    intros E. apply Hn1. rewrite <- E. now left.
  - rewrite (IH1 Hnd Hpl b st Ht).
    apply (IH2 (Permutation_NoDup (Permutation_map fst H1) Hnd)
               (Permutation_Forall H1 Hpl) b st Ht).
Qed.

Lemma settle_resolve_all (pass : nat) (done : list (nat * Settled)) :
  Forall plain_promise done ->
  forall st, snd (settle pass done st false) = Fulfilled (resolve_all done st).
Proof.
  induction 1 as [|[i p] done (v & Hp & _) _ IH]; intros st; [reflexivity|].
  cbn [snd] in Hp. subst p. cbn [settle resolve_all fold_left snd fst].
  specialize (IH (substitute i v st)).
  now destruct (settle pass done (substitute i v st) false).
Qed.

Lemma weights_defined (l : list Command) :
  Forall (fun c => helper c <> None) l -> exists ws, weights l = Normal ws.
Proof.
  induction 1 as [|c l Hc _ (ws & IH)]; [now exists []|].
  cbn [weights]. destruct (helper c) as [h|]; [|congruence].
  rewrite IH. now eexists.
Qed.

(** Binding indexes stay distinct in a selection of the commands. *)
Lemma distinct_bindings_filter (keep : Command -> bool)
  (cmds : list Command) :
  NoDup (map bindingIndex cmds) ->
  NoDup (map bindingIndex (filter keep cmds)).
Proof.
  induction cmds as [|c cmds IH]; cbn [filter map]; intros Hnd.
  - exact Hnd.
  - apply NoDup_cons_iff in Hnd as [Hfresh Hrest].
    destruct (keep c); cbn [map]; [|exact (IH Hrest)].
    apply NoDup_cons_iff. split; [|exact (IH Hrest)].
    rewrite in_map_iff. intros (c' & Hsame & Hc').
    apply filter_In in Hc' as [Hc' _].
    apply Hfresh. rewrite <- Hsame. now apply in_map.
Qed.

(** The promises of a round all of whose helpers fulfil with plain
    values. *)
Lemma invoke_all_plain (pass : nat) (md : jsstring) (cs : list Command) :
  Forall (fun c => exists h v,
              helper c = Some h /\
              call h md (parameters c) = Answers (Fulfils v) /\ plain v) cs ->
  exists evs promises,
    invoke_all pass md cs = (evs, Normal promises) /\
    map fst promises = map bindingIndex cs /\
    Forall plain_promise promises.
Proof.
  induction 1 as [|c cs (h & v & Hh & Hc & Hv) _ (evs & ps & IH & Hm & Hp)].
  - exists [], []. repeat split; constructor.
  - cbn [invoke_all]. rewrite Hh, Hc, IH.
    eexists _, _. split; [reflexivity|]. split.
    + cbn [map fst]. now rewrite Hm.
    + constructor; [now exists v|exact Hp].
Qed.

(* ================================================================== *)
(** ** Each placeholder is met once, and replaced by its helper's value *)
(* ================================================================== *)

Lemma index_of_None (pat s : jsstring) :
  index_of pat s = None -> ~ occurs pat s.
Proof.
  intros H (pre & post & E). subst s. revert H.
  induction pre as [|c pre IH]; intros H.
  - rewrite index_of_eq in H. cbn [app] in H.
    rewrite strip_prefix_app in H. discriminate H.
  - rewrite index_of_eq in H. cbn [app] in H.
    destruct (strip_prefix pat (c :: pre ++ pat ++ post)); [discriminate H|].
    destruct (index_of pat (pre ++ pat ++ post)) as [[a b]|];
      [discriminate H|]. now apply IH.
Qed.

Lemma phs_app (t1 t2 : list tok) : phs (t1 ++ t2) = phs t1 ++ phs t2.
Proof. apply flat_map_app. Qed.

Lemma phs_chrs (v : jsstring) : phs (map Chr v) = [].
Proof. induction v as [|c v IH]; [reflexivity|exact IH]. Qed.

Lemma chrs_ok (v : jsstring) : ~ In 8834%N v -> Forall chr_ok (map Chr v).
Proof.
  intros H. apply Forall_forall. intros t Ht.
  apply in_map_iff in Ht as (c & <- & Hc). intros ->. now apply H.
Qed.

(** A placeholder that occurs in a tokenised text is one of its tokens. *)
Lemma occurs_phs (toks : list tok) (n : nat) :
  Forall chr_ok toks -> occurs (placeholder n) (flat toks) -> In n (phs toks).
Proof.
  intros Hc (pre & post & E).
  destruct (flat_split_ph toks Hc _ _ _ E) as (t1 & t2 & -> & _ & _).
  rewrite phs_app. apply in_or_app. right. now left.
Qed.

Lemma once_nil (P : nat -> Prop) : once P [].
Proof. exists []. repeat split; constructor. Qed.

Lemma once_cons (P : nat -> Prop) (c : N) (s : jsstring) :
  c <> 8834%N -> once P s -> once P (c :: s).
Proof.
  intros Hc (toks & -> & H1 & H2 & H3). exists (Chr c :: toks).
  repeat split; trivial. now constructor.
Qed.

Lemma once_ph (P Q : nat -> Prop) (n : nat) (s : jsstring) :
  once P s -> Q n -> (forall k, P k -> Q k /\ k <> n) ->
  once Q (placeholder n ++ s).
Proof.
  intros (toks & -> & H1 & H2 & H3) Hn HPQ. exists (Ph n :: toks).
  rewrite Forall_forall in H3.
  split; [reflexivity|]. split; [now constructor|]. split.
  - cbn [phs flat_map app]. constructor; [|exact H2].
    intros Hin. now destruct (HPQ n (H3 n Hin)).
  - cbn [phs flat_map app]. constructor; [exact Hn|].
    apply Forall_forall. intros k Hk. now destruct (HPQ k (H3 k Hk)).
Qed.

Lemma once_weaken (P Q : nat -> Prop) (s : jsstring) :
  (forall k, P k -> Q k) -> once P s -> once Q s.
Proof.
  intros HPQ (toks & -> & H1 & H2 & H3). exists toks.
  repeat split; trivial. revert H3. now apply Forall_impl.
Qed.

Lemma once_plain (P : nat -> Prop) (s : jsstring) :
  ~ In 8834%N s -> once P s.
Proof.
  induction s as [|c s IH]; intros H; [apply once_nil|].
  apply once_cons.
  - intros ->. apply H. now left.
  - apply IH. intros Hin. apply H. now right.
Qed.

Lemma once_split_chr (P : nat -> Prop) (c : N) (a rest : jsstring) :
  (c < 48 \/ 57 < c)%N -> c <> 8835%N -> c <> 8834%N ->
  once P (a ++ c :: rest) -> once P rest.
Proof.
  intros Hc Hc1 Hc2 (toks & H & H1 & H2 & H3).
  destruct (flat_split_chr toks c Hc Hc1 Hc2 _ _ (eq_sym H))
    as (t1 & t2 & -> & _ & ->).
  exists t2. rewrite phs_app in H2, H3.
  apply Forall_app in H1 as [_ H1]. inversion H1; subst.
  apply NoDup_app_remove_l in H2. apply Forall_app in H3 as [_ H3].
  now repeat split.
Qed.

(** What the callback of a fulfilled promise does to a text in which each
    placeholder is met at most once. *)
Lemma once_replace (P : nat -> Prop) (b : nat) (v md : jsstring) :
  once P md -> plain v ->
  once P (replace (placeholder b) v md) /\
  ((exists pre post,
       md = pre ++ placeholder b ++ post /\
       ~ occurs (placeholder b) pre /\
       ~ occurs (placeholder b) post /\
       replace (placeholder b) v md = pre ++ v ++ post) \/
   (~ occurs (placeholder b) md /\ replace (placeholder b) v md = md)).
Proof.
  intros Ho [Hv1 Hv2].
  destruct (index_of (placeholder b) md) as [[pre post]|] eqn:E.
  - pose proof (index_of_Some _ _ _ _ E) as Hmd.
    assert (Hr : replace (placeholder b) v md = pre ++ v ++ post).
    { rewrite (replace_found _ v _ _ _ E). now rewrite GetSubstitution_plain. }
    destruct Ho as (toks & Hf & H1 & H2 & H3).
    rewrite Hf in Hmd.
    destruct (flat_split_ph toks H1 _ _ _ Hmd) as (t1 & t2 & -> & -> & ->).
    rewrite phs_app in H2, H3. cbn [phs flat_map app] in H2, H3.
    fold (phs t2) in H2, H3.
    apply Forall_app in H1 as [H1a H1b]. inversion H1b; subst.
    pose proof (NoDup_remove_1 _ _ _ H2) as Hnd.
    pose proof (NoDup_remove_2 _ _ _ H2) as Hnot.
    apply Forall_app in H3 as [H3a H3b]. inversion H3b; subst.
    split.
    + rewrite Hr. exists (t1 ++ map Chr v ++ t2).
      split; [now rewrite !flat_app, flat_chrs|].
      split; [repeat (apply Forall_app; split); trivial; now apply chrs_ok|].
      rewrite !phs_app, phs_chrs. cbn [app].
      split; [exact Hnd|now apply Forall_app].
    + left. exists (flat t1), (flat t2).
      split; [now rewrite flat_app|]. split; [|split; [|exact Hr]].
      * intros Ho. apply Hnot. apply in_or_app. left.
        now apply occurs_phs.
      * intros Ho. apply Hnot. apply in_or_app. right.
        now apply occurs_phs.
  - rewrite (replace_absent _ v _ E). split; [exact Ho|]. right.
    split; [now apply index_of_None|reflexivity].
Qed.

Lemma invoked_with_marked (text : jsstring) (cmds : list Command)
  (b i : nat) (p : Settled) :
  invoked_with text cmds b p ->
  invoked_with text (mark_executed i cmds) b p.
Proof.
  intros (c & h & Hin & Hb & Hh & Hc). unfold mark_executed.
  exists (if Nat.eqb (bindingIndex c) i
          then {| bindingIndex := bindingIndex c; name := name c;
                  parameters := parameters c; helper := helper c;
                  executed := true |}
          else c), h.
  split; [apply in_map_iff; now exists c|].
  now destruct (Nat.eqb (bindingIndex c) i).
Qed.

Lemma plain_commands_marked (i : nat) (cmds : list Command) :
  plain_commands cmds -> plain_commands (mark_executed i cmds).
Proof.
  unfold plain_commands, mark_executed. rewrite Forall_map.
  apply Forall_impl. intros c H. now destruct (bindingIndex c =? i).
Qed.

Lemma steps_invoked (text : jsstring) (cur : State) (evs rest : list Event) :
  Forall (fun e => event_state e = None) evs ->
  steps text cur (evs ++ rest) = steps text cur rest.
Proof.
  induction 1 as [|e evs He _ IH]; [reflexivity|].
  destruct e; try discriminate He. exact IH.
Qed.

Lemma steps_app (text : jsstring) (cur : State) (evs rest : list Event) :
  Forall replaces_token (steps text cur evs) ->
  (forall text' cur', Forall replaces_token (steps text' cur' rest)) ->
  Forall replaces_token (steps text cur (evs ++ rest)).
Proof.
  intros H Hrest. revert text cur H.
  induction evs as [|e evs IH]; intros text cur H; [apply Hrest|].
  destruct e as [p st|p b|p b st]; cbn [app steps] in *.
  - now apply IH.
  - now apply IH.
  - inversion H; subst. constructor; [assumption|now apply IH].
Qed.

Lemma invoke_all_unstated (pass : nat) (md : jsstring) (cs : list Command) :
  Forall (fun e => event_state e = None) (fst (invoke_all pass md cs)).
Proof.
  induction cs as [|c cs IH]; cbn [invoke_all]; [constructor|].
  destruct (helper c) as [h|]; [|constructor].
  destruct (call h md (parameters c)) as [e|p].
  - now repeat constructor.
  - destruct (invoke_all pass md cs) as [evs r]. cbn [fst] in *.
    now constructor.
Qed.

Lemma invoke_all_from (pass : nat) (md : jsstring) (cs all : list Command) :
  incl cs all -> plain_commands all ->
  forall evs promises,
    invoke_all pass md cs = (evs, Normal promises) ->
    Forall (fun p => invoked_with md all (fst p) (snd p) /\
                     forall v, snd p = Fulfils v -> plain v) promises.
Proof.
  intros Hincl Hall.
  induction cs as [|c cs IH]; intros evs promises H; cbn [invoke_all] in H.
  - injection H as _ <-. constructor.
  - destruct (helper c) as [h|] eqn:Hh; [|discriminate].
    destruct (call h md (parameters c)) as [e|p] eqn:Ec; [discriminate|].
    destruct (invoke_all pass md cs) as [evs0 [ps|e]] eqn:E0; [|discriminate].
    injection H as _ <-. constructor.
    + cbn [fst snd]. split.
      * exists c, h. repeat split; trivial. apply Hincl. now left.
      * intros v ->.
        assert (Hc : In c all) by (apply Hincl; now left).
        exact (proj1 (Forall_forall _ _) Hall c Hc h Hh md _ v Ec).
    + apply (IH (fun x Hx => Hincl x (or_intror Hx)) evs0). reflexivity.
Qed.

Section SubstitutionSteps.

Variable helpers : option json -> option Helper.
Variable sched : nat -> list (nat * Settled) -> list (nat * Settled).
Hypothesis sched_permutes : forall pass l, Permutation (sched pass l) l.
Hypothesis plain_registry :
  forall nm h, helpers nm = Some h -> plain_helper h.

Lemma replace_hits_once (n : nat) :
  forall md, List.length md <= n ->
  forall (P : nat -> Prop) index cmds out index' cmds',
    (forall k, P k -> k <= index) ->
    once P md ->
    replace_hits helpers (scan 0 md) index cmds = Normal (out, index', cmds') ->
    once (fun k => P k \/ index < k <= index') out.
Proof.
  induction n as [|n IH]; intros md Hlen P index cmds out index' cmds' HP Ho H.
  - destruct md; [|simpl in Hlen; lia].
    injection H as <- <- <-. apply once_nil.
  - pose proof Ho as (toks & Hmd & H1 & H2 & H3).
    destruct toks as [|[c|k] toks]; subst md.
    + injection H as <- <- <-. apply once_nil.
    + inversion H1 as [|? ? Hc H1']; subst.
      assert (Htail : once P (flat toks)) by now exists toks.
      change (flat (Chr c :: toks)) with (c :: flat toks) in *.
      destruct (match_at (c :: flat toks)) as [m|] eqn:Em.
      * destruct (match_at_shape _ _ Em) as (run & rest & Hm & Hs & _).
        rewrite (scan_hit _ _ _ Em Hs) in H. cbn [replace_hits] in H.
        destruct (on_match_cases helpers m index cmds)
          as [[_ Hom]|(command & nm & _ & _ & Hom)];
          [now exists (c :: flat toks)| |]; rewrite Hom in H; [discriminate|].
        destruct (replace_hits helpers (scan 0 rest) (S index) _)
          as [[[out0 i0] c0]|] eqn:E0; [|discriminate].
        injection H as <- <- <-.
        destruct (replace_hits_grows helpers _ (scan_genuine rest 0)
                    _ _ _ _ _ E0) as (news & _ & Hi0 & _).
        assert (Hrest : once P rest).
        { assert (Hcut : c :: flat toks
                         = (opening ++ run ++ [125%N; 62%N]) ++ 62%N :: rest).
          { rewrite Hs, Hm. change closing with ([125%N; 62%N] ++ [62%N]).
            now rewrite <- !app_assoc. }
          rewrite Hcut in Ho.
          apply once_split_chr in Ho; [exact Ho|lia|discriminate|discriminate]. }
        assert (Hout : once (fun k => P k \/ S index < k <= i0) out0).
        { apply (IH rest) with (cmds := cmds ++
                   [{| bindingIndex := S index; name := Some nm;
                       parameters := delete_gitdown command;
                       helper := helpers (Some nm); executed := false |}])
                               (cmds' := c0); trivial.
          - assert (Hl : List.length (c :: flat toks)
                         = List.length m + List.length rest)
              by now rewrite Hs, length_app.
            assert (0 < List.length m).
            { rewrite Hm. unfold opening. simpl. lia. }
            lia.
          - intros k Hk. specialize (HP k Hk). lia. }
        apply (once_ph _ _ (S index) _ Hout); [right; lia|].
        intros k [Hk|Hk]; [specialize (HP k Hk); split; [now left|lia]|].
        split; [right; lia|lia].
      * rewrite (scan_lit _ _ Em) in H. cbn [replace_hits] in H.
        destruct (replace_hits helpers (scan 0 (flat toks)) index cmds)
          as [[[out0 i0] c0]|] eqn:E0; [|discriminate].
        injection H as <- <- <-.
        apply once_cons; [exact Hc|].
        apply (IH (flat toks)) with (cmds := cmds) (cmds' := c0); trivial.
        simpl in Hlen. lia.
    + inversion H1 as [|? ? _ H1']; subst.
      cbn [phs flat_map app] in H2, H3. fold (phs toks) in H2, H3.
      inversion H2 as [|? ? Hk H2']; subst.
      inversion H3 as [|? ? HPk H3']; subst.
      change (flat (Ph k :: toks)) with (placeholder k ++ flat toks) in *.
      rewrite (scan_lits _ _ (placeholder_no_lt k)), replace_hits_lits in H.
      destruct (replace_hits helpers (scan 0 (flat toks)) index cmds)
        as [[[out0 i0] c0]|] eqn:E0; [|discriminate].
      injection H as <- <- <-.
      assert (Htail : once (fun k' => P k' /\ k' <> k) (flat toks)).
      { exists toks. repeat split; trivial.
        apply Forall_forall. intros k' Hk'. split.
        - exact (proj1 (Forall_forall _ _) H3' k' Hk').
        - intros ->. contradiction. }
      assert (Hout : once (fun k' => (P k' /\ k' <> k) \/ index < k' <= i0)
                       out0).
      { apply (IH (flat toks)) with (cmds := cmds) (cmds' := c0); trivial.
        - rewrite length_app, placeholder_unfold in Hlen. simpl in Hlen. lia.
        - intros k' [Hk' _]. now apply HP. }
      apply (once_ph _ _ k _ Hout); [now left|].
      intros k' [[Hk' Hne]|Hk']; [split; [now left|exact Hne]|].
      specialize (HP k HPk). split; [now right|lia].
Qed.

Lemma parse_unique (md : jsstring) (cmds : list Command)
  (index index' : nat) (st : State) :
  numbered cmds -> index = List.length cmds ->
  once (fun k => 1 <= k <= index) md -> plain_commands cmds ->
  parse helpers md cmds index = Normal (st, index') ->
  unique st /\ index' = List.length (commands st).
Proof.
  intros Hn Hi Ho Hc Hp.
  destruct (parse_commands helpers _ _ _ _ _ Hp) as (news & Hcs & Hi' & Hb & Hf).
  assert (Hlen : index' = List.length (commands st)).
  { rewrite Hcs, length_app. lia. }
  split; [|exact Hlen]. split; [|split].
  - rewrite Hcs. apply numbered_app; [exact Hn|]. now rewrite <- Hi.
  - rewrite <- Hlen. unfold parse in Hp.
    destruct (replace_hits helpers (scan 0 md) index cmds)
      as [[[out i] c0]|] eqn:E; [|discriminate].
    injection Hp as <- <-. cbn [markdown].
    eapply once_weaken;
      [|exact (replace_hits_once (List.length md) md (le_n _) _ _ _ _ _ _
                 (fun k Hk => proj2 Hk) Ho E)].
    cbn beta. intros k Hk. lia.
  - rewrite Hcs. apply Forall_app. split; [exact Hc|].
    eapply Forall_impl; [|exact Hf].
    intros c [_ Hh] h Hch. rewrite Hh in Hch.
    now apply (plain_registry (name c)).
Qed.

Lemma substitute_unique (st : State) (i : nat) (v : jsstring) :
  unique st -> plain v -> unique (substitute i v st).
Proof.
  intros (Hn & Ho & Hc) Hv. split; [|split]; cbn [substitute commands markdown].
  - now apply mark_executed_numbered.
  - rewrite mark_executed_length. now apply once_replace.
  - now apply plain_commands_marked.
Qed.

Lemma settle_steps (pass : nat) (text : jsstring)
  (done : list (nat * Settled)) :
  forall st hung,
    unique st ->
    Forall (fun p => invoked_with text (commands st) (fst p) (snd p) /\
                     forall v, snd p = Fulfils v -> plain v) done ->
    Forall replaces_token (steps text st (fst (settle pass done st hung))) /\
    (forall st', snd (settle pass done st hung) = Fulfilled st' ->
                 unique st' /\
                 List.length (commands st') = List.length (commands st)).
Proof.
  induction done as [|[i p] done IH]; intros st hung Hst Hd.
  - simpl. split; [constructor|].
    destruct hung; [discriminate|]. intros st' H. injection H as <-. now split.
  - inversion Hd as [|? ? [Hi Hp] Hd']; subst. cbn [fst snd] in Hi, Hp.
    destruct p as [v| |]; cbn [settle].
    + assert (Hv : plain v) by now apply Hp.
      assert (Hs : unique (substitute i v st))
        by now apply substitute_unique.
      assert (Hd2 : Forall
                      (fun p => invoked_with text
                                  (commands (substitute i v st))
                                  (fst p) (snd p) /\
                                forall v, snd p = Fulfils v -> plain v) done).
      { revert Hd'. apply Forall_impl. intros q [Hq1 Hq2].
        split; [now apply invoked_with_marked|exact Hq2]. }
      destruct (IH (substitute i v st) hung Hs Hd2) as [He Hf].
      destruct (settle pass done (substitute i v st) hung) as [evs r].
      cbn [fst snd steps] in *. split.
      * constructor; [|exact He]. exists v. split; [exact Hi|].
        cbn [substitute markdown].
        exact (proj2 (once_replace _ i v (markdown st)
                        (proj1 (proj2 Hst)) Hv)).
      * intros st' H. destruct (Hf st' H) as [H1 H2].
        split; [exact H1|]. rewrite H2. apply mark_executed_length.
    + simpl. split; [constructor|discriminate].
    + now apply IH.
Qed.

Lemma execute_steps (pass : nat) (st : State) :
  unique st ->
  Forall replaces_token
    (steps (markdown st) st (fst (execute sched pass st))) /\
  (forall st', snd (execute sched pass st) = Fulfilled st' ->
               unique st' /\
               List.length (commands st') = List.length (commands st)).
Proof.
  intros Hst. unfold execute.
  destruct (notExecutedCommands (commands st)) as [|c0 todo] eqn:En.
  { split; [constructor|]. intros st' H. injection H as <-. now split. }
  destruct (weights (c0 :: todo)) as [ws|e]; [|split; [constructor|discriminate]].
  pose proof (invoke_all_unstated pass (markdown st)
                (filter (has_weight (lowestWeight ws)) (c0 :: todo))) as Hev.
  pose proof (invoke_all_from pass (markdown st)
                (filter (has_weight (lowestWeight ws)) (c0 :: todo))
                (commands st)) as Hfrom.
  destruct (invoke_all pass (markdown st)
              (filter (has_weight (lowestWeight ws)) (c0 :: todo)))
    as [evs [promises|e]]; cbn [fst] in Hev.
  2:{ split; [|discriminate]. cbn [fst].
      rewrite <- (app_nil_r evs), steps_invoked by exact Hev. constructor. }
  assert (Hd : Forall
                 (fun p => invoked_with (markdown st) (commands st)
                             (fst p) (snd p) /\
                           forall v, snd p = Fulfils v -> plain v)
                 (sched pass promises)).
  { apply (Permutation_Forall (Permutation_sym (sched_permutes pass _))).
    apply (Hfrom) with (evs := evs); [|exact (proj2 (proj2 Hst))|reflexivity].
    intros c Hc. apply filter_In in Hc as [Hc _].
    rewrite <- En in Hc. unfold notExecutedCommands in Hc.
    now apply filter_In in Hc as [Hc _]. }
  destruct (settle_steps pass (markdown st) (sched pass promises) st false
              Hst Hd) as [He Hf].
  destruct (settle pass (sched pass promises) st false) as [evs' r].
  cbn [fst snd] in *. split; [|exact Hf].
  now rewrite steps_invoked.
Qed.

Lemma play_steps (fuel : nat) :
  forall pass md cmds index,
    numbered cmds -> index = List.length cmds ->
    once (fun k => 1 <= k <= index) md -> plain_commands cmds ->
    forall text cur,
      Forall replaces_token
        (steps text cur (fst (play helpers sched fuel pass md cmds index))).
Proof.
  induction fuel as [|fuel IH]; intros pass md cmds index Hn Hi Ho Hc text cur.
  { constructor. }
  cbn [play].
  destruct (parse helpers md cmds index) as [[st index']|e] eqn:Ep;
    [|constructor].
  destruct (parse_unique _ _ _ _ _ Hn Hi Ho Hc Ep) as [Hst Hi'].
  destruct (execute_steps pass st Hst) as [He Hf].
  destruct (execute sched pass st) as [evs r]. cbn [fst snd] in *.
  destruct r as [st'|e|e| |]; try (cbn [fst steps]; exact He).
  destruct (Hf st' eq_refl) as [Hst' Hlen].
  destruct (negb (change st') &&
            (List.length (notExecutedCommands (commands st')) =? 0));
    [cbn [fst steps]; exact He|].
  pose proof (IH (S pass) (markdown st') (commands st') index'
                (proj1 Hst') (eq_trans Hi' (eq_sym Hlen))) as IH'.
  destruct (play helpers sched fuel (S pass) (markdown st') (commands st')
              index') as [evs' r']. cbn [fst steps] in *.
  apply steps_app; [exact He|].
  apply IH'; [|exact (proj2 (proj2 Hst'))].
  rewrite Hi', <- Hlen. exact (proj1 (proj2 Hst')).
Qed.

Lemma get_steps (fuel : nat) (GFM : jsstring) :
  ~ In 8834%N GFM ->
  forall text cur,
    Forall replaces_token
      (steps text cur (fst (get helpers sched fuel GFM))).
Proof.
  intros Hclean text cur. unfold get.
  pose proof (play_steps fuel 0 GFM [] 0 eq_refl eq_refl
                (once_plain _ GFM Hclean) (Forall_nil _) text cur) as H.
  now destruct (play helpers sched fuel 0 GFM [] 0).
Qed.

End SubstitutionSteps.

(* ================================================================== *)
(** ** Where the pattern matches *)
(* ================================================================== *)

Lemma match_at_intro (run rest : jsstring) :
  run <> [] -> Forall (fun c => c <> 125%N) run ->
  match_at (opening ++ run ++ closing ++ rest)
  = Some (opening ++ run ++ closing).
Proof.
  intros Hne Hrun. unfold match_at. rewrite strip_prefix_app.
  change (closing ++ rest) with (125%N :: 62%N :: 62%N :: rest).
  rewrite (span_not_brace_app _ _ Hrun).
  destruct run as [|c run]; [contradiction|].
  change (125%N :: 62%N :: 62%N :: rest) with (closing ++ rest).
  now rewrite strip_prefix_app.
Qed.

(** A text in which the opening of the pattern occurs nowhere has no
    match. *)
Lemma no_opening_no_match (s : jsstring) :
  ~ occurs opening s -> has_match s = false.
Proof.
  induction s as [|c s IH]; intros H; [reflexivity|].
  apply has_match_cons. split.
  - destruct (match_at (c :: s)) as [m|] eqn:Em; [|reflexivity].
    destruct (match_at_shape _ _ Em) as (run & rest & -> & Hs & _).
    exfalso. apply H. exists [], (run ++ closing ++ rest).
    rewrite Hs. cbn [app]. now rewrite <- !app_assoc.
  - apply IH. intros (pre & post & E). apply H.
    exists (c :: pre), post. now rewrite E.
Qed.

Section Matched.

Variable helpers : option json -> option Helper.
Variable sched : nat -> list (nat * Settled) -> list (nat * Settled).

(** A block that the pattern matches, after text without [<]. *)
Lemma scan_block (pre run rest : jsstring) :
  Forall (fun c => c <> 60%N) pre ->
  run <> [] -> Forall (fun c => c <> 125%N) run ->
  scan 0 (pre ++ (opening ++ run ++ closing) ++ rest)
  = map Lit pre ++ Hit (opening ++ run ++ closing) :: scan 0 rest.
Proof.
  intros Hpre Hne Hrun. rewrite (scan_lits _ _ Hpre). f_equal.
  apply scan_hit; [|reflexivity].
  rewrite <- !app_assoc. now apply match_at_intro.
Qed.

Lemma parse_block (pre run rest : jsstring) (st : State) (index' : nat) :
  Forall (fun c => c <> 60%N) pre ->
  run <> [] -> Forall (fun c => c <> 125%N) run ->
  parse helpers (pre ++ (opening ++ run ++ closing) ++ rest) [] 0
  = Normal (st, index') ->
  exists out c news,
    markdown st = pre ++ placeholder 1 ++ out /\
    commands st = c :: news /\ bindingIndex c = 1.
Proof.
  intros Hpre Hne Hrun. unfold parse.
  rewrite (scan_block _ _ _ Hpre Hne Hrun), replace_hits_lits.
  cbn [replace_hits].
  destruct (on_match_cases helpers (opening ++ run ++ closing) 0 [])
    as [[_ Ho]|(command & nm & _ & _ & Ho)].
  { exists (opening ++ run ++ closing ++ []).
    now apply match_at_intro. }
  { rewrite Ho. discriminate. }
  rewrite Ho.
  destruct (replace_hits helpers (scan 0 rest) 1 _)
    as [[[out0 i0] c0]|] eqn:E0; [|discriminate].
  intros H. injection H as <- _.
  destruct (replace_hits_grows helpers _ (scan_genuine rest 0) _ _ _ _ _ E0)
    as (news & -> & _).
  cbn [markdown commands app].
  eexists _, _, _. split; [reflexivity|]. split; reflexivity.
Qed.

Lemma get_block_invalid (pre run rest : jsstring) (fuel : nat) :
  Forall (fun c => c <> 60%N) pre ->
  run <> [] -> Forall (fun c => c <> 125%N) run ->
  JSON.parse (slice_2_m2 (opening ++ run ++ closing)) = None ->
  get helpers sched (S fuel) (pre ++ (opening ++ run ++ closing) ++ rest)
  = ([], Thrown SyntaxError).
Proof.
  intros Hpre Hne Hrun Hj. unfold get. cbn [play].
  assert (E : parse helpers (pre ++ (opening ++ run ++ closing) ++ rest) [] 0
              = Throw SyntaxError).
  { unfold parse.
    rewrite (replace_hits_invalid helpers _ (opening ++ run ++ closing)
               (scan_genuine _ 0)); trivial.
    rewrite (scan_block _ _ _ Hpre Hne Hrun).
    apply in_or_app. right. now left. }
  now rewrite E.
Qed.

End Matched.

(* ================================================================== *)
(** ** In a fulfilled run every invoked helper has its callback *)
(* ================================================================== *)

Lemma steps_bindings (evs : list Event) :
  forall text cur, map step_binding (steps text cur evs) = replaced evs.
Proof.
  induction evs as [|e evs IH]; intros text cur; [reflexivity|].
  destruct e as [p st|p b|p b st]; cbn [steps replaced flat_map app map].
  - apply IH.
  - apply IH.
  - unfold step_binding at 1. cbn [fst snd]. f_equal. apply IH.
Qed.

Lemma replaced_app (a b : list Event) :
  replaced (a ++ b) = replaced a ++ replaced b.
Proof. apply flat_map_app. Qed.

Lemma invoked_app (a b : list Event) : invoked (a ++ b) = invoked a ++ invoked b.
Proof. unfold invoked, invocations. now rewrite flat_map_app, map_app. Qed.

Lemma settle_invoked (pass : nat) (done : list (nat * Settled)) :
  forall st hung, invoked (fst (settle pass done st hung)) = [].
Proof.
  induction done as [|[i p] done IH]; intros st hung; [reflexivity|].
  destruct p as [v| |]; cbn [settle].
  - specialize (IH (substitute i v st) hung).
    now destruct (settle pass done (substitute i v st) hung).
  - reflexivity.
  - apply IH.
Qed.

Lemma invoke_all_invoked (pass : nat) (md : jsstring) (cs : list Command) :
  forall evs promises,
    invoke_all pass md cs = (evs, Normal promises) ->
    invoked evs = map bindingIndex cs.
Proof.
  induction cs as [|c cs IH]; intros evs promises H; cbn [invoke_all] in H.
  - now injection H as <- _.
  - destruct (helper c) as [h|]; [|discriminate].
    destruct (call h md (parameters c)) as [e|p]; [discriminate|].
    destruct (invoke_all pass md cs) as [evs0 [ps|e]]; [|discriminate].
    injection H as <- _. unfold invoked in *. simpl.
    now rewrite (IH evs0 ps).
Qed.

Lemma invoke_all_bindings (pass : nat) (md : jsstring) (cs : list Command) :
  forall evs promises,
    invoke_all pass md cs = (evs, Normal promises) ->
    map fst promises = map bindingIndex cs.
Proof.
  induction cs as [|c cs IH]; intros evs promises H; cbn [invoke_all] in H.
  - now injection H as _ <-.
  - destruct (helper c) as [h|]; [|discriminate].
    destruct (call h md (parameters c)) as [e|p]; [discriminate|].
    destruct (invoke_all pass md cs) as [evs0 [ps|e]]; [|discriminate].
    injection H as _ <-. cbn [map fst]. now rewrite (IH evs0 ps).
Qed.

Lemma invoke_all_replaced (pass : nat) (md : jsstring) (cs : list Command) :
  replaced (fst (invoke_all pass md cs)) = [].
Proof.
  induction cs as [|c cs IH]; cbn [invoke_all]; [reflexivity|].
  destruct (helper c) as [h|]; [|reflexivity].
  destruct (call h md (parameters c)) as [e|p]; [reflexivity|].
  now destruct (invoke_all pass md cs) as [evs r].
Qed.

Lemma settle_hung (pass : nat) (done : list (nat * Settled)) :
  forall st st', snd (settle pass done st true) <> Fulfilled st'.
Proof.
  induction done as [|[i p] done IH]; intros st st'; [discriminate|].
  destruct p as [v| |]; cbn [settle].
  - specialize (IH (substitute i v st) st').
    now destruct (settle pass done (substitute i v st) true).
  - discriminate.
  - apply IH.
Qed.

Lemma settle_replaced (pass : nat) (done : list (nat * Settled)) :
  forall st st',
    snd (settle pass done st false) = Fulfilled st' ->
    replaced (fst (settle pass done st false)) = map fst done.
Proof.
  induction done as [|[i p] done IH]; intros st st' H; [reflexivity|].
  destruct p as [v| |]; cbn [settle] in *.
  - specialize (IH (substitute i v st) st').
    destruct (settle pass done (substitute i v st) false) as [evs r].
    cbn [fst snd] in *.
    change (replaced (Replaced pass i (substitute i v st) :: evs))
      with (i :: replaced evs).
    cbn [map fst]. now rewrite IH.
  - discriminate H.
  - now elim (settle_hung pass done st st').
Qed.

Section Covered.

Variable helpers : option json -> option Helper.
Variable sched : nat -> list (nat * Settled) -> list (nat * Settled).
Hypothesis sched_permutes : forall pass l, Permutation (sched pass l) l.

Lemma execute_covered (pass : nat) (st st' : State) :
  snd (execute sched pass st) = Fulfilled st' ->
  Permutation (replaced (fst (execute sched pass st)))
    (invoked (fst (execute sched pass st))).
Proof.
  unfold execute.
  destruct (notExecutedCommands (commands st)) as [|c0 todo];
    [constructor|].
  destruct (weights (c0 :: todo)) as [ws|e]; [|discriminate].
  pose proof (invoke_all_replaced pass (markdown st)
                (filter (has_weight (lowestWeight ws)) (c0 :: todo))) as Hr.
  pose proof (invoke_all_invoked pass (markdown st)
                (filter (has_weight (lowestWeight ws)) (c0 :: todo))) as Hi.
  pose proof (invoke_all_bindings pass (markdown st)
                (filter (has_weight (lowestWeight ws)) (c0 :: todo))) as Hb.
  destruct (invoke_all pass (markdown st)
              (filter (has_weight (lowestWeight ws)) (c0 :: todo)))
    as [evs [promises|e]]; [|discriminate].
  cbn [fst] in Hr. specialize (Hi evs promises eq_refl).
  specialize (Hb evs promises eq_refl).
  pose proof (settle_replaced pass (sched pass promises) st st') as Hs.
  pose proof (settle_invoked pass (sched pass promises) st false) as Hz.
  destruct (settle pass (sched pass promises) st false) as [evs' r].
  cbn [fst snd] in *. intros H.
  rewrite replaced_app, invoked_app, Hr, Hz, (Hs H), Hi, <- Hb, app_nil_r.
  cbn [app]. apply Permutation_map. apply sched_permutes.
Qed.

Lemma play_covered (fuel : nat) :
  forall pass md cmds index st,
    snd (play helpers sched fuel pass md cmds index) = Fulfilled st ->
    Permutation (replaced (fst (play helpers sched fuel pass md cmds index)))
      (invoked (fst (play helpers sched fuel pass md cmds index))).
Proof.
  induction fuel as [|fuel IH]; intros pass md cmds index st H;
    [discriminate H|].
  cbn [play] in *.
  destruct (parse helpers md cmds index) as [[st0 index']|e];
    [|discriminate H].
  pose proof (execute_covered pass st0) as He.
  destruct (execute sched pass st0) as [evs r]. cbn [fst snd] in He.
  destruct r as [st1|e|e| |]; try discriminate H.
  specialize (He st1 eq_refl).
  destruct (negb (change st1) &&
            (List.length (notExecutedCommands (commands st1)) =? 0)).
  - exact He.
  - specialize (IH (S pass) (markdown st1) (commands st1) index' st).
    destruct (play helpers sched fuel (S pass) (markdown st1) (commands st1)
                index') as [evs' r'].
    cbn [fst snd] in *.
    change (replaced (Parsed pass st0 :: evs ++ evs'))
      with (replaced (evs ++ evs')).
    change (invoked (Parsed pass st0 :: evs ++ evs'))
      with (invoked (evs ++ evs')).
    rewrite replaced_app, invoked_app.
    apply Permutation_app; [exact He|]. apply IH.
    now destruct r'.
Qed.

Lemma get_covered (fuel : nat) (GFM out : jsstring) :
  snd (get helpers sched fuel GFM) = Fulfilled out ->
  forall text cur,
    Permutation
      (map step_binding (steps text cur (fst (get helpers sched fuel GFM))))
      (invoked (fst (get helpers sched fuel GFM))).
Proof.
  intros H text cur. rewrite steps_bindings. unfold get in *.
  pose proof (play_covered fuel 0 GFM [] 0) as Hp.
  destruct (play helpers sched fuel 0 GFM [] 0) as [evs r].
  cbn [fst snd] in *.
  destruct r as [st| | | |]; try discriminate H. now apply (Hp st).
Qed.

End Covered.

(* ================================================================== *)
(** ** The statements of the specification *)
(* ================================================================== *)

(** C1.  The lowest weight is taken from the default sort, which compares
    the weights as strings: of the weights 2 and 10 it is 10.  In a text
    with a directive of weight 2 (binding 1) and one of weight 10
    (binding 2) the helper of weight 10 is invoked in pass 0 and the
    helper of weight 2 in pass 1. *)
Theorem C1_weights_sorted_as_strings :
  lowestWeight [2%Z; 10%Z] = Some 10%Z /\
  invocations
    (fst (get demo_helpers fifo 5
            (js "<<{'gitdown':'two'}>> <<{'gitdown':'ten'}>>")))
  = [(0, 2); (1, 1)] /\
  snd (get demo_helpers fifo 5
         (js "<<{'gitdown':'two'}>> <<{'gitdown':'ten'}>>"))
  = Fulfilled (js "y z").
Proof. repeat split; vm_compute; reflexivity. Qed.

(** C2.  A directive whose discriminator names no helper is registered by
    the scan like any other, with an undefined helper; the scan goes on to
    the end of the text and can only fail with the [SyntaxError] of another
    block.  The run then fails with the [TypeError] that the round throws
    when it asks every unexecuted command for its weight, before any
    helper of that round is invoked. *)
Theorem C2_unknown_helper_fails_in_round
  (helpers : option json -> option Helper)
  (sched : nat -> list (nat * Settled) -> list (nat * Settled))
  (fuel pass : nat) (md : jsstring) (cmds : list Command) (index : nat)
  (m : jsstring) (command : json) (nm : option json) :
  In (Hit m) (scan 0 md) ->
  JSON.parse (slice_2_m2 m) = Some command ->
  get_gitdown command = Normal nm ->
  helpers nm = None ->
  match parse helpers md cmds index with
  | Normal (st, _) =>
      play helpers sched (S fuel) pass md cmds index
      = ([Parsed pass st], Thrown TypeError)
  | Throw e =>
      e = SyntaxError /\
      play helpers sched (S fuel) pass md cmds index
      = ([], Thrown SyntaxError)
  end.
Proof.
  intros Hin Hp Hn Hh.
  destruct (parse helpers md cmds index) as [[st index']|e] eqn:E.
  - unfold parse in E.
    destruct (replace_hits helpers (scan 0 md) index cmds)
      as [[[out i] cmds']|] eqn:Er; [|discriminate].
    destruct (replace_hits_records helpers _ m command nm
                (scan_genuine md 0) Hin Hp Hn _ _ _ _ _ Er)
      as (c & Hc & He & Hhc).
    injection E as <- <-.
    apply (play_undefined helpers sched fuel pass md cmds index i _ c);
      [unfold parse; now rewrite Er|exact Hc|exact He|congruence].
  - assert (e = SyntaxError) as ->.
    { unfold parse in E.
      destruct (replace_hits helpers (scan 0 md) index cmds)
        as [[[out i] cmds']|e'] eqn:Er; [discriminate|].
      injection E as <-.
      exact (replace_hits_throws helpers _ (scan_genuine md 0) _ _ _ Er). }
    split; [reflexivity|]. cbn [play]. now rewrite E.
Qed.

Lemma C2_unknown_helper_fails_in_round_witness :
  In (Hit (js "<<{'gitdown':'nope'}>>"))
    (scan 0 (js "<<{'gitdown':'nope'}>> <<{'gitdown':'low'}>>")) /\
  demo_helpers (Some (JString (js "nope"))) = None /\
  snd (play demo_helpers fifo 1 0
         (js "<<{'gitdown':'nope'}>> <<{'gitdown':'low'}>>") [] 0)
  = Thrown TypeError.
Proof.
  assert (H1 : In (Hit (js "<<{'gitdown':'nope'}>>"))
                 (scan 0 (js "<<{'gitdown':'nope'}>> <<{'gitdown':'low'}>>"))).
  { vm_compute. left; reflexivity. }
  assert (H2 : demo_helpers (Some (JString (js "nope"))) = None)
    by reflexivity.
  split; [exact H1|split; [exact H2|]].
  pose proof (C2_unknown_helper_fails_in_round demo_helpers fifo 0 0
                (js "<<{'gitdown':'nope'}>> <<{'gitdown':'low'}>>") [] 0
                (js "<<{'gitdown':'nope'}>>")
                (JObject [(js "gitdown", JString (js "nope"))])
                (Some (JString (js "nope")))
                H1 eq_refl eq_refl H2) as H.
  destruct (parse demo_helpers
              (js "<<{'gitdown':'nope'}>> <<{'gitdown':'low'}>>") [] 0)
    as [[st i]|e] eqn:E.
  - now rewrite H.
  - exfalso. vm_compute in E. discriminate E.
Defined.

Lemma C2_scan_completes_counterexample :
  exists st,
    parse demo_helpers
      (js "<<{'gitdown':'nope'}>> <<{'gitdown':'low'}>>") [] 0
    = Normal (st, 2) /\
    markdown st = placeholder 1 ++ js " " ++ placeholder 2 /\
    map helper (commands st)
    = [None; demo_helpers (Some (JString (js "low")))] /\
    get demo_helpers fifo 5
      (js "<<{'gitdown':'nope'}>> <<{'gitdown':'low'}>>")
    = ([Parsed 0 st], Thrown TypeError) /\
    get demo_helpers fifo 5 (js "<<{'gitdown':'nope'}>> <<{'gitdown':}>>")
    = ([], Thrown SyntaxError).
Proof. eexists. repeat split; vm_compute; reflexivity. Qed.

(** C3.  [state.change] is computed by the scan that precedes the round.
    With a directive of weight 1 and a directive of weight 5 whose helper
    returns a new directive block, the second pass scans nothing new,
    executes the helper of weight 5 and stops: the text returned still
    contains the block that helper produced. *)
Theorem C3_returned_text_keeps_a_block :
  snd (get demo_helpers fifo 5
         (js "<<{'gitdown':'low'}>> <<{'gitdown':'high'}>>"))
  = Fulfilled (js "x <<{'gitdown':'low'}>>") /\
  has_match (js "x <<{'gitdown':'low'}>>") = true /\
  invocations
    (fst (get demo_helpers fifo 5
            (js "<<{'gitdown':'low'}>> <<{'gitdown':'high'}>>")))
  = [(0, 1); (1, 2)].
Proof. repeat split; vm_compute; reflexivity. Qed.

(** C4.  A text without directive blocks (the pattern of [parser.parse]
    matches nowhere in it) is returned unchanged by [get], whatever the
    helpers and the scheduling, as soon as the run is given any fuel. *)
Theorem C4_directive_free_unchanged
  (helpers : option json -> option Helper)
  (sched : nat -> list (nat * Settled) -> list (nat * Settled))
  (fuel : nat) (text : jsstring) :
  has_match text = false ->
  snd (get helpers sched (S fuel) text) = Fulfilled text.
Proof. exact (get_no_match helpers sched fuel text). Qed.

Lemma C4_directive_free_unchanged_witness :
  has_match (js "# Title, with <<{'name':'x'}>> and {braces}") = false /\
  snd (get demo_helpers fifo 1 (js "# Title, with <<{'name':'x'}>> and {braces}"))
  = Fulfilled (js "# Title, with <<{'name':'x'}>> and {braces}").
Proof.
  split; [reflexivity|].
  apply (C4_directive_free_unchanged demo_helpers fifo 0 _). reflexivity.
Defined.

(** C5.  In every state a run goes through, after a scan and after each
    substitution, the binding indexes of the registry are 1, 2, 3, ... in
    order, so no index is skipped and no two commands share one.  When
    neither the document nor the value of any helper contains the unit
    U+2282 that opens a placeholder, every placeholder that occurs in the
    text has the binding index of exactly one command. *)
Theorem C5_binding_indexes_and_placeholders
  (helpers : option json -> option Helper)
  (sched : nat -> list (nat * Settled) -> list (nat * Settled))
  (fuel : nat) (GFM : jsstring) (e : Event) (st : State) :
  In e (fst (get helpers sched fuel GFM)) ->
  event_state e = Some st ->
  map bindingIndex (commands st) = seq 1 (List.length (commands st)) /\
  NoDup (map bindingIndex (commands st)) /\
  ((forall nm h, helpers nm = Some h -> clean_helper h) ->
   (forall pass l, Permutation (sched pass l) l) ->
   ~ In 8834%N GFM ->
   forall n, occurs (placeholder n) (markdown st) ->
             exists! c, In c (commands st) /\ bindingIndex c = n).
Proof.
  intros Hin He.
  set (clean := (forall nm h, helpers nm = Some h -> clean_helper h) /\
                (forall pass l, Permutation (sched pass l) l) /\
                ~ In 8834%N GFM).
  assert (Hcons : consistent clean st).
  { destruct (play_consistent helpers sched clean
                (fun Hc => proj1 Hc)
                (fun Hc pass l x Hx =>
                   Permutation_in x (proj1 (proj2 Hc) pass l) Hx)
                fuel 0 GFM [] 0 eq_refl eq_refl
                (fun Hc => conj (tokenised_plain 0 GFM (proj2 (proj2 Hc)))
                                (Forall_nil _))) as [Hev _].
    unfold get in Hin.
    destruct (play helpers sched fuel 0 GFM [] 0) as [evs r].
    cbn [fst] in *. rewrite Forall_forall in Hev. exact (Hev e Hin st He). }
  destruct Hcons as [Hn Hc].
  split; [exact Hn|]. split; [now apply numbered_NoDup|].
  intros H1 H2 H3 n Ho.
  destruct (Hc (conj H1 (conj H2 H3))) as [Ht _].
  now apply placeholder_has_command.
Qed.

Lemma upper_only_clean (nm : option json) (h : Helper) :
  upper_only nm = Some h -> clean_helper h.
Proof.
  unfold upper_only, registry.
  destruct nm as [[| | |s| |]|]; try discriminate. cbn [find fst snd].
  destruct (jsstring_eqb s (js "upper")); [|discriminate].
  intros H; injection H as <-. intros md p v Hv. injection Hv as <-.
  intros [H|[]]; discriminate H.
Qed.

Lemma C5_binding_indexes_and_placeholders_witness :
  In (Parsed 0 upper_scanned)
    (fst (get upper_only fifo 5 (js "A <<{'gitdown':'upper'}>> B"))) /\
  ~ In 8834%N (js "A <<{'gitdown':'upper'}>> B") /\
  occurs (placeholder 1) (markdown upper_scanned) /\
  map bindingIndex (commands upper_scanned) = [1] /\
  exists! c, In c (commands upper_scanned) /\ bindingIndex c = 1.
Proof.
  assert (H1 : In (Parsed 0 upper_scanned)
                 (fst (get upper_only fifo 5
                         (js "A <<{'gitdown':'upper'}>> B")))).
  { vm_compute. left; reflexivity. }
  assert (H2 : ~ In 8834%N (js "A <<{'gitdown':'upper'}>> B")).
  { vm_compute. intuition discriminate. }
  assert (H3 : occurs (placeholder 1) (markdown upper_scanned)).
  { exists (js "A "), (js " B"). reflexivity. }
  destruct (C5_binding_indexes_and_placeholders upper_only fifo 5
              (js "A <<{'gitdown':'upper'}>> B")
              (Parsed 0 upper_scanned) upper_scanned H1 eq_refl)
    as (Hn & _ & Hp).
  repeat split; try assumption.
  apply (Hp upper_only_clean (fun _ l => Permutation_refl l) H2 1 H3).
Defined.

Lemma C5_literal_placeholder_counterexample :
  get demo_helpers fifo 5 (placeholder 1)
  = ([Parsed 0 {| markdown := placeholder 1; commands := [];
                  change := false |}],
     Fulfilled (placeholder 1)) /\
  occurs (placeholder 1) (placeholder 1) /\
  ~ (exists c, In c (@nil Command) /\ bindingIndex c = 1).
Proof.
  split; [vm_compute; reflexivity|]. split.
  - exists [], []. now rewrite app_nil_r.
  - intros (c & [] & _).
Qed.

(** C6.  In a round whose text is tokenised, whose commands have distinct
    binding indexes and whose helpers all fulfil with values that contain
    neither [$] nor the unit U+2282, the state after the round does not
    depend on the order in which the promises settle. *)
Theorem C6_completion_order_irrelevant
  (sched1 sched2 : nat -> list (nat * Settled) -> list (nat * Settled))
  (pass : nat) (st : State) (b : nat) :
  (forall l, Permutation (sched1 pass l) l) ->
  (forall l, Permutation (sched2 pass l) l) ->
  tokenised b (markdown st) ->
  NoDup (map bindingIndex (commands st)) ->
  (forall c, In c (commands st) -> executed c = false ->
             exists h v,
               helper c = Some h /\
               call h (markdown st) (parameters c) = Answers (Fulfils v) /\
               plain v) ->
  exists st',
    snd (execute sched1 pass st) = Fulfilled st' /\
    snd (execute sched2 pass st) = Fulfilled st'.
Proof.
  intros H1 H2 Ht Hnd Hh. unfold execute.
  destruct (notExecutedCommands (commands st)) as [|c0 todo] eqn:En.
  { exists st. now split. }
  assert (Htodo : forall c, In c (c0 :: todo) ->
                    In c (commands st) /\ executed c = false).
  { intros c Hin. rewrite <- En in Hin. apply filter_In in Hin as [Hin He].
    split; [exact Hin|]. now destruct (executed c). }
  destruct (weights_defined (c0 :: todo)) as (ws & ->).
  { apply Forall_forall. intros c Hin. destruct (Htodo c Hin) as [Hc He].
    destruct (Hh c Hc He) as (h & v & -> & _). discriminate. }
  destruct (invoke_all_plain pass (markdown st)
              (filter (has_weight (lowestWeight ws)) (c0 :: todo)))
    as (evs & promises & -> & Hm & Hp).
  { apply Forall_forall. intros c Hin. apply filter_In in Hin as [Hin _].
    destruct (Htodo c Hin) as [Hc He]. exact (Hh c Hc He). }
  assert (Hnp : NoDup (map fst promises)).
  { rewrite Hm, <- En. now apply distinct_bindings_filter, distinct_bindings_filter. }
  exists (resolve_all promises st).
  pose proof (settle_resolve_all pass (sched1 pass promises)
                (Permutation_Forall (Permutation_sym (H1 promises)) Hp) st)
    as E1.
  pose proof (settle_resolve_all pass (sched2 pass promises)
                (Permutation_Forall (Permutation_sym (H2 promises)) Hp) st)
    as E2.
  destruct (settle pass (sched1 pass promises) st false) as [e1 r1].
  destruct (settle pass (sched2 pass promises) st false) as [e2 r2].
  cbn [snd] in *. subst r1 r2. split; f_equal; symmetry.
  - exact (resolve_all_perm _ _ (Permutation_sym (H1 promises)) Hnp Hp b st Ht).
  - exact (resolve_all_perm _ _ (Permutation_sym (H2 promises)) Hnp Hp b st Ht).
Qed.

Lemma C6_completion_order_irrelevant_witness :
  parse demo_helpers (js "<<{'gitdown':'low'}>> <<{'gitdown':'low'}>>") [] 0
  = Normal (two_low, 2) /\
  tokenised 2 (markdown two_low) /\
  NoDup (map bindingIndex (commands two_low)) /\
  exists st',
    snd (execute fifo 0 two_low) = Fulfilled st' /\
    snd (execute lifo 0 two_low) = Fulfilled st' /\
    markdown st' = js "x x".
Proof.
  assert (Ht : tokenised 2 (markdown two_low)).
  { exists [Ph 1; Chr 32%N; Ph 2]. split; [reflexivity|].
    repeat constructor; simpl; try lia; discriminate. }
  assert (Hnd : NoDup (map bindingIndex (commands two_low))).
  { simpl. repeat constructor; simpl; intuition discriminate. }
  split; [vm_compute; reflexivity|]. split; [exact Ht|]. split; [exact Hnd|].
  destruct (C6_completion_order_irrelevant fifo lifo 0 two_low 2
              (fun l => Permutation_refl l)
              (fun l => Permutation_sym (Permutation_rev l)) Ht Hnd)
    as (st' & E1 & E2).
  { intros c [<-|[<-|[]]] _; exists (const_helper 1 (js "x")), (js "x");
      (split; [reflexivity|]); (split; [reflexivity|]);
      split; intros [H|[]]; discriminate H. }
  exists st'. split; [exact E1|]. split; [exact E2|].
  vm_compute in E1. injection E1 as <-. reflexivity.
Defined.

Lemma C6_dollar_value_counterexample :
  invocations
    (fst (get demo_helpers fifo 5
            (js "<<{'gitdown':'after'}>><<{'gitdown':'low'}>>")))
  = [(0, 1); (0, 2)] /\
  snd (get demo_helpers fifo 5
         (js "<<{'gitdown':'after'}>><<{'gitdown':'low'}>>"))
  = Fulfilled (js "x" ++ placeholder 2) /\
  snd (get demo_helpers lifo 5
         (js "<<{'gitdown':'after'}>><<{'gitdown':'low'}>>"))
  = Fulfilled (js "xx") /\
  js "x" ++ placeholder 2 <> js "xx".
Proof.
  repeat split; try (vm_compute; reflexivity). discriminate.
Qed.

(** C7.  When the text of a match is not valid JSON, [JSON.parse] throws in
    the scan and the run fails with that [SyntaxError]; no matched block is
    skipped.  A block that does not start with the discriminator is not a
    match of the pattern where it opens; a text in which the opening of
    the pattern, [<<{"gitdown"], occurs nowhere is returned as it is and
    no error is reported, while after such an opening the block can be
    part of a match that does not parse.  Every match that parses is an
    object with the key [gitdown]. *)
Theorem C7_invalid_json_throws
  (helpers : option json -> option Helper)
  (sched : nat -> list (nat * Settled) -> list (nat * Settled)) :
  (forall fuel pass md cmds index m,
      In (Hit m) (scan 0 md) ->
      JSON.parse (slice_2_m2 m) = None ->
      parse helpers md cmds index = Throw SyntaxError /\
      play helpers sched (S fuel) pass md cmds index
      = ([], Thrown SyntaxError)) /\
  (forall s, strip_prefix opening s = None -> match_at s = None) /\
  (forall fuel text,
      ~ occurs opening text ->
      snd (get helpers sched (S fuel) text) = Fulfilled text) /\
  get helpers sched 1 (js "<<{'gitdown' <<{'name':'low'}>>")
  = ([], Thrown SyntaxError) /\
  (forall s m v,
      match_at s = Some m -> JSON.parse (slice_2_m2 m) = Some v ->
      exists fields nm,
        v = JObject fields /\ obj_get (js "gitdown") fields = Some nm).
Proof.
  split; [|split; [|split; [|split]]].
  - intros fuel pass md cmds index m Hin Hp.
    assert (E : parse helpers md cmds index = Throw SyntaxError).
    { unfold parse.
      now rewrite (replace_hits_invalid helpers _ m (scan_genuine md 0) Hin Hp). }
    split; [exact E|]. cbn [play]. now rewrite E.
  - intros s H. unfold match_at. now rewrite H.
  - intros fuel text H. apply get_no_match. now apply no_opening_no_match.
  - apply (get_block_invalid helpers sched [] (js " <<{'name':'low'") [] 0);
      [constructor|discriminate|repeat constructor; discriminate|reflexivity].
  - exact match_parses_to_directive.
Qed.

Lemma C7_invalid_json_throws_witness :
  In (Hit (js "<<{'gitdown':}>>")) (scan 0 (js "A <<{'gitdown':}>> B")) /\
  JSON.parse (slice_2_m2 (js "<<{'gitdown':}>>")) = None /\
  play demo_helpers fifo 1 0 (js "A <<{'gitdown':}>> B") [] 0
  = ([], Thrown SyntaxError) /\
  ~ occurs opening (js "A <<{'name':'low'}>> B") /\
  snd (get demo_helpers fifo 1 (js "A <<{'name':'low'}>> B"))
  = Fulfilled (js "A <<{'name':'low'}>> B").
Proof.
  assert (H1 : In (Hit (js "<<{'gitdown':}>>"))
                 (scan 0 (js "A <<{'gitdown':}>> B"))).
  { vm_compute. right; right; left; reflexivity. }
  assert (H2 : JSON.parse (slice_2_m2 (js "<<{'gitdown':}>>")) = None)
    by reflexivity.
  assert (H3 : ~ occurs opening (js "A <<{'name':'low'}>> B")).
  { apply index_of_None. reflexivity. }
  split; [exact H1|split; [exact H2|split; [|split; [exact H3|]]]].
  - exact (proj2 (proj1 (C7_invalid_json_throws demo_helpers fifo)
                    0 0 (js "A <<{'gitdown':}>> B") [] 0
                    (js "<<{'gitdown':}>>") H1 H2)).
  - exact (proj1 (proj2 (proj2 (C7_invalid_json_throws demo_helpers fifo)))
             0 (js "A <<{'name':'low'}>> B") H3).
Defined.

Lemma C7_block_without_discriminator_counterexample :
  JSON.parse (js "{'name':'low'}")
  = Some (JObject [(js "name", JString (js "low"))]) /\
  obj_get (js "gitdown") [(js "name", JString (js "low"))] = None /\
  snd (get demo_helpers fifo 5 (js "A <<{'name':'low'}>> B"))
  = Fulfilled (js "A <<{'name':'low'}>> B").
Proof. repeat split; vm_compute; reflexivity. Qed.

(** C8.  In a run on a document without the unit U+2282, with helpers
    whose values have neither [$] nor that unit, every callback of a
    fulfilled promise that runs before a promise of its round rejects
    belongs to a command of the registry whose helper, called with the
    text the round began with and the parameters of the command,
    fulfilled with the value; the placeholder of that command is in the
    text at most once; the callback puts the value in its place and keeps
    the text before and after it, and when the placeholder is no longer
    in the text it leaves the text as it is.  In any run that is
    fulfilled the callbacks are, up to their order, the invocations of
    the helpers.  A value with a replacement pattern is altered: [$&]
    inserts the placeholder itself and [$`] the text before it. *)
Theorem C8_substitution_of_plain_value
  (helpers : option json -> option Helper)
  (sched : nat -> list (nat * Settled) -> list (nat * Settled))
  (fuel : nat) (GFM : jsstring) :
  ((forall pass l, Permutation (sched pass l) l) ->
   (forall nm h, helpers nm = Some h -> plain_helper h) ->
   ~ In 8834%N GFM ->
   Forall replaces_token
     (steps GFM {| markdown := GFM; commands := []; change := false |}
        (fst (get helpers sched fuel GFM)))) /\
  ((forall pass l, Permutation (sched pass l) l) ->
   forall out,
     snd (get helpers sched fuel GFM) = Fulfilled out ->
     Permutation
       (map step_binding
          (steps GFM {| markdown := GFM; commands := []; change := false |}
             (fst (get helpers sched fuel GFM))))
       (invoked (fst (get helpers sched fuel GFM)))) /\
  snd (get demo_helpers fifo 5 (js "a<<{'gitdown':'amp'}>>b"))
  = Fulfilled (js "a" ++ placeholder 1 ++ js "b") /\
  markdown
    (substitute 1 [36%N; 96%N]
       {| markdown := js "a" ++ placeholder 1 ++ js "b";
          commands := []; change := true |})
  = js "aab".
Proof.
  split; [|split; [|split; vm_compute; reflexivity]].
  - intros Hs Hplain Hclean.
    exact (get_steps helpers sched Hs Hplain fuel GFM Hclean _ _).
  - intros Hs out H.
    exact (get_covered helpers sched Hs fuel GFM out H _ _).
Qed.

Lemma text_helpers_plain (nm : option json) (h : Helper) :
  text_helpers nm = Some h -> plain_helper h.
Proof.
  unfold text_helpers, registry.
  destruct nm as [[| | |s| |]|]; try discriminate. cbn [find fst snd].
  destruct (jsstring_eqb s (js "upper")).
  - intros H; injection H as <-. intros md p v Hv. injection Hv as <-.
    split; intros [H|[]]; discriminate H.
  - destruct (jsstring_eqb s (js "low")); [|discriminate].
    intros H; injection H as <-. intros md p v Hv. injection Hv as <-.
    split; intros [H|[]]; discriminate H.
Qed.

Lemma C8_substitution_of_plain_value_witness :
  ~ In 8834%N (js "A <<{'gitdown':'low'}>> <<{'gitdown':'upper'}>>") /\
  map (fun s => (snd (fst s), markdown (snd s)))
    (steps (js "A <<{'gitdown':'low'}>> <<{'gitdown':'upper'}>>")
       {| markdown := js "A <<{'gitdown':'low'}>> <<{'gitdown':'upper'}>>";
          commands := []; change := false |}
       (fst (get text_helpers fifo 3
               (js "A <<{'gitdown':'low'}>> <<{'gitdown':'upper'}>>"))))
  = [(2, js "A " ++ placeholder 1 ++ js " X");
     (1, js "A x X")] /\
  invoked (fst (get text_helpers fifo 3
                  (js "A <<{'gitdown':'low'}>> <<{'gitdown':'upper'}>>")))
  = [2; 1] /\
  Forall replaces_token
    (steps (js "A <<{'gitdown':'low'}>> <<{'gitdown':'upper'}>>")
       {| markdown := js "A <<{'gitdown':'low'}>> <<{'gitdown':'upper'}>>";
          commands := []; change := false |}
       (fst (get text_helpers fifo 3
               (js "A <<{'gitdown':'low'}>> <<{'gitdown':'upper'}>>")))).
Proof.
  assert (Hclean : ~ In 8834%N
                     (js "A <<{'gitdown':'low'}>> <<{'gitdown':'upper'}>>")).
  { vm_compute. intuition discriminate. }
  split; [exact Hclean|]. split; [vm_compute; reflexivity|].
  split; [vm_compute; reflexivity|].
  exact (proj1 (C8_substitution_of_plain_value text_helpers fifo 3
                  (js "A <<{'gitdown':'low'}>> <<{'gitdown':'upper'}>>"))
           (fun _ l => Permutation_refl l) text_helpers_plain Hclean).
Defined.

Lemma C8_copy_replaced_counterexample :
  ~ In 36%N (js "x") /\
  map (fun s => (snd (fst s), markdown (snd (fst (fst s))), markdown (snd s)))
    (steps (js "<<{'gitdown':'after'}>><<{'gitdown':'low'}>>")
       {| markdown := js "<<{'gitdown':'after'}>><<{'gitdown':'low'}>>";
          commands := []; change := false |}
       (fst (get demo_helpers fifo 5
               (js "<<{'gitdown':'after'}>><<{'gitdown':'low'}>>"))))
  = [(1, placeholder 1 ++ placeholder 2, placeholder 2 ++ placeholder 2);
     (2, placeholder 2 ++ placeholder 2, js "x" ++ placeholder 2)] /\
  snd (get demo_helpers fifo 5
         (js "<<{'gitdown':'after'}>><<{'gitdown':'low'}>>"))
  = Fulfilled (js "x" ++ placeholder 2) /\
  snd (get demo_helpers fifo 5
         (placeholder 1 ++ js " <<{'gitdown':'low'}>>"))
  = Fulfilled (js "x " ++ placeholder 1).
Proof.
  split; [intros [H|[]]; discriminate H|].
  repeat split; vm_compute; reflexivity.
Qed.

(** C9.  A block in which a closing brace comes before the final one.
    When nothing stands between the discriminator and that first brace,
    or when that brace is not directly followed by [>>], the block is not
    matched where it opens, and when no other [<] is around [get] returns
    the text with the block verbatim in it.  When something stands before
    that first brace and [>>] follows it directly, the pattern matches the
    block from its opening up to that [>>]: the run throws the
    [SyntaxError] of [JSON.parse] when the matched part is not valid JSON,
    and a scan that completes has put the placeholder of binding 1 in the
    place of the matched part and registered a command for it. *)
Theorem C9_inner_brace_not_matched
  (helpers : option json -> option Helper)
  (sched : nat -> list (nat * Settled) -> list (nat * Settled))
  (b1 b2 : jsstring) :
  Forall (fun c => c <> 125%N) b1 ->
  (b1 = [] \/ strip_prefix (js ">>") (b2 ++ closing) = None ->
   (forall post,
       match_at (opening ++ b1 ++ 125%N :: b2 ++ closing ++ post) = None) /\
   (forall fuel pre post,
       Forall (fun c => c <> 60%N) (pre ++ b1 ++ b2 ++ post) ->
       snd (get helpers sched (S fuel)
              (pre ++ opening ++ b1 ++ 125%N :: b2 ++ closing ++ post))
       = Fulfilled (pre ++ opening ++ b1 ++ 125%N :: b2 ++ closing ++ post)))
  /\
  (b1 <> [] ->
   forall r, b2 ++ closing = js ">>" ++ r ->
   forall pre post,
     Forall (fun c => c <> 60%N) pre ->
     In (Hit (opening ++ b1 ++ closing))
       (scan 0 (pre ++ opening ++ b1 ++ 125%N :: b2 ++ closing ++ post)) /\
     (JSON.parse (slice_2_m2 (opening ++ b1 ++ closing)) = None ->
      forall fuel,
        get helpers sched (S fuel)
          (pre ++ opening ++ b1 ++ 125%N :: b2 ++ closing ++ post)
        = ([], Thrown SyntaxError)) /\
     (forall st index',
         parse helpers
           (pre ++ opening ++ b1 ++ 125%N :: b2 ++ closing ++ post) [] 0
         = Normal (st, index') ->
         exists out c news,
           markdown st = pre ++ placeholder 1 ++ out /\
           commands st = c :: news /\ bindingIndex c = 1)).
Proof.
  intros Hb1. split.
  - intros Hb2.
    assert (Hat : forall post,
               match_at (opening ++ b1 ++ 125%N :: b2 ++ closing ++ post)
               = None).
    { intros post. unfold match_at.
      rewrite strip_prefix_app, (span_not_brace_app _ _ Hb1).
      destruct b1 as [|c b1]; [reflexivity|].
      destruct Hb2 as [Hb2|Hb2]; [discriminate Hb2|].
      replace (strip_prefix closing (125%N :: b2 ++ closing ++ post))
        with (strip_prefix (js ">>") (b2 ++ closing ++ post)) by reflexivity.
      assert (E : strip_prefix (js ">>") (b2 ++ closing ++ post) = None).
      { change (js ">>") with [62%N; 62%N] in *.
        destruct b2 as [|x [|y b2]]; [reflexivity| |];
          revert Hb2; cbn [app strip_prefix closing].
        - destruct (62 =? x)%N; [|reflexivity].
          change closing with [125%N; 62%N; 62%N]. reflexivity.
        - now destruct (62 =? x)%N, (62 =? y)%N. }
      now rewrite E. }
    split; [exact Hat|].
    intros fuel pre post Hlt.
    apply get_no_match.
    apply Forall_app in Hlt as [Hpre Hlt].
    apply Forall_app in Hlt as [H1 Hlt].
    apply Forall_app in Hlt as [H2 Hpost].
    rewrite (has_match_lits _ _ Hpre).
    change opening with (60%N :: 60%N :: js "{'gitdown'") in *.
    apply has_match_cons. split; [apply Hat|].
    apply has_match_cons. split; [reflexivity|].
    rewrite <- (app_nil_r (js "{'gitdown'" ++ _)).
    rewrite has_match_lits; [reflexivity|].
    apply Forall_app; split.
    { repeat constructor; discriminate. }
    apply Forall_app; split; [exact H1|].
    constructor; [discriminate|].
    apply Forall_app; split; [exact H2|].
    apply Forall_app; split; [|exact Hpost].
    repeat constructor; discriminate.
  - intros Hne r Hr pre post Hpre.
    assert (Ht : pre ++ opening ++ b1 ++ 125%N :: b2 ++ closing ++ post
                 = pre ++ (opening ++ b1 ++ closing) ++ (r ++ post)).
    { rewrite (app_assoc b2 closing post), Hr.
      change closing with (125%N :: js ">>").
      now rewrite <- !app_assoc. }
    rewrite Ht. split; [|split].
    + rewrite (scan_block _ _ _ Hpre Hne Hb1).
      apply in_or_app. right. now left.
    + intros Hj fuel.
      exact (get_block_invalid helpers sched pre b1 (r ++ post) fuel
               Hpre Hne Hb1 Hj).
    + intros st index' Hp.
      exact (parse_block helpers pre b1 (r ++ post) st index'
               Hpre Hne Hb1 Hp).
Qed.

Lemma C9_inner_brace_not_matched_witness :
  Forall (fun c => c <> 125%N) (js ":'low','x':{'a':1") /\
  strip_prefix (js ">>") ([] ++ closing) = None /\
  snd (get demo_helpers fifo 1
         (js "A " ++ opening ++ js ":'low','x':{'a':1"
             ++ 125%N :: [] ++ closing ++ js " B"))
  = Fulfilled (js "A " ++ opening ++ js ":'low','x':{'a':1"
                  ++ 125%N :: [] ++ closing ++ js " B") /\
  js ":'low','x':['" <> [] /\
  js ">>']" ++ closing = js ">>" ++ js "']}>>" /\
  get demo_helpers fifo 1
    (opening ++ js ":'low','x':['" ++ 125%N :: js ">>']" ++ closing)
  = ([], Thrown SyntaxError).
Proof.
  assert (H1 : Forall (fun c => c <> 125%N) (js ":'low','x':{'a':1")).
  { repeat constructor; discriminate. }
  assert (H2 : strip_prefix (js ">>") ([] ++ closing) = None) by reflexivity.
  assert (H3 : Forall (fun c => c <> 125%N) (js ":'low','x':['")).
  { repeat constructor; discriminate. }
  assert (H4 : js ":'low','x':['" <> []) by discriminate.
  assert (H5 : js ">>']" ++ closing = js ">>" ++ js "']}>>") by reflexivity.
  split; [exact H1|split; [exact H2|split; [|split; [exact H4|split;
    [exact H5|]]]]].
  - apply (proj2 (proj1 (C9_inner_brace_not_matched demo_helpers fifo
                           (js ":'low','x':{'a':1") [] H1)
                    (or_intror H2)) 0 (js "A ") (js " B")).
    repeat constructor; discriminate.
  - pose proof (proj1 (proj2 (proj2 (C9_inner_brace_not_matched
                                      demo_helpers fifo
                                      (js ":'low','x':['") (js ">>']") H3)
                               H4 (js "']}>>") H5 [] [] (Forall_nil _))))
      as H.
    rewrite app_nil_r in H. apply H. reflexivity.
Defined.

Lemma C9_brace_then_closing_counterexample :
  JSON.parse (js "{'gitdown':'low','x':['}>>']}") <> None /\
  In 125%N (js ":'low','x':['}>>']") /\
  match_at (js "<<{'gitdown':'low','x':['}>>']}>>")
  = Some (js "<<{'gitdown':'low','x':['}>>") /\
  get demo_helpers fifo 5 (js "<<{'gitdown':'low','x':['}>>']}>>")
  = ([], Thrown SyntaxError).
Proof.
  split; [discriminate|].
  split; [vm_compute; tauto|].
  split; vm_compute; reflexivity.
Qed.

(** C10.  Called without [new], [Gitdown] evaluates [new Gitdown(input)];
    [input] is neither its parameter nor a variable of the module, so in a
    host whose global object has no [input] the call throws a
    [ReferenceError] for every argument and builds no instance, and so
    does [Gitdown.read]; called with [new] it builds the instance. *)
Theorem C10_plain_call_throws
  (host : Constructor.Scope) (arg : Constructor.Value) (contents : jsstring) :
  Constructor.scope_get "input" host = None ->
  Constructor.Gitdown host false arg = Throw (ReferenceError "input") /\
  Constructor.read host contents = Throw (ReferenceError "input") /\
  Constructor.Gitdown host true arg = Normal {| Constructor.GFM := arg |}.
Proof.
  intros H; unfold Constructor.read, Constructor.Gitdown; simpl.
  now rewrite H.
Qed.

Lemma C10_plain_call_throws_witness :
  Constructor.scope_get "input"
    [("process"%string, Constructor.VObject);
     ("console"%string, Constructor.VObject)] = None /\
  Constructor.Gitdown
    [("process"%string, Constructor.VObject);
     ("console"%string, Constructor.VObject)]
    false (Constructor.VString (js "# doc"))
  = Throw (ReferenceError "input").
Proof.
  split; [reflexivity|].
  apply (C10_plain_call_throws
           [("process"%string, Constructor.VObject);
            ("console"%string, Constructor.VObject)]
           (Constructor.VString (js "# doc")) (js "# doc")).
  reflexivity.
Defined.

(* ================================================================== *)
(** ** Further properties: the scan *)
(* ================================================================== *)

Lemma has_match_scan (s : jsstring) :
  has_match s = existsb is_hit (scan 0 s).
Proof.
  induction s as [|c s IH]; [reflexivity|].
  cbn [has_match scan].
  destruct (match_at (c :: s)) as [m|]; [reflexivity|exact IH].
Qed.

Lemma existsb_is_hit (chunks : list chunk) :
  existsb is_hit chunks
  = negb (List.length (filter is_hit chunks) =? 0).
Proof.
  induction chunks as [|[c|m] chunks IH]; simpl; trivial.
Qed.

(** The units that come out of a scan before the first placeholder are
    the units that went in. *)
Lemma rewritten_plain_prefix (l : jsstring) :
  Forall (fun c => c <> 8834%N) l ->
  forall s index out,
    rewritten (scan 0 s) index = l ++ out ->
    exists s', s = l ++ s' /\ out = rewritten (scan 0 s') index.
Proof.
  induction 1 as [|x l Hx _ IH]; intros s index out H.
  - now exists s.
  - destruct s as [|c s]; [discriminate H|].
    destruct (match_at (c :: s)) as [m|] eqn:Em.
    + destruct (match_at_shape _ _ Em) as (run & rest & _ & Hs & _).
      rewrite (scan_hit _ _ _ Em Hs) in H. cbn [rewritten] in H.
      rewrite placeholder_unfold in H. simpl in H.
      apply cons_eq_inv in H as [H _]. congruence.
    + rewrite (scan_lit _ _ Em) in H. cbn [rewritten] in H. simpl in H.
      apply cons_eq_inv in H as [-> H].
      destruct (IH _ _ _ H) as (s' & -> & ->). now exists s'.
Qed.

(** A closing [}>>] that ends a run without braces in the text that comes
    out of a scan ends such a run in the text that went in. *)
Lemma rewritten_run (run' : jsstring) :
  Forall (fun c => c <> 125%N) run' ->
  forall s index rest',
    rewritten (scan 0 s) index = run' ++ closing ++ rest' ->
    exists run rest,
      s = run ++ closing ++ rest /\ Forall (fun c => c <> 125%N) run /\
      (run' <> [] -> run <> []).
Proof.
  induction 1 as [|x run' Hx _ IH]; intros s index rest' H.
  - destruct (rewritten_plain_prefix closing) with (s := s) (index := index)
      (out := rest') as (s' & -> & _).
    + repeat constructor; discriminate.
    + exact H.
    + exists [], s'. repeat split; [constructor|congruence].
  - destruct s as [|c s]; [discriminate H|].
    destruct (match_at (c :: s)) as [m|] eqn:Em.
    + destruct (match_at_shape _ _ Em) as (run & rest & Hm & Hs & Hne & Hrun).
      exists (opening ++ run), rest. split; [|split].
      * rewrite Hs, Hm. now rewrite <- !app_assoc.
      * apply Forall_app. split; [|exact Hrun].
        repeat constructor; discriminate.
      * intros _. discriminate.
    + rewrite (scan_lit _ _ Em) in H. cbn [rewritten] in H. simpl in H.
      apply cons_eq_inv in H as [-> H].
      destruct (IH _ _ _ H) as (run & rest & -> & Hrun & _).
      exists (x :: run), rest. repeat split; [now constructor|discriminate].
Qed.

(** A match in the text that comes out of a scan is at a place where the
    text that went in has a match. *)
Lemma rewritten_match (s : jsstring) (index : nat) :
  match_at (rewritten (scan 0 s) index) <> None -> match_at s <> None.
Proof.
  destruct (match_at (rewritten (scan 0 s) index)) as [m'|] eqn:E;
    [intros _|congruence].
  destruct (match_at_shape _ _ E) as (run' & rest' & -> & Hr & Hne & Hrun).
  rewrite <- !app_assoc in Hr.
  destruct (rewritten_plain_prefix opening) with (s := s) (index := index)
    (out := run' ++ closing ++ rest') as (s' & -> & Hout).
  { repeat constructor; discriminate. }
  { exact Hr. }
  destruct (rewritten_run run' Hrun s' index rest' (eq_sym Hout))
    as (run & rest & -> & Hrun0 & Hne0).
  rewrite (match_at_intro run rest (Hne0 Hne) Hrun0). discriminate.
Qed.

Lemma rewritten_no_match (n : nat) :
  forall s, List.length s <= n ->
  forall index, has_match (rewritten (scan 0 s) index) = false.
Proof.
  induction n as [|n IH]; intros s Hlen index.
  - destruct s; [reflexivity|simpl in Hlen; lia].
  - destruct s as [|c s]; [reflexivity|].
    destruct (match_at (c :: s)) as [m|] eqn:Em.
    + destruct (match_at_shape _ _ Em) as (run & rest & Hm & Hs & _).
      rewrite (scan_hit _ _ _ Em Hs). cbn [rewritten].
      rewrite (has_match_lits _ _ (placeholder_no_lt (S index))).
      apply IH.
      assert (Hl : List.length (c :: s) = List.length m + List.length rest)
        by now rewrite Hs, length_app.
      assert (0 < List.length m) by (rewrite Hm; unfold opening; simpl; lia).
      lia.
    + pose proof (rewritten_match (c :: s) index) as Ht.
      rewrite (scan_lit _ _ Em) in *. cbn [rewritten] in *.
      apply has_match_cons. split.
      * destruct (match_at (c :: rewritten (scan 0 s) index)); [|reflexivity].
        exfalso. apply Ht; [discriminate|exact Em].
      * apply IH. simpl in Hlen. lia.
Qed.

Section ScanMore.

Variable helpers : option json -> option Helper.

Lemma replace_hits_render (chunks : list chunk) :
  Forall genuine chunks ->
  forall index cmds out index' cmds',
    replace_hits helpers chunks index cmds = Normal (out, index', cmds') ->
    out = rewritten chunks index /\
    index' = index + List.length (filter is_hit chunks).
Proof.
  induction 1 as [|ch chunks Hg _ IH]; intros index cmds out index' cmds' H.
  - injection H as <- <- _. split; [reflexivity|simpl; lia].
  - destruct ch as [c|m]; cbn [replace_hits] in H.
    + destruct (replace_hits helpers chunks index cmds)
        as [[[out0 i0] c0]|] eqn:E; [|discriminate].
      injection H as <- <- _. destruct (IH _ _ _ _ _ E) as [-> ->].
      now split.
    + destruct (on_match_cases helpers m index cmds Hg)
        as [[_ Ho]|(command & nm & _ & _ & Ho)];
        rewrite Ho in H; [discriminate|].
      destruct (replace_hits helpers chunks (S index) _)
        as [[[out0 i0] c0]|] eqn:E; [|discriminate].
      injection H as <- <- _. destruct (IH _ _ _ _ _ E) as [-> ->].
      split; [reflexivity|simpl; lia].
Qed.

Lemma obj_delete_get (k k' : jsstring) (fields : list (jsstring * json)) :
  obj_get k (obj_delete k' fields)
  = if jsstring_eqb k k' then None else obj_get k fields.
Proof.
  induction fields as [|[k0 v0] fields IH]; simpl.
  - now destruct (jsstring_eqb k k').
  - destruct (jsstring_eqb k' k0) eqn:E0.
    + apply jsstring_eqb_eq in E0. subst k0. rewrite IH.
      now destruct (jsstring_eqb k k').
    + simpl. rewrite IH.
      destruct (jsstring_eqb k k0) eqn:E1; [|reflexivity].
      apply jsstring_eqb_eq in E1. subst k0.
      destruct (jsstring_eqb k k') eqn:E2; [|reflexivity].
      apply jsstring_eqb_eq in E2. subst k'.
      now rewrite jsstring_eqb_refl in E0.
Qed.

Lemma on_match_directive (m : jsstring) (index : nat) (cmds cmds1 : list Command)
  (ph : jsstring) (index1 : nat) :
  genuine (Hit m) ->
  on_match helpers m index cmds = Normal (ph, index1, cmds1) ->
  exists c, cmds1 = cmds ++ [c] /\ directive_of helpers m c.
Proof.
  intros [s Hm]. unfold on_match.
  destruct (JSON.parse (slice_2_m2 m)) as [command|] eqn:E; [|discriminate].
  destruct (match_parses_to_directive _ _ _ Hm E) as (fields & nm & -> & Hk).
  cbn [get_gitdown]. fold gitdown_key. rewrite Hk.
  intros H. injection H as _ _ <-.
  eexists. split; [reflexivity|].
  exists fields, nm, (obj_delete (js "gitdown") fields).
  cbn [name helper executed parameters delete_gitdown].
  repeat split; trivial. intros k. apply obj_delete_get.
Qed.

Lemma replace_hits_directives (chunks : list chunk) :
  Forall genuine chunks ->
  forall index cmds out index' cmds',
    replace_hits helpers chunks index cmds = Normal (out, index', cmds') ->
    exists news,
      cmds' = cmds ++ news /\
      Forall2 (directive_of helpers)
        (flat_map (fun ch => match ch with
                             | Hit m => [m]
                             | Lit _ => []
                             end) chunks) news.
Proof.
  induction 1 as [|ch chunks Hg _ IH]; intros index cmds out index' cmds' H.
  - injection H as _ _ <-. exists []. rewrite app_nil_r. split; constructor.
  - destruct ch as [c|m]; cbn [replace_hits] in H.
    + destruct (replace_hits helpers chunks index cmds)
        as [[[out0 i0] c0]|] eqn:E; [|discriminate].
      injection H as _ _ <-. exact (IH _ _ _ _ _ E).
    + destruct (on_match helpers m index cmds) as [[[ph i1] c1]|] eqn:Eo;
        [|discriminate].
      destruct (on_match_directive _ _ _ _ _ _ Hg Eo) as (c & -> & Hc).
      destruct (replace_hits helpers chunks i1 (cmds ++ [c]))
        as [[[out0 i0] c0]|] eqn:E; [|discriminate].
      injection H as _ _ <-.
      destruct (IH _ _ _ _ _ E) as (news & -> & HF).
      exists (c :: news). rewrite <- app_assoc. split; [reflexivity|].
      cbn [flat_map app]. now constructor.
Qed.

End ScanMore.

(** X1.  What a scan returns has no match of the pattern left: scanning it
    again changes nothing, registers nothing and reports no change. *)
Theorem X1_scan_leaves_no_match
  (helpers : option json -> option Helper)
  (md : jsstring) (cmds : list Command) (index index' : nat) (st : State) :
  parse helpers md cmds index = Normal (st, index') ->
  has_match (markdown st) = false /\
  parse helpers (markdown st) (commands st) index'
  = Normal ({| markdown := markdown st; commands := commands st;
               change := false |}, index').
Proof.
  intros H.
  assert (Hm : has_match (markdown st) = false).
  { unfold parse in H.
    destruct (replace_hits helpers (scan 0 md) index cmds)
      as [[[out i] c0]|] eqn:E; [|discriminate].
    injection H as <- _. cbn [markdown].
    destruct (replace_hits_render helpers _ (scan_genuine md 0) _ _ _ _ _ E)
      as [-> _].
    exact (rewritten_no_match (List.length md) md (le_n _) index). }
  split; [exact Hm|]. exact (parse_no_match helpers _ _ _ Hm).
Qed.

Lemma X1_scan_leaves_no_match_witness :
  parse upper_only (js "A <<{'gitdown':'upper'}>> B") [] 0
  = Normal (upper_scanned, 1) /\
  has_match (markdown upper_scanned) = false.
Proof.
  assert (H : parse upper_only (js "A <<{'gitdown':'upper'}>> B") [] 0
              = Normal (upper_scanned, 1)) by (vm_compute; reflexivity).
  split; [exact H|].
  exact (proj1 (X1_scan_leaves_no_match upper_only _ _ _ _ _ H)).
Defined.

(** X2.  The [change] flag of the state a scan returns is true exactly when
    the pattern matches somewhere in the scanned text. *)
Theorem X2_change_iff_match
  (helpers : option json -> option Helper)
  (md : jsstring) (cmds : list Command) (index index' : nat) (st : State) :
  parse helpers md cmds index = Normal (st, index') ->
  change st = has_match md.
Proof.
  unfold parse. intros H.
  destruct (replace_hits helpers (scan 0 md) index cmds)
    as [[[out i] c0]|] eqn:E; [|discriminate].
  injection H as <- _. cbn [change].
  destruct (replace_hits_render helpers _ (scan_genuine md 0) _ _ _ _ _ E)
    as [_ ->].
  rewrite has_match_scan, existsb_is_hit. f_equal.
  destruct (List.length (filter is_hit (scan 0 md))) as [|h]; simpl.
  - now rewrite Nat.add_0_r, Nat.eqb_refl.
  - apply Nat.eqb_neq. lia.
Qed.

Lemma X2_change_iff_match_witness :
  parse upper_only (js "A <<{'gitdown':'upper'}>> B") [] 0
  = Normal (upper_scanned, 1) /\
  change upper_scanned = has_match (js "A <<{'gitdown':'upper'}>> B").
Proof.
  assert (H : parse upper_only (js "A <<{'gitdown':'upper'}>> B") [] 0
              = Normal (upper_scanned, 1)) by (vm_compute; reflexivity).
  split; [exact H|].
  exact (X2_change_iff_match upper_only _ _ _ _ _ H).
Defined.

(** X3.  A scan only appends to the registry: the commands it was given
    stay as they are and in place, one command is added for each match of
    the pattern, and the added commands take the binding indexes that
    follow the parser's index, in order. *)
Theorem X3_scan_appends_numbered_commands
  (helpers : option json -> option Helper)
  (md : jsstring) (cmds : list Command) (index index' : nat) (st : State) :
  parse helpers md cmds index = Normal (st, index') ->
  exists news,
    commands st = cmds ++ news /\
    List.length news = hits md /\
    index' = index + hits md /\
    map bindingIndex news = seq (S index) (hits md).
Proof.
  intros H.
  destruct (parse_commands helpers _ _ _ _ _ H) as (news & Hc & Hi & Hb & _).
  assert (Hh : index' = index + hits md).
  { unfold parse in H.
    destruct (replace_hits helpers (scan 0 md) index cmds)
      as [[[out i] c0]|] eqn:E; [|discriminate].
    injection H as _ <-.
    exact (proj2 (replace_hits_render helpers _ (scan_genuine md 0)
                    _ _ _ _ _ E)). }
  assert (Hl : List.length news = hits md) by lia.
  exists news. rewrite <- Hl. now repeat split.
Qed.

Lemma X3_scan_appends_numbered_commands_witness :
  parse demo_helpers (js "<<{'gitdown':'low'}>> <<{'gitdown':'low'}>>") [] 0
  = Normal (two_low, 2) /\
  hits (js "<<{'gitdown':'low'}>> <<{'gitdown':'low'}>>") = 2 /\
  map bindingIndex (commands two_low) = [1; 2].
Proof.
  assert (H : parse demo_helpers
                (js "<<{'gitdown':'low'}>> <<{'gitdown':'low'}>>") [] 0
              = Normal (two_low, 2)) by (vm_compute; reflexivity).
  split; [exact H|]. split; [reflexivity|].
  destruct (X3_scan_appends_numbered_commands demo_helpers _ _ _ _ _ H)
    as (news & Hc & _ & _ & Hb).
  simpl in Hc. subst news. exact Hb.
Defined.

(** X4.  The commands a scan adds are the matches of the pattern in the
    text, leftmost first.  Each is unexecuted; its name is the value of
    the key [gitdown] of the parsed match, its helper is what the registry
    has under that name, and its parameters are the parsed object without
    the key [gitdown], every other key keeping its value. *)
Theorem X4_commands_follow_matches
  (helpers : option json -> option Helper)
  (md : jsstring) (cmds : list Command) (index index' : nat) (st : State) :
  parse helpers md cmds index = Normal (st, index') ->
  exists news,
    commands st = cmds ++ news /\
    Forall2 (directive_of helpers) (matched_texts md) news.
Proof.
  unfold parse. intros H.
  destruct (replace_hits helpers (scan 0 md) index cmds)
    as [[[out i] c0]|] eqn:E; [|discriminate].
  injection H as <- _. cbn [commands].
  exact (replace_hits_directives helpers _ (scan_genuine md 0) _ _ _ _ _ E).
Qed.

Lemma X4_commands_follow_matches_witness :
  parse upper_only (js "A <<{'gitdown':'upper'}>> B") [] 0
  = Normal (upper_scanned, 1) /\
  matched_texts (js "A <<{'gitdown':'upper'}>> B")
  = [js "<<{'gitdown':'upper'}>>"] /\
  Forall2 (directive_of upper_only)
    [js "<<{'gitdown':'upper'}>>"] (commands upper_scanned).
Proof.
  assert (H : parse upper_only (js "A <<{'gitdown':'upper'}>> B") [] 0
              = Normal (upper_scanned, 1)) by (vm_compute; reflexivity).
  split; [exact H|]. split; [reflexivity|].
  destruct (X4_commands_follow_matches upper_only _ _ _ _ _ H)
    as (news & Hc & HF).
  simpl in Hc. subst news. exact HF.
Defined.

(* ================================================================== *)
(** ** Further properties: the lowest weight *)
(* ================================================================== *)

Lemma jsstring_ltb_irrefl (a : jsstring) : jsstring_ltb a a = false.
Proof.
  induction a as [|x a IH]; [reflexivity|].
  cbn [jsstring_ltb]. now rewrite N.ltb_irrefl.
Qed.

Lemma jsstring_ltb_trans (a b c : jsstring) :
  jsstring_ltb a b = true -> jsstring_ltb b c = true ->
  jsstring_ltb a c = true.
Proof.
  revert b c; induction a as [|x a IH]; intros [|y b] [|z c];
    cbn [jsstring_ltb]; try discriminate; trivial.
  destruct (N.ltb_spec x y), (N.ltb_spec y x), (N.ltb_spec y z),
    (N.ltb_spec z y), (N.ltb_spec x z), (N.ltb_spec z x);
    try discriminate; try lia; trivial.
  apply IH.
Qed.

Lemma sort_insert_In (x y : Z) (l : list Z) :
  In x (sort_insert y l) <-> x = y \/ In x l.
Proof.
  induction l as [|z l IH]; cbn [sort_insert].
  - simpl. intuition.
  - destruct (sort_before y z); simpl in *; rewrite ?IH; intuition.
Qed.

Lemma js_sort_In (x : Z) (l : list Z) : In x (js_sort l) <-> In x l.
Proof.
  induction l as [|y l IH]; [reflexivity|].
  cbn [js_sort fold_right]. fold (js_sort l).
  rewrite sort_insert_In, IH. simpl. intuition.
Qed.

(** The first element of the sorted array comes before or with every
    other one in the order of the strings. *)
Lemma js_sort_head (l : list Z) (m : Z) (rest : list Z) :
  js_sort l = m :: rest ->
  forall w, In w l -> sort_before w m = false.
Proof.
  revert m rest; induction l as [|x l IH]; intros m rest H w Hw;
    [contradiction|].
  cbn [js_sort fold_right] in H. fold (js_sort l) in H.
  destruct (js_sort l) as [|y sorted] eqn:E.
  - assert (l = []) as ->.
    { destruct l as [|z l]; [reflexivity|].
      assert (Hz : In z (js_sort (z :: l))) by (apply js_sort_In; now left).
      rewrite E in Hz. contradiction. }
    cbn [sort_insert] in H. injection H as <- _.
    destruct Hw as [<-|[]]. apply jsstring_ltb_irrefl.
  - specialize (IH y sorted eq_refl).
    cbn [sort_insert] in H.
    destruct (sort_before x y) eqn:Exy; injection H as <- _.
    + destruct Hw as [<-|Hw]; [apply jsstring_ltb_irrefl|].
      destruct (sort_before w x) eqn:Ewx; [|reflexivity].
      rewrite <- (IH w Hw). symmetry.
      exact (jsstring_ltb_trans _ _ _ Ewx Exy).
    + destruct Hw as [<-|Hw]; [exact Exy|now apply IH].
Qed.

Lemma sort_before_digits (x y : Z) :
  (0 <= x <= 9)%Z -> (0 <= y <= 9)%Z -> sort_before x y = (x <? y)%Z.
Proof.
  intros Hx Hy.
  assert (Ex : (x = 0 \/ x = 1 \/ x = 2 \/ x = 3 \/ x = 4 \/ x = 5 \/ x = 6
                \/ x = 7 \/ x = 8 \/ x = 9)%Z) by lia.
  assert (Ey : (y = 0 \/ y = 1 \/ y = 2 \/ y = 3 \/ y = 4 \/ y = 5 \/ y = 6
                \/ y = 7 \/ y = 8 \/ y = 9)%Z) by lia.
  repeat (destruct Ex as [->|Ex]); try subst x;
    repeat (destruct Ey as [->|Ey]); try subst y; reflexivity.
Qed.

(** X5.  Of weights that are safe integers, the lowest weight of a round
    is one of the weights, and no weight comes before it in the order of
    their decimal strings; of a non-empty array there is one. *)
Theorem X5_lowest_weight_is_first_string
  (ws : list Z) :
  Forall safe_integer ws ->
  (ws <> [] -> exists m, lowestWeight ws = Some m) /\
  (forall m, lowestWeight ws = Some m ->
             In m ws /\
             forall w, In w ws ->
                       jsstring_ltb (Z_toString w) (Z_toString m) = false).
Proof.
  intros _. unfold lowestWeight. split.
  - intros Hne. destruct (js_sort ws) as [|m rest] eqn:E; [|now exists m].
    destruct ws as [|w ws]; [contradiction|].
    assert (Hw : In w (js_sort (w :: ws))) by (apply js_sort_In; now left).
    rewrite E in Hw. contradiction.
  - intros m H. destruct (js_sort ws) as [|m' rest] eqn:E; [discriminate|].
    injection H as ->. split.
    + apply js_sort_In. rewrite E. now left.
    + exact (js_sort_head ws m rest E).
Qed.

Lemma X5_lowest_weight_is_first_string_witness :
  Forall safe_integer [5%Z; 100%Z; 20%Z] /\
  [5%Z; 100%Z; 20%Z] <> [] /\
  lowestWeight [5%Z; 100%Z; 20%Z] = Some 100%Z /\
  jsstring_ltb (Z_toString 5) (Z_toString 100) = false.
Proof.
  assert (Hs : Forall safe_integer [5%Z; 100%Z; 20%Z])
    by (repeat constructor).
  assert (Hne : [5%Z; 100%Z; 20%Z] <> []) by discriminate.
  assert (H : lowestWeight [5%Z; 100%Z; 20%Z] = Some 100%Z) by reflexivity.
  split; [exact Hs|]. split; [exact Hne|]. split; [exact H|].
  apply (proj2 (proj2 (X5_lowest_weight_is_first_string [5%Z; 100%Z; 20%Z]
                         Hs)
                  100%Z H) 5%Z).
  now left.
Defined.

(** X6.  When every weight is a single digit, from 0 to 9, the lowest
    weight is the least of the weights as numbers. *)
Theorem X6_single_digit_weights_numeric (ws : list Z) (m : Z) :
  Forall (fun w => (0 <= w <= 9)%Z) ws ->
  lowestWeight ws = Some m ->
  In m ws /\ Forall (fun w => (m <= w)%Z) ws.
Proof.
  intros Hd H. unfold lowestWeight in H.
  destruct (js_sort ws) as [|m' rest] eqn:E; [discriminate|].
  injection H as ->.
  assert (Hin : In m ws) by (apply js_sort_In; rewrite E; now left).
  split; [exact Hin|].
  rewrite Forall_forall in *. intros w Hw.
  pose proof (js_sort_head ws m rest E w Hw) as Hb.
  rewrite (sort_before_digits w m (Hd w Hw) (Hd m Hin)) in Hb.
  apply Z.ltb_ge in Hb. exact Hb.
Qed.

Lemma X6_single_digit_weights_numeric_witness :
  Forall (fun w => (0 <= w <= 9)%Z) [5%Z; 1%Z; 9%Z] /\
  lowestWeight [5%Z; 1%Z; 9%Z] = Some 1%Z /\
  Forall (fun w => (1 <= w)%Z) [5%Z; 1%Z; 9%Z].
Proof.
  assert (Hd : Forall (fun w => (0 <= w <= 9)%Z) [5%Z; 1%Z; 9%Z])
    by (repeat constructor; lia).
  assert (H : lowestWeight [5%Z; 1%Z; 9%Z] = Some 1%Z) by reflexivity.
  split; [exact Hd|]. split; [exact H|].
  exact (proj2 (X6_single_digit_weights_numeric _ _ Hd H)).
Defined.

(* ================================================================== *)
(** ** Further properties: the rounds *)
(* ================================================================== *)

Lemma mark_all_map (bs : list nat) :
  forall cmds,
    mark_all bs cmds
    = map (fun c => if existsb (Nat.eqb (bindingIndex c)) bs
                    then done_command c else c) cmds.
Proof.
  induction bs as [|b bs IH]; intros cmds.
  - simpl. symmetry. apply map_id.
  - cbn [mark_all fold_left]. fold (mark_all bs (mark_executed b cmds)).
    rewrite IH. unfold mark_executed. rewrite map_map.
    apply map_ext. intros c. cbn [existsb].
    destruct (bindingIndex c =? b) eqn:Eb; cbn [bindingIndex orb].
    + fold (done_command c). now destruct (existsb _ bs).
    + reflexivity.
Qed.

Lemma settle_fulfilled_inv (pass : nat) (done : list (nat * Settled)) :
  forall st hung st',
    snd (settle pass done st hung) = Fulfilled st' ->
    hung = false /\
    Forall (fun p => exists v, snd p = Fulfils v) done /\
    commands st' = mark_all (map fst done) (commands st) /\
    change st' = change st.
Proof.
  induction done as [|[i p] done IH]; intros st hung st' H.
  - simpl in H. destruct hung; [discriminate|]. injection H as <-.
    repeat split. constructor.
  - destruct p as [v| |]; cbn [settle] in H.
    + destruct (settle pass done (substitute i v st) hung) as [evs r] eqn:E.
      cbn [snd] in H. subst r.
      destruct (IH (substitute i v st) hung st') as (Hh & HF & Hc & Hg).
      { now rewrite E. }
      repeat split; trivial.
      constructor; [now exists v|exact HF].
    + discriminate.
    + destruct (IH st true st' H) as (Hh & _). discriminate.
Qed.

Lemma weights_In (cs : list Command) (ws : list Z) (m : Z) :
  weights cs = Normal ws -> In m ws ->
  exists c h, In c cs /\ helper c = Some h /\ weight h = m.
Proof.
  revert ws; induction cs as [|c cs IH]; intros ws H Hm; cbn [weights] in H.
  - injection H as <-. contradiction.
  - destruct (helper c) as [h|] eqn:Eh; [|discriminate].
    destruct (weights cs) as [ws0|]; [|discriminate].
    injection H as <-. destruct Hm as [<-|Hm].
    + exists c, h. repeat split; trivial. now left.
    + destruct (IH ws0 eq_refl Hm) as (c' & h' & Hc & Hh & Hw).
      exists c', h'. repeat split; trivial. now right.
Qed.

Lemma in_round_unexecuted (cmds : list Command) (w : option Z) (c : Command) :
  In c (filter (has_weight w) (notExecutedCommands cmds)) <->
  In c cmds /\ in_round w c = true.
Proof.
  unfold notExecutedCommands, in_round. rewrite !filter_In.
  rewrite andb_true_iff. tauto.
Qed.

(** What a fulfilled round does to the registry. *)
Lemma execute_marks
  (sched : nat -> list (nat * Settled) -> list (nat * Settled))
  (pass : nat) (st st' : State) (ws : list Z) :
  (forall l, Permutation (sched pass l) l) ->
  NoDup (map bindingIndex (commands st)) ->
  weights (notExecutedCommands (commands st)) = Normal ws ->
  snd (execute sched pass st) = Fulfilled st' ->
  commands st'
  = map (fun c => if in_round (lowestWeight ws) c then done_command c else c)
      (commands st) /\
  change st' = change st.
Proof.
  intros Hs Hnd Hw H. unfold execute in H.
  destruct (notExecutedCommands (commands st)) as [|c0 todo] eqn:En.
  - injection H as <-. split; [|reflexivity].
    injection Hw as <-. symmetry.
    rewrite <- (map_id (commands st)) at 2. apply map_ext.
    intros c. unfold in_round, has_weight, lowestWeight. simpl.
    destruct (helper c); now rewrite andb_false_r.
  - rewrite Hw in H.
    destruct (invoke_all pass (markdown st)
                (filter (has_weight (lowestWeight ws)) (c0 :: todo)))
      as [evs [promises|e]] eqn:Ei; [|discriminate].
    destruct (settle pass (sched pass promises) st false) as [evs' r] eqn:Es.
    cbn [snd] in H. subst r.
    destruct (settle_fulfilled_inv pass (sched pass promises) st false st')
      as (_ & _ & Hc & Hg); [now rewrite Es|].
    split; [|exact Hg]. rewrite Hc, mark_all_map.
    apply map_ext_in. intros c Hin.
    assert (E : existsb (Nat.eqb (bindingIndex c))
                  (map fst (sched pass promises))
                = in_round (lowestWeight ws) c).
    { apply eq_iff_eq_true. rewrite existsb_exists. split.
      - intros (b & Hb & Eb). apply Nat.eqb_eq in Eb. subst b.
        apply (Permutation_in _ (Permutation_map fst (Hs promises))) in Hb.
        rewrite (invoke_all_bindings _ _ _ _ _ Ei), <- En in Hb.
        apply in_map_iff in Hb as (c' & Hsame & Hc').
        apply in_round_unexecuted in Hc' as [Hc' Hr].
        now rewrite <- (same_binding_same_command _ _ _ Hnd Hc' Hin Hsame).
      - intros Hr. exists (bindingIndex c). split; [|apply Nat.eqb_refl].
        apply (Permutation_in _
                 (Permutation_sym (Permutation_map fst (Hs promises)))).
        rewrite (invoke_all_bindings _ _ _ _ _ Ei), <- En.
        apply in_map. now apply in_round_unexecuted. }
    now rewrite E.
Qed.

Lemma fewer_unexecuted (f : Command -> Command) (cmds : list Command)
  (c0 : Command) :
  (forall c, executed c = true -> executed (f c) = true) ->
  In c0 cmds -> executed c0 = false -> executed (f c0) = true ->
  List.length (notExecutedCommands (map f cmds))
  < List.length (notExecutedCommands cmds).
Proof.
  intros Hmono Hin H0 H1. unfold notExecutedCommands.
  assert (Hle : forall l,
             List.length (filter (fun c => negb (executed c)) (map f l))
             <= List.length (filter (fun c => negb (executed c)) l)).
  { induction l as [|c l IH]; [constructor|]. simpl.
    destruct (executed c) eqn:Ec.
    - now rewrite (Hmono c Ec).
    - destruct (executed (f c)); simpl; lia. }
  induction cmds as [|c cmds IH]; [contradiction|]. simpl.
  destruct Hin as [->|Hin].
  - rewrite H0, H1. simpl. specialize (Hle cmds). lia.
  - specialize (IH Hin). destruct (executed c) eqn:Ec.
    + now rewrite (Hmono c Ec).
    + destruct (executed (f c)); simpl; lia.
Qed.

Lemma execute_progress
  (sched : nat -> list (nat * Settled) -> list (nat * Settled))
  (pass : nat) (st st' : State) :
  (forall l, Permutation (sched pass l) l) ->
  NoDup (map bindingIndex (commands st)) ->
  notExecutedCommands (commands st) <> [] ->
  snd (execute sched pass st) = Fulfilled st' ->
  List.length (notExecutedCommands (commands st'))
  < List.length (notExecutedCommands (commands st)).
Proof.
  intros Hs Hnd Hne H.
  destruct (weights (notExecutedCommands (commands st))) as [ws|e] eqn:Ew.
  - destruct (execute_marks sched pass st st' ws Hs Hnd Ew H) as [Hc _].
    destruct (notExecutedCommands (commands st)) as [|c0 todo] eqn:En;
      [contradiction|].
    assert (Hws : ws <> []).
    { intros ->. cbn [weights] in Ew. destruct (helper c0); [|discriminate].
      destruct (weights todo); discriminate. }
    destruct ws as [|w ws]; [contradiction|].
    destruct (js_sort (w :: ws)) as [|m rest] eqn:Es.
    { assert (Hin : In w (js_sort (w :: ws))) by (apply js_sort_In; now left).
      rewrite Es in Hin. contradiction. }
    assert (Hm : In m (w :: ws)) by (apply js_sort_In; rewrite Es; now left).
    destruct (weights_In _ _ m Ew Hm) as (c & h & Hin & Hh & Hwm).
    assert (Hlw : lowestWeight (w :: ws) = Some m)
      by (unfold lowestWeight; now rewrite Es).
    rewrite <- En in Hin.
    apply filter_In in Hin as [Hin He].
    rewrite Hc, <- En.
    apply (fewer_unexecuted _ _ c).
    + intros c1 E1. destruct (in_round _ c1); [reflexivity|exact E1].
    + exact Hin.
    + now destruct (executed c).
    + assert (Hr : in_round (lowestWeight (w :: ws)) c = true).
      { unfold in_round, has_weight. rewrite He, Hlw, Hh, Hwm.
        now rewrite Z.eqb_refl. }
      now rewrite Hr.
  - exfalso. unfold execute in H.
    destruct (notExecutedCommands (commands st)); [contradiction|].
    rewrite Ew in H. discriminate.
Qed.

(** X7.  A round that is fulfilled, on commands whose weights are safe
    integers, marks as executed exactly the unexecuted commands whose
    weight is the lowest weight of the round; it changes nothing else in
    the registry, adds and removes no command, and leaves the [change]
    flag as the scan set it. *)
Theorem X7_round_marks_lowest_weight_commands
  (sched : nat -> list (nat * Settled) -> list (nat * Settled))
  (pass : nat) (st st' : State) (ws : list Z) :
  (forall l, Permutation (sched pass l) l) ->
  NoDup (map bindingIndex (commands st)) ->
  weights (notExecutedCommands (commands st)) = Normal ws ->
  Forall safe_integer ws ->
  snd (execute sched pass st) = Fulfilled st' ->
  commands st'
  = map (fun c => if in_round (lowestWeight ws) c then done_command c else c)
      (commands st) /\
  change st' = change st.
Proof.
  intros Hs Hnd Ew _ E. exact (execute_marks sched pass st st' ws Hs Hnd Ew E).
Qed.


Lemma lifo_permutation (pass : nat) (l : list (nat * Settled)) :
  Permutation (lifo pass l) l.
Proof. apply Permutation_sym, Permutation_rev. Qed.

Lemma two_low_distinct : NoDup (map bindingIndex (commands two_low)).
Proof. simpl. repeat constructor; simpl; intuition discriminate. Qed.

Lemma X7_round_marks_lowest_weight_commands_witness :
  NoDup (map bindingIndex (commands two_low)) /\
  weights (notExecutedCommands (commands two_low)) = Normal [1%Z; 1%Z] /\
  Forall safe_integer [1%Z; 1%Z] /\
  exists st',
    snd (execute lifo 0 two_low) = Fulfilled st' /\
    map executed (commands st') = [true; true].
Proof.
  assert (H : exists st', snd (execute lifo 0 two_low) = Fulfilled st')
    by (eexists; vm_compute; reflexivity).
  destruct H as [st' H].
  assert (Hw : Forall safe_integer [1%Z; 1%Z]) by (repeat constructor).
  split; [exact two_low_distinct|]. split; [reflexivity|].
  split; [exact Hw|].
  exists st'. split; [exact H|].
  destruct (X7_round_marks_lowest_weight_commands lifo 0 two_low st'
              [1%Z; 1%Z] (lifo_permutation 0) two_low_distinct eq_refl Hw H)
    as [Hc _].
  rewrite Hc. reflexivity.
Defined.


(* ================================================================== *)
(** ** Further properties: runs that reach the fixed point *)
(* ================================================================== *)

Lemma GetSubstitution_Forall (P : N -> Prop) (matched pre post : jsstring) :
  Forall P matched -> Forall P pre -> Forall P post ->
  forall v, Forall P v -> Forall P (GetSubstitution matched pre post v).
Proof.
  intros Hm Hpre Hpost v.
  remember (List.length v) as n eqn:Hn.
  assert (Hle : List.length v <= n) by lia. clear Hn.
  revert v Hle; induction n as [|n IH]; intros v Hle Hv.
  - destruct v; [constructor|simpl in Hle; lia].
  - destruct v as [|c r]; [constructor|].
    inversion Hv as [|? ? Hc Hr]; subst.
    assert (IHr : Forall P (GetSubstitution matched pre post r)).
    { apply IH; [simpl in Hle; lia|exact Hr]. }
    cbn [GetSubstitution].
    destruct (N.eqb_spec c 36) as [->|_]; [|now constructor].
    destruct r as [|d r']; [now repeat constructor|].
    inversion Hr as [|? ? Hd Hr']; subst.
    assert (IHr' : Forall P (GetSubstitution matched pre post r')).
    { apply IH; [simpl in Hle; lia|exact Hr']. }
    destruct (d =? 36)%N; [now constructor|].
    destruct (d =? 38)%N; [now apply Forall_app|].
    destruct (d =? 96)%N; [now apply Forall_app|].
    destruct (d =? 39)%N; [now apply Forall_app|].
    now constructor.
Qed.

(** What [replace] returns is made of units of the text, of the pattern and
    of the replacement. *)
Lemma replace_Forall (P : N -> Prop) (pat v s : jsstring) :
  Forall P s -> Forall P v -> Forall P (replace pat v s).
Proof.
  intros Hs Hv. unfold replace.
  destruct (index_of pat s) as [[pre post]|] eqn:E; [|exact Hs].
  apply index_of_Some in E. subst s.
  apply Forall_app in Hs as [Hpre Hs].
  apply Forall_app in Hs as [Hpat Hpost].
  apply Forall_app. split; [exact Hpre|].
  apply Forall_app. split; [|exact Hpost].
  now apply GetSubstitution_Forall.
Qed.

Lemma settle_Forall (P : N -> Prop) (pass : nat)
  (done : list (nat * Settled)) :
  Forall (fun p => exists v, snd p = Fulfils v /\ Forall P v) done ->
  forall st,
    Forall P (markdown st) ->
    exists st',
      snd (settle pass done st false) = Fulfilled st' /\
      Forall P (markdown st').
Proof.
  induction 1 as [|[i p] done (v & Hp & Hv) _ IH]; intros st Hst.
  - exists st. now split.
  - cbn [snd] in Hp. subst p. cbn [settle].
    destruct (IH (substitute i v st)) as (st' & E & Hst').
    { cbn [substitute markdown]. now apply replace_Forall. }
    exists st'. destruct (settle pass done (substitute i v st) false).
    now split.
Qed.

Lemma invoke_all_tame (pass : nat) (md : jsstring) (cs : list Command) :
  tame_commands cs ->
  exists evs promises,
    invoke_all pass md cs = (evs, Normal promises) /\
    Forall (fun p => exists v, snd p = Fulfils v /\
                               Forall (fun c => c <> 60%N) v) promises.
Proof.
  induction 1 as [|c cs (h & Hh & Ht) _ (evs & ps & IH & Hps)].
  - exists [], []. split; [reflexivity|constructor].
  - destruct (Ht md (parameters c)) as (v & Hc & Hv).
    cbn [invoke_all]. rewrite Hh, Hc, IH.
    eexists _, _. split; [reflexivity|].
    constructor; [|exact Hps]. exists v. split; [reflexivity|].
    apply Forall_forall. intros x Hx ->. contradiction.
Qed.

Lemma tame_commands_filter (f : Command -> bool) (cmds : list Command) :
  tame_commands cmds -> tame_commands (filter f cmds).
Proof.
  unfold tame_commands. rewrite !Forall_forall.
  intros H c Hin. apply filter_In in Hin as [Hin _]. now apply H.
Qed.

Lemma tame_commands_weights (cmds : list Command) :
  tame_commands cmds -> exists ws, weights cmds = Normal ws.
Proof.
  intros H. apply weights_defined.
  eapply Forall_impl; [|exact H].
  intros c (h & -> & _). discriminate.
Qed.

(** A round on a registry of tame helpers is fulfilled and brings no [<]
    into a text that has none. *)
Lemma execute_tame
  (sched : nat -> list (nat * Settled) -> list (nat * Settled))
  (pass : nat) (st : State) :
  (forall l, Permutation (sched pass l) l) ->
  tame_commands (commands st) ->
  Forall (fun c => c <> 60%N) (markdown st) ->
  exists st',
    snd (execute sched pass st) = Fulfilled st' /\
    Forall (fun c => c <> 60%N) (markdown st').
Proof.
  intros Hs Ht Hmd. unfold execute.
  pose proof (tame_commands_filter (fun c => negb (executed c)) _ Ht) as Ht'.
  fold (notExecutedCommands (commands st)) in Ht'.
  destruct (notExecutedCommands (commands st)) as [|c0 todo] eqn:En.
  { exists st. now split. }
  destruct (tame_commands_weights _ Ht') as (ws & ->).
  destruct (invoke_all_tame pass (markdown st)
              (filter (has_weight (lowestWeight ws)) (c0 :: todo)))
    as (evs & promises & -> & Hp).
  { now apply tame_commands_filter. }
  destruct (settle_Forall (fun c => c <> 60%N) pass (sched pass promises))
    with (st := st) as (st' & E & Hst').
  { exact (Permutation_Forall (Permutation_sym (Hs promises)) Hp). }
  { exact Hmd. }
  exists st'. destruct (settle pass (sched pass promises) st false).
  now split.
Qed.

Lemma parse_change (helpers : option json -> option Helper)
  (md : jsstring) (cmds : list Command) (index index' : nat) (st : State) :
  parse helpers md cmds index = Normal (st, index') ->
  change st = negb (index =? index').
Proof.
  unfold parse. intros H.
  destruct (replace_hits helpers (scan 0 md) index cmds)
    as [[[out i] c0]|]; [|discriminate].
  now injection H as <- <-.
Qed.

Lemma no_lt_no_match (s : jsstring) :
  Forall (fun c => c <> 60%N) s -> has_match s = false.
Proof.
  intros H. rewrite <- (app_nil_r s). now rewrite has_match_lits.
Qed.

Lemma marked_tame (w : option Z) (cmds : list Command) :
  tame_commands cmds ->
  tame_commands
    (map (fun c => if in_round w c then done_command c else c) cmds).
Proof.
  unfold tame_commands. rewrite Forall_map. apply Forall_impl.
  intros c H. now destruct (in_round w c).
Qed.

Lemma marked_bindings (w : option Z) (cmds : list Command) :
  map bindingIndex
    (map (fun c => if in_round w c then done_command c else c) cmds)
  = map bindingIndex cmds.
Proof.
  rewrite map_map. apply map_ext. intros c. now destruct (in_round w c).
Qed.

Section Settling.

Variable helpers : option json -> option Helper.
Variable sched : nat -> list (nat * Settled) -> list (nat * Settled).
Hypothesis sched_permutes : forall pass l, Permutation (sched pass l) l.

(** Once the text has no [<], each pass executes a round and the run ends
    when no command is unexecuted. *)
Lemma play_settles (k : nat) :
  forall fuel pass md cmds index,
    Forall (fun c => c <> 60%N) md ->
    tame_commands cmds ->
    NoDup (map bindingIndex cmds) ->
    List.length (notExecutedCommands cmds) <= k -> k < fuel ->
    exists st,
      snd (play helpers sched fuel pass md cmds index) = Fulfilled st /\
      Forall (fun c => c <> 60%N) (markdown st).
Proof.
  induction k as [|k IH]; intros fuel pass md cmds index Hmd Ht Hnd Hk Hf;
    (destruct fuel as [|fuel]; [lia|]); cbn [play];
    rewrite (parse_no_match helpers md cmds index (no_lt_no_match md Hmd)).
  - assert (En : notExecutedCommands cmds = []).
    { destruct (notExecutedCommands cmds); [reflexivity|simpl in Hk; lia]. }
    rewrite execute_idle by exact En. cbn [change commands negb andb].
    rewrite En. simpl. eexists. split; [reflexivity|exact Hmd].
  - set (st := {| markdown := md; commands := cmds; change := false |}).
    destruct (execute_tame sched pass st (sched_permutes pass) Ht Hmd)
      as (st' & E & Hst').
    destruct (notExecutedCommands cmds) as [|c0 todo] eqn:En.
    + rewrite execute_idle by exact En. unfold st.
      cbn [change commands negb andb].
      rewrite En. simpl. eexists. split; [reflexivity|exact Hmd].
    + assert (Hne : notExecutedCommands (commands st) <> [])
        by (cbn [commands st]; rewrite En; discriminate).
      pose proof (execute_progress sched pass st st' (sched_permutes pass)
                    Hnd Hne E) as Hlt.
      destruct (tame_commands_weights (notExecutedCommands (commands st)))
        as (ws & Ew).
      { now apply tame_commands_filter. }
      destruct (execute_marks sched pass st st' ws (sched_permutes pass)
                  Hnd Ew E) as [Hc Hg].
      destruct (execute sched pass st) as [evs r]. cbn [snd] in E. subst r.
      rewrite Hg. cbn [change st negb andb].
      destruct (List.length (notExecutedCommands (commands st')) =? 0).
      * eexists. split; [reflexivity|exact Hst'].
      * destruct (IH fuel (S pass) (markdown st') (commands st') index)
          as (st2 & E2 & Hst2); trivial.
        -- rewrite Hc. now apply marked_tame.
        -- rewrite Hc, marked_bindings. exact Hnd.
        -- cbn [commands st] in Hlt. rewrite En in Hlt. simpl in Hlt, Hk. lia.
        -- lia.
        -- exists st2.
           destruct (play helpers sched fuel (S pass) (markdown st')
                       (commands st') index) as [evs2 r2].
           cbn [snd] in *. subst r2. now split.
Qed.

End Settling.


Lemma const_helper_tame (w : Z) (out : jsstring) :
  ~ In 60%N out -> tame (const_helper w out).
Proof. intros H md p. exists out. now split. Qed.


(* ================================================================== *)
(** ** Further properties: a document with one directive *)
(* ================================================================== *)

Section OneDirective.

Variable helpers : option json -> option Helper.
Variable sched : nat -> list (nat * Settled) -> list (nat * Settled).
Hypothesis sched_permutes : forall pass l, Permutation (sched pass l) l.

Variables pre body post v : jsstring.
Variable command : json.
Variable nm : option json.
Variable h : Helper.

Hypothesis pre_plain : Forall (fun c => c <> 60%N /\ c <> 8834%N) pre.
Hypothesis post_plain : Forall (fun c => c <> 60%N) post.
Hypothesis body_run : body <> [] /\ Forall (fun c => c <> 125%N) body.
Hypothesis body_json :
  JSON.parse (slice_2_m2 (opening ++ body ++ closing)) = Some command.
Hypothesis body_name : get_gitdown command = Normal nm.
Hypothesis known : helpers nm = Some h.
Hypothesis answer :
  call h (pre ++ placeholder 1 ++ post) (delete_gitdown command)
  = Answers (Fulfils v).
Hypothesis v_plain : Forall (fun c => c <> 60%N /\ c <> 36%N) v.

Let document : jsstring := pre ++ opening ++ body ++ closing ++ post.

Let registered : Command :=
  {| bindingIndex := 1; name := nm; parameters := delete_gitdown command;
     helper := Some h; executed := false |}.

Lemma pre_no_lt : Forall (fun c => c <> 60%N) pre.
Proof. eapply Forall_impl; [|exact pre_plain]. now intros c [H _]. Qed.

Lemma pre_no_open : Forall (fun c => c <> 8834%N) pre.
Proof. eapply Forall_impl; [|exact pre_plain]. now intros c [_ H]. Qed.

Lemma v_no_lt : Forall (fun c => c <> 60%N) v.
Proof. eapply Forall_impl; [|exact v_plain]. now intros c [H _]. Qed.

Lemma v_no_dollar : ~ In 36%N v.
Proof.
  intros Hin. rewrite Forall_forall in v_plain.
  now destruct (v_plain _ Hin) as [_ H].
Qed.

Lemma scan_one :
  scan 0 document
  = map Lit pre ++ Hit (opening ++ body ++ closing) :: map Lit post.
Proof.
  unfold document. rewrite (scan_lits _ _ pre_no_lt). f_equal.
  destruct body_run as [Hne Hrun].
  rewrite (scan_hit _ _ post (match_at_intro body post Hne Hrun)).
  - f_equal. apply scan_no_match. now apply no_lt_no_match.
  - rewrite <- (app_assoc opening (body ++ closing) post).
    now rewrite <- (app_assoc body closing post).
Qed.

Lemma parse_one :
  parse helpers document [] 0
  = Normal ({| markdown := pre ++ placeholder 1 ++ post;
               commands := [registered]; change := true |}, 1).
Proof.
  unfold parse. rewrite scan_one, replace_hits_lits. cbn [replace_hits].
  unfold on_match. rewrite body_json, body_name, known.
  rewrite <- (app_nil_r (map Lit post)), replace_hits_lits.
  cbn [replace_hits app]. now rewrite app_nil_r.
Qed.

Lemma execute_one (pass : nat) :
  snd (execute sched pass
         {| markdown := pre ++ placeholder 1 ++ post;
            commands := [registered]; change := true |})
  = Fulfilled {| markdown := pre ++ v ++ post;
                 commands := [done_command registered]; change := true |}.
Proof.
  unfold execute, registered.
  cbn [commands notExecutedCommands filter executed negb weights
       helper markdown].
  unfold lowestWeight. cbn [js_sort fold_right sort_insert hd_error].
  cbn [filter has_weight helper]. rewrite Z.eqb_refl.
  cbn [invoke_all helper parameters bindingIndex]. rewrite answer.
  rewrite (Permutation_length_1_inv
             (Permutation_sym (sched_permutes pass [(1, Fulfils v)]))).
  cbn [settle snd substitute markdown commands change mark_executed map
       bindingIndex Nat.eqb].
  unfold substitute. cbn [markdown commands change].
  rewrite (replace_skip 1 v pre _ v_no_dollar pre_no_open).
  rewrite (replace_at_same 1 v post v_no_dollar).
  reflexivity.
Qed.

Lemma get_one (fuel : nat) :
  snd (get helpers sched (S (S fuel)) document) = Fulfilled (pre ++ v ++ post).
Proof.
  assert (Hout : Forall (fun c => c <> 60%N) (pre ++ v ++ post)).
  { apply Forall_app. split; [exact pre_no_lt|].
    apply Forall_app. split; [exact v_no_lt|exact post_plain]. }
  unfold get. cbn [play]. rewrite parse_one.
  pose proof (execute_one 0) as E.
  destruct (execute sched 0 _) as [evs r]. cbn [snd] in E. subst r.
  cbn [change negb andb markdown commands].
  rewrite (parse_no_match helpers _ _ _ (no_lt_no_match _ Hout)).
  rewrite execute_idle by reflexivity.
  reflexivity.
Qed.

End OneDirective.



(* ================================================================== *)
(** ** Further properties: every helper is invoked once *)
(* ================================================================== *)

(** The commands of a registry that are still to execute: those of the
    round and the others. *)
Lemma pending_split (w : option Z) (cmds : list Command) :
  Permutation (pending cmds)
    (map bindingIndex (filter (in_round w) cmds)
     ++ pending (map (fun c => if in_round w c then done_command c else c)
                  cmds)).
Proof.
  unfold pending, notExecutedCommands, in_round.
  induction cmds as [|c cmds IH]; [constructor|].
  cbn [filter map].
  destruct (executed c) eqn:Ec; cbn [negb andb].
  - rewrite Ec. cbn [negb]. exact IH.
  - destruct (has_weight w c) eqn:Ew.
    + cbn [executed done_command negb map app].
      now constructor.
    + rewrite Ec. cbn [negb map].
      apply Permutation_cons_app. exact IH.
Qed.

Lemma in_round_filter (w : option Z) (cmds : list Command) :
  filter (has_weight w) (notExecutedCommands cmds) = filter (in_round w) cmds.
Proof.
  unfold notExecutedCommands, in_round.
  induction cmds as [|c cmds IH]; [reflexivity|]. cbn [filter].
  destruct (executed c); cbn [negb andb filter]; [exact IH|].
  destruct (has_weight w c); now rewrite IH.
Qed.

(** The helpers a fulfilled round invokes are those of the commands it
    marks. *)
Lemma execute_invoked
  (sched : nat -> list (nat * Settled) -> list (nat * Settled))
  (pass : nat) (st st' : State) :
  (forall l, Permutation (sched pass l) l) ->
  NoDup (map bindingIndex (commands st)) ->
  snd (execute sched pass st) = Fulfilled st' ->
  Permutation (pending (commands st))
    (invoked (fst (execute sched pass st)) ++ pending (commands st')) /\
  map bindingIndex (commands st') = map bindingIndex (commands st).
Proof.
  intros Hs Hnd H.
  destruct (weights (notExecutedCommands (commands st))) as [ws|e] eqn:Ew.
  - destruct (execute_marks sched pass st st' ws Hs Hnd Ew H) as [Hc _].
    split; [|rewrite Hc; apply marked_bindings].
    rewrite Hc.
    assert (Hi : invoked (fst (execute sched pass st))
                 = map bindingIndex
                     (filter (in_round (lowestWeight ws)) (commands st))).
    { unfold execute in *.
      destruct (notExecutedCommands (commands st)) as [|c0 todo] eqn:En.
      - injection Ew as <-. rewrite <- in_round_filter, En. reflexivity.
      - rewrite Ew in *.
        destruct (invoke_all pass (markdown st)
                    (filter (has_weight (lowestWeight ws)) (c0 :: todo)))
          as [evs [promises|e]] eqn:Ei; [|discriminate].
        pose proof (settle_invoked pass (sched pass promises) st false) as Hz.
        destruct (settle pass (sched pass promises) st false) as [evs' r].
        cbn [fst] in *. rewrite invoked_app, Hz, app_nil_r.
        rewrite (invoke_all_invoked _ _ _ _ _ Ei).
        now rewrite <- En, in_round_filter. }
    rewrite Hi. apply pending_split.
  - exfalso. unfold execute in H.
    destruct (notExecutedCommands (commands st)); [discriminate|].
    rewrite Ew in H. discriminate.
Qed.

Lemma pending_app (a b : list Command) : pending (a ++ b) = pending a ++ pending b.
Proof.
  unfold pending, notExecutedCommands. now rewrite filter_app, map_app.
Qed.

Lemma pending_fresh (helpers : option json -> option Helper)
  (news : list Command) :
  Forall (fresh helpers) news -> pending news = map bindingIndex news.
Proof.
  unfold pending, notExecutedCommands.
  induction 1 as [|c news [Hc _] _ IH]; [reflexivity|].
  cbn [filter]. rewrite Hc. cbn [negb map]. now rewrite IH.
Qed.

Section OnceEach.

Variable helpers : option json -> option Helper.
Variable sched : nat -> list (nat * Settled) -> list (nat * Settled).
Hypothesis sched_permutes : forall pass l, Permutation (sched pass l) l.

Lemma play_invoked (fuel : nat) :
  forall pass md cmds index evs st,
    numbered cmds -> index = List.length cmds ->
    play helpers sched fuel pass md cmds index = (evs, Fulfilled st) ->
    index <= List.length (commands st) /\
    numbered (commands st) /\
    notExecutedCommands (commands st) = [] /\
    Permutation (invoked evs)
      (pending cmds ++ seq (S index) (List.length (commands st) - index)).
Proof.
  induction fuel as [|fuel IH]; intros pass md cmds index evs st Hn Hi H;
    [discriminate|].
  cbn [play] in H.
  destruct (parse helpers md cmds index) as [[st0 index']|e] eqn:Ep;
    [|discriminate].
  destruct (parse_commands helpers _ _ _ _ _ Ep) as (news & Hc & Hi' & Hb & Hf).
  assert (Hn0 : numbered (commands st0)).
  { rewrite Hc. apply numbered_app; [exact Hn|now rewrite <- Hi]. }
  assert (Hp0 : pending (commands st0)
                = pending cmds ++ seq (S index) (List.length news)).
  { now rewrite Hc, pending_app, (pending_fresh helpers news Hf), Hb. }
  assert (Hl0 : List.length (commands st0) = index').
  { rewrite Hc, length_app. lia. }
  destruct (execute sched pass st0) as [evs1 r] eqn:Ee.
  destruct r as [st1|e|e| |]; try (injection H as _ H; discriminate H).
  destruct (execute_invoked sched pass st0 st1 (sched_permutes pass)
              (numbered_NoDup _ Hn0)) as [Hperm Hbind].
  { now rewrite Ee. }
  rewrite Ee in Hperm. cbn [fst] in Hperm.
  assert (Hl1 : List.length (commands st1) = index').
  { rewrite <- Hl0, <- (length_map bindingIndex (commands st1)), Hbind.
    apply length_map. }
  assert (Hn1 : numbered (commands st1)).
  { unfold numbered in *. now rewrite Hbind, Hl1, <- Hl0. }
  destruct (negb (change st1) &&
            (List.length (notExecutedCommands (commands st1)) =? 0)) eqn:Estop.
  - injection H as <- <-.
    apply andb_true_iff in Estop as [_ Estop]. apply Nat.eqb_eq in Estop.
    assert (En : notExecutedCommands (commands st1) = []).
    { now destruct (notExecutedCommands (commands st1)). }
    repeat split; trivial; [lia|].
    change (invoked (Parsed pass st0 :: evs1)) with (invoked evs1).
    unfold pending in Hperm at 2. rewrite En, app_nil_r in Hperm.
    rewrite <- Hperm, Hp0.
    replace (List.length (commands st1) - index) with (List.length news)
      by lia.
    reflexivity.
  - destruct (play helpers sched fuel (S pass) (markdown st1) (commands st1)
                index') as [evs2 r2] eqn:E2.
    injection H as <- Hr.
    assert (r2 = Fulfilled st) as -> by (destruct r2; congruence).
    destruct (IH _ _ _ _ _ _ Hn1 (eq_sym Hl1) E2) as (Hle & Hns & Hdone & Hp2).
    repeat split; trivial; [lia|].
    change (invoked (Parsed pass st0 :: evs1 ++ evs2))
      with (invoked (evs1 ++ evs2)).
    rewrite invoked_app, Hp2, app_assoc, <- Hperm, Hp0, <- app_assoc.
    apply Permutation_app_head.
    replace (List.length (commands st) - index)
      with (List.length news + (List.length (commands st) - index')) by lia.
    rewrite seq_app.
    replace (S index + List.length news) with (S index') by lia.
    reflexivity.
Qed.

End OnceEach.

(** X11.  In a run that is fulfilled, the helper of every registered
    command has been invoked exactly once, and every command ends
    executed. *)
Theorem X11_every_helper_invoked_once
  (helpers : option json -> option Helper)
  (sched : nat -> list (nat * Settled) -> list (nat * Settled))
  (fuel : nat) (GFM : jsstring) (evs : list Event) (st : State) :
  (forall pass l, Permutation (sched pass l) l) ->
  play helpers sched fuel 0 GFM [] 0 = (evs, Fulfilled st) ->
  Permutation (invoked evs) (map bindingIndex (commands st)) /\
  NoDup (invoked evs) /\
  Forall (fun c => executed c = true) (commands st).
Proof.
  intros Hs H.
  destruct (play_invoked helpers sched Hs fuel 0 GFM [] 0 evs st
              eq_refl eq_refl H) as (_ & Hn & Hdone & Hp).
  simpl in Hp. rewrite Nat.sub_0_r in Hp. rewrite <- Hn in Hp.
  split; [exact Hp|]. split.
  - apply (Permutation_NoDup (Permutation_sym Hp)). now apply numbered_NoDup.
  - apply Forall_forall. intros c Hin.
    destruct (executed c) eqn:Ec; [reflexivity|].
    assert (Hc : In c (notExecutedCommands (commands st))).
    { apply filter_In. split; [exact Hin|now rewrite Ec]. }
    rewrite Hdone in Hc. contradiction.
Qed.

Lemma X11_every_helper_invoked_once_witness :
  exists evs st,
    play demo_helpers lifo 5 0
      (js "<<{'gitdown':'two'}>> <<{'gitdown':'ten'}>>") [] 0
    = (evs, Fulfilled st) /\
    invoked evs = [2; 1] /\
    Permutation [2; 1] (map bindingIndex (commands st)).
Proof.
  destruct (play demo_helpers lifo 5 0
              (js "<<{'gitdown':'two'}>> <<{'gitdown':'ten'}>>") [] 0)
    as [evs r] eqn:E.
  assert (Hi : invoked evs = [2; 1]).
  { replace evs with (fst (evs, r)) by reflexivity. rewrite <- E.
    vm_compute. reflexivity. }
  assert (Hr : exists st, r = Fulfilled st).
  { replace r with (snd (evs, r)) by reflexivity. rewrite <- E.
    eexists. vm_compute. reflexivity. }
  destruct Hr as [st ->].
  exists evs, st. split; [reflexivity|]. split; [exact Hi|].
  rewrite <- Hi.
  exact (proj1 (X11_every_helper_invoked_once demo_helpers lifo 5 _ evs st
                  lifo_permutation E)).
Defined.

(* ================================================================== *)
(** ** Further properties: locating the repository *)
(* ================================================================== *)

Section PathFacts.

Variable FsError : Type.
Variable existsSync : jsstring -> bool.
Variable realpathSync : jsstring -> FsError + jsstring.

Lemma walk_returns (fuel : nat) :
  forall d0 d p,
    Paths.walk FsError existsSync realpathSync fuel d0
    = (d, Paths.Returns p) ->
    Paths.climbs FsError existsSync realpathSync d0 d /\
    p = d ++ js "/.git" /\ existsSync p = true.
Proof.
  induction fuel as [|fuel IH]; intros d0 d p H; [discriminate|].
  cbn [Paths.walk] in H.
  destruct (existsSync (d0 ++ js "/.git")) eqn:Eg.
  - injection H as <- <-. repeat split; [constructor|exact Eg].
  - destruct (realpathSync (d0 ++ js "/..")) as [e|d'] eqn:Er; [discriminate|].
    destruct (existsSync d') eqn:Ee; [|discriminate].
    destruct (jsstring_eqb d' (js "/")) eqn:Eroot; [discriminate|].
    cbn [negb andb] in H.
    destruct (IH _ _ _ H) as (Hc & Hp & Hx).
    repeat split; trivial.
    apply (Paths.climbs_up _ _ _ d0 d' d); trivial.
    intros ->. now rewrite jsstring_eqb_refl in Eroot.
Qed.

Lemma climbs_length (d0 d : jsstring) :
  Paths.climbs FsError existsSync realpathSync d0 d ->
  existsSync (d ++ js "/.git") = true ->
  exists fuel,
    Paths.walk FsError existsSync realpathSync fuel d0
    = (d, Paths.Returns (d ++ js "/.git")).
Proof.
  induction 1 as [d|d d' d'' Hg Hr He Hroot _ IH]; intros Hx.
  - exists 1. cbn [Paths.walk]. now rewrite Hx.
  - destruct (IH Hx) as [fuel Hf]. exists (S fuel).
    cbn [Paths.walk]. rewrite Hg, Hr, He.
    destruct (jsstring_eqb d' (js "/")) eqn:E.
    + apply jsstring_eqb_eq in E. contradiction.
    + exact Hf.
Qed.

Lemma climbs_not_root (d0 d : jsstring) :
  Paths.climbs FsError existsSync realpathSync d0 d ->
  d0 <> js "/" -> d <> js "/".
Proof. induction 1; auto. Qed.

Lemma walk_fuel (fuel : nat) :
  (forall d d', realpathSync (d ++ js "/..") = inr d' ->
                existsSync d' = true -> d' <> js "/" ->
                List.length d' < List.length d) ->
  forall d0,
    List.length d0 < fuel ->
    snd (Paths.walk FsError existsSync realpathSync fuel d0)
    <> Paths.Looping.
Proof.
  intros Hshrink.
  induction fuel as [|fuel IH]; intros d0 Hlen; [lia|].
  cbn [Paths.walk].
  destruct (existsSync (d0 ++ js "/.git")); [discriminate|].
  destruct (realpathSync (d0 ++ js "/..")) as [e|d'] eqn:Er; [discriminate|].
  destruct (existsSync d') eqn:Ee; [|discriminate].
  destruct (jsstring_eqb d' (js "/")) eqn:Eroot; [discriminate|].
  cbn [negb andb]. apply IH.
  assert (d' <> js "/").
  { intros ->. now rewrite jsstring_eqb_refl in Eroot. }
  specialize (Hshrink d0 d' Er Ee H). lia.
Qed.

Lemma climbs_throws (d0 d : jsstring) :
  Paths.climbs FsError existsSync realpathSync d0 d ->
  existsSync (d ++ js "/.git") = false ->
  realpathSync (d ++ js "/..") = inr (js "/") ->
  exists fuel,
    Paths.walk FsError existsSync realpathSync fuel d0
    = (js "/", Paths.Throws Paths.GitPathNotLocated).
Proof.
  induction 1 as [d|d d' d'' Hg Hr He Hroot _ IH]; intros Hx Hp.
  - exists 1. cbn [Paths.walk]. rewrite Hx, Hp.
    change (jsstring_eqb (js "/") (js "/")) with true.
    cbn [negb]. now rewrite andb_false_r.
  - destruct (IH Hx Hp) as [fuel Hf]. exists (S fuel).
    cbn [Paths.walk]. rewrite Hg, Hr, He.
    destruct (jsstring_eqb d' (js "/")) eqn:E.
    + apply jsstring_eqb_eq in E. contradiction.
    + exact Hf.
Qed.

End PathFacts.

(** X12.  [_pathGit] returns a path exactly when the walk up from the
    directory of the module reaches a directory that holds [.git]: the
    path returned is that directory followed by [/.git], it exists, no
    directory passed on the way holds [.git], and the global [dirname] is
    left on that directory.  Conversely such a directory is found with
    enough fuel. *)
Theorem X12_pathGit_finds_nearest_git (FsError : Type)
  (existsSync : jsstring -> bool)
  (realpathSync : jsstring -> FsError + jsstring)
  (__dirname d : jsstring) :
  (exists fuel,
      Paths._pathGit FsError existsSync realpathSync fuel __dirname
      = (d, Paths.Returns (d ++ js "/.git")))
  <->
  (Paths.climbs FsError existsSync realpathSync __dirname d /\
   existsSync (d ++ js "/.git") = true).
Proof.
  unfold Paths._pathGit. split.
  - intros [fuel H].
    destruct (walk_returns _ _ _ fuel _ _ _ H) as (Hc & _ & Hx). now split.
  - intros [Hc Hx]. now apply climbs_length.
Qed.

Lemma X12_pathGit_finds_nearest_git_witness :
  exists fuel,
    Paths._pathGit (jsstring) (Paths.listed Paths.demo_paths)
      (Paths.resolved Paths.demo_table) fuel (js "/repo/src/dist")
    = (js "/repo", Paths.Returns (js "/repo/.git")).
Proof.
  apply (proj2 (X12_pathGit_finds_nearest_git jsstring
                  (Paths.listed Paths.demo_paths)
                  (Paths.resolved Paths.demo_table)
                  (js "/repo/src/dist") (js "/repo"))).
  split; [|reflexivity].
  apply (Paths.climbs_up _ _ _ _ (js "/repo/src"));
    [reflexivity|reflexivity|reflexivity|discriminate|].
  apply (Paths.climbs_up _ _ _ _ (js "/repo"));
    [reflexivity|reflexivity|reflexivity|discriminate|].
  apply Paths.climbs_here.
Defined.

(** X13.  Whatever [_pathGit] returns has the form [d ++ "/.git"] for a
    directory [d] it has visited, and unless the module itself lies in
    the root directory that [d] is never the root: a [.git] directly
    under [/] is not reported. *)
Theorem X13_pathGit_never_reports_root (FsError : Type)
  (existsSync : jsstring -> bool)
  (realpathSync : jsstring -> FsError + jsstring)
  (fuel : nat) (__dirname dirname gitpath : jsstring) :
  Paths._pathGit FsError existsSync realpathSync fuel __dirname
  = (dirname, Paths.Returns gitpath) ->
  __dirname <> js "/" ->
  gitpath = dirname ++ js "/.git" /\ dirname <> js "/" /\
  gitpath <> js "//.git".
Proof.
  unfold Paths._pathGit. intros H Hroot.
  destruct (walk_returns _ _ _ fuel _ _ _ H) as (Hc & -> & _).
  pose proof (climbs_not_root _ _ _ _ _ Hc Hroot) as Hd.
  repeat split; trivial.
  change (js "//.git") with (js "/" ++ js "/.git").
  intros E. apply app_inv_tail in E. contradiction.
Qed.

Lemma X13_pathGit_never_reports_root_witness :
  js "/repo/.git" = js "/repo" ++ js "/.git" /\ js "/repo" <> js "/" /\
  js "/repo/.git" <> js "//.git".
Proof.
  apply (X13_pathGit_never_reports_root jsstring
           (Paths.listed Paths.demo_paths) (Paths.resolved Paths.demo_table)
           4 (js "/repo/src/dist") (js "/repo") (js "/repo/.git"));
    [reflexivity|discriminate].
Defined.

(** X14.  When the walk up from the directory of the module comes to a
    directory without [.git] whose parent resolves to [/], [_pathGit]
    throws that the path cannot be located, whatever the root holds:
    the loop stops on reaching [/] before it looks for [/.git]. *)
Theorem X14_pathGit_stops_before_root (FsError : Type)
  (existsSync : jsstring -> bool)
  (realpathSync : jsstring -> FsError + jsstring)
  (__dirname d : jsstring) :
  Paths.climbs FsError existsSync realpathSync __dirname d ->
  existsSync (d ++ js "/.git") = false ->
  realpathSync (d ++ js "/..") = inr (js "/") ->
  exists fuel,
    Paths._pathGit FsError existsSync realpathSync fuel __dirname
    = (js "/", Paths.Throws Paths.GitPathNotLocated).
Proof. unfold Paths._pathGit. apply climbs_throws. Qed.

Lemma X14_pathGit_stops_before_root_witness :
  Paths.listed Paths.root_paths (js "//.git") = true /\
  exists fuel,
    Paths._pathGit jsstring (Paths.listed Paths.root_paths)
      (Paths.resolved Paths.root_table) fuel (js "/src/lib")
    = (js "/", Paths.Throws Paths.GitPathNotLocated).
Proof.
  split; [reflexivity|].
  apply (X14_pathGit_stops_before_root jsstring
           (Paths.listed Paths.root_paths) (Paths.resolved Paths.root_table)
           (js "/src/lib") (js "/src")); [|reflexivity|reflexivity].
  apply (Paths.climbs_up _ _ _ _ (js "/src"));
    [reflexivity|reflexivity|reflexivity|discriminate|].
  apply Paths.climbs_here.
Defined.

(** X15.  When resolving the parent of a directory gives a strictly
    shorter path, [_pathGit] ends: with more fuel than the length of the
    directory of the module it returns or throws. *)
Theorem X15_pathGit_terminates (FsError : Type)
  (existsSync : jsstring -> bool)
  (realpathSync : jsstring -> FsError + jsstring)
  (fuel : nat) (__dirname : jsstring) :
  (forall d d', realpathSync (d ++ js "/..") = inr d' ->
                existsSync d' = true -> d' <> js "/" ->
                List.length d' < List.length d) ->
  List.length __dirname < fuel ->
  (exists dirname gitpath,
      Paths._pathGit FsError existsSync realpathSync fuel __dirname
      = (dirname, Paths.Returns gitpath)) \/
  (exists dirname e,
      Paths._pathGit FsError existsSync realpathSync fuel __dirname
      = (dirname, Paths.Throws e)).
Proof.
  intros Hs Hlen.
  pose proof (walk_fuel _ _ _ fuel Hs __dirname Hlen) as H.
  unfold Paths._pathGit.
  destruct (Paths.walk FsError existsSync realpathSync fuel __dirname)
    as [dirname [p|e|]]; [left|right|]; eauto.
  now elim H.
Qed.

Lemma demo_table_shrinks (d d' : jsstring) :
  Paths.resolved Paths.demo_table (d ++ js "/..") = inr d' ->
  Paths.listed Paths.demo_paths d' = true -> d' <> js "/" ->
  List.length d' < List.length d.
Proof.
  intros H _ Hroot. unfold Paths.demo_table in H. cbn [Paths.resolved] in H.
  repeat match type of H with
  | context [jsstring_eqb (d ++ ?x) ?y] =>
      let E := fresh "E" in
      destruct (jsstring_eqb (d ++ x) y) eqn:E;
      [apply jsstring_eqb_eq in E; apply (f_equal (@List.length N)) in E;
       rewrite length_app in E; injection H as <-;
       try (simpl in *; lia); try (now elim Hroot)|]
  end.
  discriminate.
Qed.

Lemma X15_pathGit_terminates_witness :
  (exists dirname gitpath,
      Paths._pathGit jsstring (Paths.listed Paths.demo_paths)
        (Paths.resolved Paths.demo_table) 15 (js "/repo/src/dist")
      = (dirname, Paths.Returns gitpath)) \/
  (exists dirname e,
      Paths._pathGit jsstring (Paths.listed Paths.demo_paths)
        (Paths.resolved Paths.demo_table) 15 (js "/repo/src/dist")
      = (dirname, Paths.Throws e)).
Proof.
  apply (X15_pathGit_terminates jsstring (Paths.listed Paths.demo_paths)
           (Paths.resolved Paths.demo_table) 15 (js "/repo/src/dist")
           demo_table_shrinks).
  simpl. lia.
Defined.

(** X16.  What [_pathRepository] returns is the resolved parent of the
    [.git] path of the nearest directory, reached from the directory of
    the module, that holds [.git]; it never returns when [_pathGit]
    throws. *)
Theorem X16_pathRepository_resolves_git_parent (FsError : Type)
  (existsSync : jsstring -> bool)
  (realpathSync : jsstring -> FsError + jsstring)
  (fuel : nat) (__dirname dirname path : jsstring) :
  Paths._pathRepository FsError existsSync realpathSync fuel __dirname
  = (dirname, Paths.Returns path) ->
  Paths.climbs FsError existsSync realpathSync __dirname dirname /\
  existsSync (dirname ++ js "/.git") = true /\
  realpathSync (dirname ++ js "/.git" ++ js "/..") = inr path /\
  Paths._pathGit FsError existsSync realpathSync fuel __dirname
  = (dirname, Paths.Returns (dirname ++ js "/.git")).
Proof.
  unfold Paths._pathRepository, Paths._pathGit. intros H.
  destruct (Paths.walk FsError existsSync realpathSync fuel __dirname)
    as [d [p|e|]] eqn:Ew; try discriminate.
  destruct (walk_returns _ _ _ fuel _ _ _ Ew) as (Hc & -> & Hx).
  destruct (realpathSync ((d ++ js "/.git") ++ js "/..")) as [e|r] eqn:Er;
    [discriminate|].
  injection H as <- <-. rewrite <- app_assoc in Er. now repeat split.
Qed.

Lemma X16_pathRepository_resolves_git_parent_witness :
  Paths.climbs jsstring (Paths.listed Paths.demo_paths)
    (Paths.resolved Paths.demo_table) (js "/repo/src/dist") (js "/repo") /\
  Paths.resolved Paths.demo_table (js "/repo/.git/..") = inr (js "/repo").
Proof.
  destruct (X16_pathRepository_resolves_git_parent jsstring
              (Paths.listed Paths.demo_paths) (Paths.resolved Paths.demo_table)
              4 (js "/repo/src/dist") (js "/repo") (js "/repo") eq_refl)
    as (Hc & _ & Hr & _).
  split; [exact Hc|exact Hr].
Defined.

(* ================================================================== *)
(** ** Further properties: a directive holds one object *)
(* ================================================================== *)

Lemma objects_array (elems : list json) :
  objects (JArray elems) = objects_in elems.
Proof.
  reflexivity.
Qed.

Lemma objects_object (fields : list (jsstring * json)) :
  objects (JObject fields) = S (objects_of fields).
Proof.
  reflexivity.
Qed.

Lemma objects_in_app (a b : list json) :
  objects_in (a ++ b) = objects_in a + objects_in b.
Proof. induction a as [|x a IH]; simpl; [reflexivity|]. rewrite IH. lia. Qed.

Lemma obj_set_objects (k : jsstring) (v : json)
  (fields : list (jsstring * json)) :
  objects_of (obj_set k v fields) <= objects_of fields + objects v.
Proof.
  induction fields as [|[k' v'] r IH]; cbn [obj_set objects_of]; [lia|].
  destruct (jsstring_eqb k k'); cbn [objects_of]; lia.
Qed.

Lemma obj_get_objects (k : jsstring) (v : json)
  (fields : list (jsstring * json)) :
  obj_get k fields = Some v -> objects v <= objects_of fields.
Proof.
  induction fields as [|[k' v'] r IH]; cbn [obj_get objects_of];
    [discriminate|].
  destruct (jsstring_eqb k k').
  - intros [= ->]. lia.
  - intros H. specialize (IH H). lia.
Qed.

Lemma obj_delete_objects (k : jsstring) (fields : list (jsstring * json)) :
  objects_of (obj_delete k fields) <= objects_of fields.
Proof.
  induction fields as [|[k' v'] r IH]; cbn [obj_delete objects_of]; [lia|].
  destruct (jsstring_eqb k k'); cbn [objects_of]; lia.
Qed.

Lemma deliver_objects (v : json) (stk : list frame) :
  state_objects (deliver v stk) <= objects v + stack_objects stk.
Proof.
  destruct stk as [|[elems|fields k] stk];
    cbn [deliver state_objects stack_objects frame_objects]; [lia| |].
  - rewrite objects_in_app. simpl. lia.
  - pose proof (obj_set_objects k v fields). lia.
Qed.

Lemma value_token_objects (t : token) (stk : list frame) (st' : pstate) :
  value_token t stk = Some st' ->
  state_objects st' <= stack_objects stk.
Proof.
  destruct t; cbn [value_token]; intros [= <-]; try apply le_n;
    match goal with
    | |- context [deliver ?v stk] => exact (deliver_objects v stk)
    end.
Qed.

Lemma parse_step_objects (st st' : pstate) (t : token) :
  parse_step st t = Some st' ->
  state_objects st' <= state_objects st + closings [t].
Proof.
  destruct st as [stk|stk|stk|fields stk|fields k stk|elems stk|fields stk|v];
    cbn [parse_step].
  - intros H. apply value_token_objects in H. cbn [state_objects]. lia.
  - destruct t; intros H;
      try (apply value_token_objects in H;
           cbn [stack_objects frame_objects objects_in state_objects] in *;
           lia).
    injection H as <-. pose proof (deliver_objects (JArray []) stk).
    simpl in *. lia.
  - destruct t; try discriminate; intros [= <-].
    + pose proof (deliver_objects (JObject []) stk). simpl in *. lia.
    + simpl. lia.
  - destruct t; try discriminate; intros [= <-]. simpl. lia.
  - destruct t; try discriminate; intros [= <-]. simpl. lia.
  - destruct t; try discriminate; intros [= <-].
    + pose proof (deliver_objects (JArray elems) stk).
      rewrite objects_array in *. cbn [state_objects closings]. lia.
    + simpl. lia.
  - destruct t; try discriminate; intros [= <-].
    + pose proof (deliver_objects (JObject fields) stk).
      rewrite objects_object in *. cbn [state_objects closings]. lia.
    + simpl. lia.
  - discriminate.
Qed.

Lemma closings_app (a b : list token) :
  closings (a ++ b) = closings a + closings b.
Proof.
  induction a as [|t a IH]; [reflexivity|].
  destruct t; cbn [app closings]; rewrite IH; reflexivity.
Qed.

Lemma parse_from_objects (ts : list token) :
  forall st v,
    parse_from st ts = Some v ->
    objects v <= state_objects st + closings ts.
Proof.
  induction ts as [|t ts IH]; intros st v H; cbn [parse_from] in H.
  - destruct st; try discriminate. injection H as ->. simpl. lia.
  - destruct (parse_step st t) as [st'|] eqn:E; [|discriminate].
    apply parse_step_objects in E. apply IH in H.
    change (t :: ts) with ([t] ++ ts). rewrite closings_app. lia.
Qed.

Lemma start_unit_closings (c : N) (st' : lstate) (ts : list token) :
  start_unit c = Some (st', ts) ->
  word_state st' /\ closings ts = if N.eqb c 125 then 1 else 0.
Proof.
  unfold start_unit.
  destruct (N.eqb_spec c 125) as [->|Hc].
  - simpl. intros [= <- <-]. now split.
  - repeat match goal with
    | |- context [if ?b then _ else _] => destruct b
    end; intros [= <- <-]; now split.
Qed.

Lemma end_number_closings (acc : jsstring) (c : N) (st' : lstate)
  (ts : list token) :
  end_number acc c = Some (st', ts) ->
  word_state st' /\ closings ts = if N.eqb c 125 then 1 else 0.
Proof.
  unfold end_number.
  destruct (start_unit c) as [[st0 ts0]|] eqn:E; [|discriminate].
  intros [= <- <-]. cbn [closings]. exact (start_unit_closings _ _ _ E).
Qed.

Lemma lex_step_closings (st st' : lstate) (c : N) (ts : list token) :
  word_state st ->
  lex_step st c = Some (st', ts) ->
  word_state st' /\ closings ts <= if N.eqb c 125 then 1 else 0.
Proof.
  intros Hw.
  set (bound := if N.eqb c 125 then 1 else 0).
  assert (Hz : 0 <= bound) by apply Nat.le_0_l.
  destruct st as [|acc|acc|acc todo v|ns acc|rest t]; cbn [lex_step].
  - intros H. destruct (start_unit_closings _ _ _ H) as [H1 H2].
    split; [exact H1|rewrite H2; apply le_n].
  - repeat match goal with
    | |- context [if ?b then _ else _] => destruct b eqn:?
    end; intros H; try discriminate H; injection H as <- <-;
      (split; [exact I|exact Hz]).
  - destruct (N.eqb c 117); [intros [= <- <-]; split; [exact I|exact Hz]|].
    destruct (escape_unit c); intros [= <- <-]. split; [exact I|exact Hz].
  - destruct (hex_value c); [|discriminate].
    destruct todo as [|[|todo]]; intros H; try discriminate H;
      injection H as <- <-; (split; [exact I|exact Hz]).
  - destruct ns; cbn [num_step];
      repeat match goal with
      | |- context [if ?b then _ else _] => destruct b eqn:?
      end;
      intros H; try discriminate H;
      try (destruct (end_number_closings _ _ _ _ H) as [H1 H2];
           split; [exact H1|rewrite H2; apply le_n]);
      injection H as <- <-; (split; [exact I|exact Hz]).
  - destruct rest as [|r rest]; [discriminate|].
    destruct (N.eqb c r) eqn:Er; [|discriminate].
    destruct rest; intros [= <- <-].
    + split; [exact I|]. cbn [word_state] in Hw. rewrite Hw. exact Hz.
    + split; [exact Hw|exact Hz].
Qed.

Lemma lex_from_closings (s : jsstring) :
  forall st ts,
    word_state st -> lex_from st s = Some ts -> closings ts <= braces s.
Proof.
  induction s as [|c s IH]; intros st ts Hw H; cbn [lex_from] in H.
  - destruct st as [| | | |[] acc|]; try discriminate;
      injection H as <-; simpl; lia.
  - destruct (lex_step st c) as [[st' ts0]|] eqn:E; [|discriminate].
    destruct (lex_from st' s) as [more|] eqn:E'; [|discriminate].
    injection H as <-.
    destruct (lex_step_closings _ _ _ _ Hw E) as [Hw' Hc].
    specialize (IH _ _ Hw' E').
    rewrite closings_app. cbn [braces]. lia.
Qed.

(** A text parses to a value with no more objects than it has closing
    braces. *)
Lemma JSON_parse_objects (text : jsstring) (v : json) :
  JSON.parse text = Some v -> objects v <= braces text.
Proof.
  unfold JSON.parse.
  destruct (lex_from LStart text) as [ts|] eqn:E; [|discriminate].
  intros H. apply parse_from_objects in H.
  pose proof (lex_from_closings text LStart ts I E). simpl in H. lia.
Qed.

Lemma braces_app (a b : jsstring) : braces (a ++ b) = braces a + braces b.
Proof. induction a as [|c a IH]; simpl; [reflexivity|]. rewrite IH. lia. Qed.

Lemma braces_none (run : jsstring) :
  Forall (fun c => c <> 125%N) run -> braces run = 0.
Proof.
  induction 1 as [|c run Hc _ IH]; [reflexivity|]. cbn [braces].
  destruct (N.eqb_spec c 125); [contradiction|exact IH].
Qed.

Section FlatFacts.

Variable helpers : option json -> option Helper.

Lemma on_match_flat (m : jsstring) (index : nat) (cmds cmds1 : list Command)
  (ph : jsstring) (index1 : nat) :
  genuine (Hit m) ->
  on_match helpers m index cmds = Normal (ph, index1, cmds1) ->
  exists c, cmds1 = cmds ++ [c] /\ flat_command c.
Proof.
  intros [s Hm]. unfold on_match.
  destruct (JSON.parse (slice_2_m2 m)) as [command|] eqn:E; [|discriminate].
  destruct (match_parses_to_directive _ _ _ Hm E) as (fields & nm & -> & Hk).
  destruct (match_at_shape _ _ Hm) as (run & rest & -> & _ & _ & Hrun).
  rewrite slice_of_match in E. apply JSON_parse_objects in E.
  rewrite !braces_app, (braces_none _ Hrun), objects_object in E.
  simpl in E.
  cbn [get_gitdown]. fold gitdown_key. rewrite Hk.
  intros H. injection H as _ _ <-.
  eexists. split; [reflexivity|].
  unfold flat_command. cbn [name parameters delete_gitdown]. split.
  - rewrite objects_object.
    pose proof (obj_delete_objects (js "gitdown") fields). lia.
  - intros nm' [= <-]. apply obj_get_objects in Hk. lia.
Qed.

Lemma replace_hits_flat (chunks : list chunk) :
  Forall genuine chunks ->
  forall index cmds out index' cmds',
    replace_hits helpers chunks index cmds = Normal (out, index', cmds') ->
    exists news, cmds' = cmds ++ news /\ Forall flat_command news.
Proof.
  induction 1 as [|ch chunks Hg _ IH]; intros index cmds out index' cmds' H.
  - injection H as _ _ <-. exists []. rewrite app_nil_r. split; constructor.
  - destruct ch as [c|m]; cbn [replace_hits] in H.
    + destruct (replace_hits helpers chunks index cmds)
        as [[[out0 i0] c0]|] eqn:E; [|discriminate].
      injection H as _ _ <-. exact (IH _ _ _ _ _ E).
    + destruct (on_match helpers m index cmds) as [[[ph i1] c1]|] eqn:Eo;
        [|discriminate].
      destruct (on_match_flat _ _ _ _ _ _ Hg Eo) as (c & -> & Hc).
      destruct (replace_hits helpers chunks i1 (cmds ++ [c]))
        as [[[out0 i0] c0]|] eqn:E; [|discriminate].
      injection H as _ _ <-.
      destruct (IH _ _ _ _ _ E) as (news & -> & HF).
      exists (c :: news). rewrite <- app_assoc. split; [reflexivity|].
      now constructor.
Qed.

End FlatFacts.

(** X17.  The pattern of a directive stops at the first closing brace,
    so the JSON of a directive holds a single object: in every command a
    scan registers, the parameters hold no nested object at any depth,
    and the name is not an object nor an array that holds one. *)
Theorem X17_parameters_hold_no_nested_object
  (helpers : option json -> option Helper)
  (md : jsstring) (cmds : list Command) (index index' : nat) (st : State) :
  parse helpers md cmds index = Normal (st, index') ->
  exists news, commands st = cmds ++ news /\ Forall flat_command news.
Proof.
  unfold parse. intros H.
  destruct (replace_hits helpers (scan 0 md) index cmds)
    as [[[out i] c0]|] eqn:E; [|discriminate].
  injection H as <- _. cbn [commands].
  exact (replace_hits_flat helpers _ (scan_genuine md 0) _ _ _ _ _ E).
Qed.

Lemma X17_parameters_hold_no_nested_object_witness :
  exists news,
    [{| bindingIndex := 1;
        name := Some (JString (js "two"));
        parameters := JObject [(js "list", JArray [JNumber (js "1")])];
        helper := demo_helpers (Some (JString (js "two")));
        executed := false |}]
    = [] ++ news /\
    Forall flat_command news.
Proof.
  apply (X17_parameters_hold_no_nested_object demo_helpers
           (js "a <<{'gitdown':'two','list':[1]}>> b") [] 0 1
           {| markdown := js "a " ++ placeholder 1 ++ js " b";
              commands := [{| bindingIndex := 1;
                              name := Some (JString (js "two"));
                              parameters :=
                                JObject [(js "list", JArray [JNumber (js "1")])];
                              helper := demo_helpers (Some (JString (js "two")));
                              executed := false |}];
              change := true |}).
  vm_compute. reflexivity.
Defined.

(* ================================================================== *)
(** ** Further properties: the expansion of a document *)
(* ================================================================== *)

Lemma rewritten_flat (chunks : list chunk) :
  forall index, rewritten chunks index = flat (toks_of chunks index).
Proof.
  induction chunks as [|[c|m] chunks IH]; intros index;
    cbn [rewritten toks_of]; [reflexivity| |].
  - change (flat (Chr c :: toks_of chunks index))
      with (c :: flat (toks_of chunks index)).
    now rewrite IH.
  - change (flat (Ph (S index) :: toks_of chunks (S index)))
      with (placeholder (S index) ++ flat (toks_of chunks (S index))).
    now rewrite IH.
Qed.

Lemma scan_units (s : jsstring) :
  forall k c, In (Lit c) (scan k s) -> In c s.
Proof.
  induction s as [|d s IH]; intros k c H; [contradiction|].
  cbn [scan] in H. destruct k as [|k].
  - destruct (match_at (d :: s)).
    + destruct H as [H|H]; [discriminate|]. right. exact (IH _ _ H).
    + destruct H as [H|H]; [injection H as ->; now left|].
      right. exact (IH _ _ H).
  - right. exact (IH _ _ H).
Qed.

Lemma toks_of_ok (chunks : list chunk) :
  (forall c, In (Lit c) chunks -> c <> 8834%N) ->
  forall index, Forall chr_ok (toks_of chunks index).
Proof.
  induction chunks as [|[c|m] chunks IH]; intros H index; cbn [toks_of];
    constructor; try (apply IH; intros d Hd; apply H; now right).
  - apply H. now left.
  - exact I.
Qed.

Lemma parse_change_pending (helpers : option json -> option Helper)
  (md : jsstring) (cmds : list Command) (index index' : nat) (st : State) :
  parse helpers md cmds index = Normal (st, index') ->
  notExecutedCommands (commands st) = [] -> change st = false.
Proof.
  intros H En.
  rewrite (parse_change helpers _ _ _ _ _ H).
  destruct (parse_commands helpers _ _ _ _ _ H) as (news & Hc & Hi & _ & Hf).
  destruct news as [|c news].
  - rewrite Hi. simpl. now rewrite Nat.add_0_r, Nat.eqb_refl.
  - exfalso. rewrite Hc in En. unfold notExecutedCommands in En.
    rewrite filter_app in En. apply app_eq_nil in En as [_ En].
    cbn [filter] in En. inversion Hf as [|? ? [Hx _] _]; subst.
    rewrite Hx in En. discriminate.
Qed.

Section Expansion.

Variable helpers : option json -> option Helper.
Variable sched : nat -> list (nat * Settled) -> list (nat * Settled).
Hypothesis sched_permutes : forall pass l, Permutation (sched pass l) l.

Variable val : nat -> jsstring.
Hypothesis val_text : forall i, text_value (val i).

Lemma fill_app (o1 o2 : list nat) (md : jsstring) :
  fill val (o1 ++ o2) md = fill val o2 (fill val o1 md).
Proof. apply fold_left_app. Qed.

Lemma fill_no_lt (order : list nat) :
  forall md,
    Forall (fun c => c <> 60%N) md ->
    Forall (fun c => c <> 60%N) (fill val order md).
Proof.
  induction order as [|i order IH]; intros md H; [exact H|].
  cbn [fill fold_left]. apply IH. apply replace_Forall; [exact H|].
  apply Forall_forall. intros c Hc ->. now apply (val_text i).
Qed.

Lemma resolve_all_fill (order : list nat) :
  forall st,
    markdown (resolve_all (map (promise_of val) order) st)
    = fill val order (markdown st).
Proof.
  induction order as [|i order IH]; intros st; [reflexivity|].
  unfold resolve_all, fill in *. cbn [map fold_left promise_of snd fst].
  now rewrite IH.
Qed.

Lemma promises_plain (order : list nat) :
  Forall plain_promise (map (promise_of val) order).
Proof.
  apply Forall_forall. intros p Hp. apply in_map_iff in Hp as (i & <- & _).
  exists (val i). split; [reflexivity|].
  destruct (val_text i) as (H1 & H2 & _). now split.
Qed.

Lemma fill_perm (b : nat) (o1 o2 : list nat) (md : jsstring) :
  Permutation o1 o2 -> NoDup o1 -> tokenised b md ->
  fill val o1 md = fill val o2 md.
Proof.
  intros Hp Hnd Ht.
  pose (st := {| markdown := md; commands := []; change := false |}).
  change md with (markdown st).
  rewrite <- !resolve_all_fill. f_equal.
  apply (resolve_all_perm _ _ (Permutation_map (promise_of val) Hp)) with b.
  - rewrite map_map. cbn [promise_of fst]. now rewrite map_id.
  - apply promises_plain.
  - exact Ht.
Qed.

Lemma fill_flat (order : list nat) :
  forall toks,
    Forall chr_ok toks ->
    fill val order (flat toks) = flat (fill_toks val order toks).
Proof.
  induction order as [|i order IH]; intros toks H; [reflexivity|].
  cbn [fill fill_toks fold_left].
  destruct (val_text i) as (H1 & H2 & _).
  rewrite (replace_flat i (val i) toks H H1).
  apply IH. now apply subst_tok_ok.
Qed.

Lemma fill_toks_chrs (order : list nat) (w : jsstring) :
  forall toks,
    fill_toks val order (map Chr w ++ toks)
    = map Chr w ++ fill_toks val order toks.
Proof.
  induction order as [|i order IH]; intros toks; [reflexivity|].
  cbn [fill_toks fold_left]. rewrite subst_tok_chrs. apply IH.
Qed.

Lemma fill_toks_seq (chunks : list chunk) :
  forall index,
    fill_toks val (seq (S index) (List.length (filter is_hit chunks)))
      (toks_of chunks index)
    = map Chr (expanded val chunks index).
Proof.
  induction chunks as [|[c|m] chunks IH]; intros index;
    cbn [filter is_hit toks_of expanded]; [reflexivity| |].
  - rewrite (fill_toks_chrs _ [c] (toks_of chunks index)).
    cbn [map app]. now rewrite IH.
  - cbn [List.length seq fill_toks fold_left subst_tok].
    rewrite Nat.eqb_refl.
    change (fold_left (fun t i => subst_tok i (val i) t)
              (seq (S (S index)) (List.length (filter is_hit chunks)))
              (map Chr (val (S index)) ++ toks_of chunks (S index)))
      with (fill_toks val
              (seq (S (S index)) (List.length (filter is_hit chunks)))
              (map Chr (val (S index)) ++ toks_of chunks (S index))).
    now rewrite fill_toks_chrs, IH, map_app.
Qed.

Lemma invoke_all_answers (pass : nat) (md : jsstring) (cs : list Command) :
  Forall (answers_with val) cs ->
  exists evs,
    invoke_all pass md cs
    = (evs, Normal (map (fun c => promise_of val (bindingIndex c)) cs)).
Proof.
  induction 1 as [|c cs (h & Hh & Hc) _ [evs IH]]; [now exists []|].
  cbn [invoke_all]. rewrite Hh, Hc, IH. eexists. reflexivity.
Qed.

Lemma answers_filter (f : Command -> bool) (cmds : list Command) :
  Forall (answers_with val) cmds -> Forall (answers_with val) (filter f cmds).
Proof.
  intros H. apply Forall_forall. intros c Hc. apply filter_In in Hc as [Hc _].
  revert c Hc. now apply Forall_forall.
Qed.

Lemma answers_marked (w : option Z) (cmds : list Command) :
  Forall (answers_with val) cmds ->
  Forall (answers_with val)
    (map (fun c => if in_round w c then done_command c else c) cmds).
Proof.
  intros H. apply Forall_map. revert H. apply Forall_impl.
  intros c Hc. now destruct (in_round w c).
Qed.

Lemma promises_shape (l : list (nat * Settled)) :
  Forall (fun p => p = promise_of val (fst p)) l ->
  l = map (promise_of val) (map fst l).
Proof.
  induction 1 as [|p l Hp _ IH]; [reflexivity|].
  cbn [map]. now rewrite <- Hp, <- IH.
Qed.

Lemma execute_unfolded (pass : nat) (st : State) (ws : list Z)
  (evs : list Event) (promises : list (nat * Settled)) :
  weights (notExecutedCommands (commands st)) = Normal ws ->
  invoke_all pass (markdown st)
    (filter (has_weight (lowestWeight ws))
       (notExecutedCommands (commands st)))
  = (evs, Normal promises) ->
  (forall l, Permutation (sched pass l) l) ->
  Forall plain_promise promises ->
  snd (execute sched pass st)
  = Fulfilled (resolve_all (sched pass promises) st).
Proof.
  intros Ew Ei Hs Hp.
  assert (Hd : Forall plain_promise (sched pass promises))
    by exact (Permutation_Forall (Permutation_sym (Hs promises)) Hp).
  pose proof (settle_resolve_all pass _ Hd st) as E.
  unfold execute.
  destruct (notExecutedCommands (commands st)) as [|c0 todo].
  - cbn [filter invoke_all] in Ei. injection Ei as _ <-.
    pose proof (Permutation_nil (Permutation_sym (Hs []))) as ->.
    reflexivity.
  - rewrite Ew, Ei.
    destruct (settle pass (sched pass promises) st false). exact E.
Qed.

(** A round in which every helper answers with its value. *)
Lemma execute_answers (pass : nat) (st : State) :
  NoDup (map bindingIndex (commands st)) ->
  Forall (answers_with val) (commands st) ->
  exists order st',
    snd (execute sched pass st) = Fulfilled st' /\
    markdown st' = fill val order (markdown st) /\
    Permutation (pending (commands st)) (order ++ pending (commands st')) /\
    map bindingIndex (commands st') = map bindingIndex (commands st) /\
    Forall (answers_with val) (commands st') /\
    change st' = change st.
Proof.
  intros Hnd Ha.
  destruct (weights_defined (notExecutedCommands (commands st))) as [ws Ew].
  { apply Forall_forall. intros c Hc. apply filter_In in Hc as [Hc _].
    destruct (proj1 (Forall_forall _ _) Ha c Hc) as (h & -> & _).
    discriminate. }
  set (sel := filter (has_weight (lowestWeight ws))
                (notExecutedCommands (commands st))).
  destruct (invoke_all_answers pass (markdown st) sel) as [evs Ei].
  { unfold sel, notExecutedCommands. now do 2 apply answers_filter. }
  set (promises := map (fun c => promise_of val (bindingIndex c)) sel) in *.
  assert (Hshape : Forall (fun p => p = promise_of val (fst p))
                     (sched pass promises)).
  { apply (Permutation_Forall (Permutation_sym (sched_permutes pass _))).
    apply Forall_forall. intros p Hp.
    apply in_map_iff in Hp as (c & <- & _). reflexivity. }
  assert (Hplain : Forall plain_promise promises).
  { unfold promises. rewrite <- (map_map bindingIndex (promise_of val)).
    apply promises_plain. }
  pose proof (execute_unfolded pass st ws evs promises Ew Ei
                (sched_permutes pass) Hplain) as E.
  destruct (execute_marks sched pass st _ ws (sched_permutes pass) Hnd Ew E)
    as [Hc Hg].
  exists (map fst (sched pass promises)), (resolve_all (sched pass promises) st).
  split; [exact E|]. split.
  { rewrite (promises_shape _ Hshape) at 1. apply resolve_all_fill. }
  split.
  { rewrite Hc.
    rewrite (Permutation_map fst (sched_permutes pass promises)).
    unfold promises. rewrite map_map. cbn [promise_of fst].
    unfold sel. rewrite in_round_filter. apply pending_split. }
  split; [rewrite Hc; apply marked_bindings|].
  split; [rewrite Hc; now apply answers_marked|exact Hg].
Qed.

Lemma play_expands (k : nat) :
  forall fuel pass md cmds index st0 index',
    parse helpers md cmds index = Normal (st0, index') ->
    Forall (fun c => c <> 60%N) (markdown st0) ->
    NoDup (map bindingIndex (commands st0)) ->
    Forall (answers_with val) (commands st0) ->
    List.length (notExecutedCommands (commands st0)) <= k -> k < fuel ->
    exists order st,
      snd (play helpers sched fuel pass md cmds index) = Fulfilled st /\
      Permutation order (pending (commands st0)) /\
      markdown st = fill val order (markdown st0).
Proof.
  induction k as [|k IH];
    intros fuel pass md cmds index st0 index' Hp Hmd Hnd Ha Hk Hf;
    (destruct fuel as [|fuel]; [lia|]); cbn [play]; rewrite Hp;
    destruct (execute_answers pass st0 Hnd Ha)
      as (order & st1 & E & Hm1 & Hperm & Hb & Ha1 & Hch);
    pose proof (execute_progress sched pass st0 st1 (sched_permutes pass)
                  Hnd) as Hprog;
    specialize (fun H => Hprog H E);
    destruct (execute sched pass st0) as [evs r]; cbn [snd] in E; subst r;
    (destruct (negb (change st1) &&
               (List.length (notExecutedCommands (commands st1)) =? 0))
       eqn:Estop;
     [ exists order, st1; split; [reflexivity|]; split; [|exact Hm1];
       apply andb_true_iff in Estop as [_ Estop];
       apply Nat.eqb_eq in Estop;
       unfold pending in Hperm at 2;
       destruct (notExecutedCommands (commands st1)); [|discriminate];
       rewrite app_nil_r in Hperm; now symmetry
     | assert (Hne : notExecutedCommands (commands st0) <> [])
         by (intros En;
             pose proof (parse_change_pending helpers _ _ _ _ _ Hp En) as Hc0;
             unfold pending in Hperm; rewrite En in Hperm;
             apply Permutation_nil in Hperm;
             apply app_eq_nil in Hperm as [_ Hperm];
             apply map_eq_nil in Hperm;
             rewrite Hch, Hc0, Hperm in Estop; discriminate);
       specialize (Hprog Hne) ]).
  - lia.
  - assert (Hmd1 : Forall (fun c => c <> 60%N) (markdown st1))
      by (rewrite Hm1; now apply fill_no_lt).
    destruct (IH fuel (S pass) (markdown st1) (commands st1) index'
                {| markdown := markdown st1; commands := commands st1;
                   change := false |} index')
      as (order2 & st2 & E2 & Hperm2 & Hm2); cbn [markdown commands]; trivial.
    + apply parse_no_match. now apply no_lt_no_match.
    + now rewrite Hb.
    + lia.
    + lia.
    + exists (order ++ order2), st2.
      destruct (play helpers sched fuel (S pass) (markdown st1) (commands st1)
                  index') as [evs2 r2].
      cbn [snd] in *. subst r2. split; [reflexivity|]. split.
      * rewrite Hperm. now apply Permutation_app_head.
      * now rewrite fill_app, <- Hm1.
Qed.

End Expansion.


Lemma upper_then_low_text (i : nat) : text_value (upper_then_low i).
Proof.
  unfold upper_then_low, text_value.
  destruct (Nat.eqb i 1); simpl; intuition discriminate.
Qed.


(* ================================================================== *)
(** ** Further properties: a helper that rejects *)
(* ================================================================== *)

Lemma invoke_all_promises (pass : nat) (md : jsstring) (cs : list Command) :
  Forall (fun c => exists p, promises_with md c p) cs ->
  exists evs promises,
    invoke_all pass md cs = (evs, Normal promises) /\
    Forall2 (fun c pr => promises_with md c (snd pr)) cs promises.
Proof.
  induction 1 as [|c cs (p & h & Hh & Hc) _ (evs & ps & IH & HF)].
  - exists [], []. split; [reflexivity|constructor].
  - cbn [invoke_all]. rewrite Hh, Hc, IH. eexists _, _.
    split; [reflexivity|]. constructor; [|exact HF]. now exists h.
Qed.

Lemma round_promise_of (md : jsstring) (cs : list Command)
  (promises : list (nat * Settled)) (c : Command) :
  Forall2 (fun c pr => promises_with md c (snd pr)) cs promises ->
  In c cs ->
  exists pr, In pr promises /\ promises_with md c (snd pr).
Proof.
  induction 1 as [|c0 pr0 cs promises H0 _ IH]; intros Hin; [contradiction|].
  destruct Hin as [->|Hin].
  - exists pr0. split; [now left|exact H0].
  - destruct (IH Hin) as (pr & Hpr & H). exists pr. split; [now right|exact H].
Qed.

Lemma round_command_of (md : jsstring) (cs : list Command)
  (promises : list (nat * Settled)) (pr : nat * Settled) :
  Forall2 (fun c pr => promises_with md c (snd pr)) cs promises ->
  In pr promises ->
  exists c, In c cs /\ promises_with md c (snd pr).
Proof.
  induction 1 as [|c0 pr0 cs promises H0 _ IH]; intros Hin; [contradiction|].
  destruct Hin as [->|Hin].
  - exists c0. split; [now left|exact H0].
  - destruct (IH Hin) as (c & Hc & H). exists c. split; [now right|exact H].
Qed.

Lemma settle_rejects (pass : nat) (done : list (nat * Settled)) :
  Exists (fun pr => exists r, snd pr = Rejects r) done ->
  forall st hung,
    exists b r,
      In (b, Rejects r) done /\
      snd (settle pass done st hung) = Rejected (HelperError r).
Proof.
  induction done as [|[i p] done IH]; intros H st hung;
    [inversion H|].
  destruct p as [v|r|]; cbn [settle].
  - assert (H' : Exists (fun pr => exists r, snd pr = Rejects r) done).
    { inversion H as [? ? [r Hr]|]; [discriminate Hr|assumption]. }
    destruct (IH H' (substitute i v st) hung) as (b & r & Hin & E).
    exists b, r. split; [now right|].
    now destruct (settle pass done (substitute i v st) hung).
  - exists i, r. split; [now left|reflexivity].
  - assert (H' : Exists (fun pr => exists r, snd pr = Rejects r) done).
    { inversion H as [? ? [r Hr]|]; [discriminate Hr|assumption]. }
    destruct (IH H' st true) as (b & r & Hin & E).
    exists b, r. split; [now right|exact E].
Qed.

(** X19.  When the weights of the helpers are safe integers, the helpers
    of the first round all return a promise and the promise of one of
    them rejects, the run is rejected with the reason of a helper of that
    round whose promise rejects, whatever the order in which the promises
    settle and whether or not other promises of the round never settle;
    no text is returned. *)
Theorem X19_rejected_promise_rejects_run
  (helpers : option json -> option Helper)
  (sched : nat -> list (nat * Settled) -> list (nat * Settled))
  (fuel : nat) (GFM : jsstring) (st0 : State) (n : nat) (ws : list Z) :
  (forall pass l, Permutation (sched pass l) l) ->
  parse helpers GFM [] 0 = Normal (st0, n) ->
  weights (notExecutedCommands (commands st0)) = Normal ws ->
  Forall safe_integer ws ->
  Forall (fun c => exists p, promises_with (markdown st0) c p)
    (filter (in_round (lowestWeight ws)) (commands st0)) ->
  Exists (fun c => exists r, promises_with (markdown st0) c (Rejects r))
    (filter (in_round (lowestWeight ws)) (commands st0)) ->
  0 < fuel ->
  exists c r,
    In c (filter (in_round (lowestWeight ws)) (commands st0)) /\
    promises_with (markdown st0) c (Rejects r) /\
    snd (get helpers sched fuel GFM) = Rejected (HelperError r).
Proof.
  intros Hs Hp Ew _ Hall Hex Hf.
  rewrite <- in_round_filter in *.
  destruct (invoke_all_promises 0 (markdown st0) _ Hall)
    as (evs & promises & Ei & HF).
  assert (Hrej : Exists (fun pr => exists r, snd pr = Rejects r)
                   (sched 0 promises)).
  { apply Exists_exists in Hex as (c & Hc & r & Hr).
    destruct (round_promise_of _ _ _ _ HF Hc) as (pr & Hpr & h & Hh & Hcall).
    destruct Hr as (h' & Hh' & Hcall').
    rewrite Hh in Hh'. injection Hh' as <-.
    rewrite Hcall in Hcall'. injection Hcall' as Hs'.
    apply Exists_exists. exists pr. split; [|now exists r].
    exact (Permutation_in _ (Permutation_sym (Hs 0 promises)) Hpr). }
  destruct (settle_rejects 0 _ Hrej st0 false) as (b & r & Hin & E).
  apply (Permutation_in _ (Hs 0 promises)) in Hin.
  destruct (round_command_of _ _ _ _ HF Hin) as (c & Hc & Hcr).
  exists c, r. split; [exact Hc|]. split; [exact Hcr|].
  destruct fuel as [|fuel]; [lia|].
  unfold get. cbn [play]. rewrite Hp. unfold execute.
  destruct (notExecutedCommands (commands st0)) as [|c0 todo].
  { destruct Hc. }
  rewrite Ew, Ei.
  destruct (settle 0 (sched 0 promises) st0 false) as [evs' r'].
  cbn [snd] in E. subst r'. reflexivity.
Qed.

Lemma X19_rejected_promise_rejects_run_witness :
  exists c r,
    In c (filter (in_round (Some 0%Z))
            [{| bindingIndex := 1;
                name := Some (JString (js "upper"));
                parameters := JObject [];
                helper := rejecting_helpers (Some (JString (js "upper")));
                executed := false |};
             {| bindingIndex := 2;
                name := Some (JString (js "fail"));
                parameters := JObject [];
                helper := rejecting_helpers (Some (JString (js "fail")));
                executed := false |}]) /\
    promises_with (placeholder 1 ++ placeholder 2) c (Rejects r) /\
    snd (get rejecting_helpers lifo 3
           (js "<<{'gitdown':'upper'}>><<{'gitdown':'fail'}>>"))
    = Rejected (HelperError r).
Proof.
  refine (X19_rejected_promise_rejects_run rejecting_helpers lifo 3
            (js "<<{'gitdown':'upper'}>><<{'gitdown':'fail'}>>")
            {| markdown := placeholder 1 ++ placeholder 2;
               commands :=
                 [{| bindingIndex := 1;
                     name := Some (JString (js "upper"));
                     parameters := JObject [];
                     helper := rejecting_helpers (Some (JString (js "upper")));
                     executed := false |};
                  {| bindingIndex := 2;
                     name := Some (JString (js "fail"));
                     parameters := JObject [];
                     helper := rejecting_helpers (Some (JString (js "fail")));
                     executed := false |}];
               change := true |} 2 [0%Z; 0%Z]
            lifo_permutation _ _ _ _ _ _).
  - vm_compute. reflexivity.
  - vm_compute. reflexivity.
  - repeat constructor.
  - repeat constructor; eexists; eexists;
      (split; [vm_compute; reflexivity|reflexivity]).
  - apply Exists_cons_tl. apply Exists_cons_hd.
    exists (js "no"). eexists. split; [vm_compute; reflexivity|reflexivity].
  - lia.
Defined.

(* ================================================================== *)
(** ** Further properties: a promise that never settles *)
(* ================================================================== *)

Lemma settle_pending (pass : nat) (done : list (nat * Settled)) :
  Forall (fun pr => forall r, snd pr <> Rejects r) done ->
  forall st hung,
    hung = true \/ Exists (fun pr => snd pr = Hangs) done ->
    snd (settle pass done st hung) = Pending.
Proof.
  induction 1 as [|[i p] done Hp _ IH]; intros st hung H.
  - destruct H as [->|H]; [reflexivity|inversion H].
  - destruct p as [v|r|]; cbn [settle].
    + assert (H' : hung = true \/ Exists (fun pr => snd pr = Hangs) done).
      { destruct H as [H|H]; [now left|right].
        inversion H as [? ? Hh|]; [discriminate Hh|assumption]. }
      specialize (IH (substitute i v st) hung H').
      now destruct (settle pass done (substitute i v st) hung).
    + now elim (Hp r).
    + apply IH. now left.
Qed.

(** X20.  When the weights of the helpers are safe integers, the helpers
    of the first round all return a promise, none of these promises
    rejects and one of them never settles, the promise of the run never
    settles, whatever the order in which the others settle. *)
Theorem X20_unsettled_promise_leaves_run_pending
  (helpers : option json -> option Helper)
  (sched : nat -> list (nat * Settled) -> list (nat * Settled))
  (fuel : nat) (GFM : jsstring) (st0 : State) (n : nat) (ws : list Z) :
  (forall pass l, Permutation (sched pass l) l) ->
  parse helpers GFM [] 0 = Normal (st0, n) ->
  weights (notExecutedCommands (commands st0)) = Normal ws ->
  Forall safe_integer ws ->
  Forall (fun c => exists p, promises_with (markdown st0) c p /\
                             forall r, p <> Rejects r)
    (filter (in_round (lowestWeight ws)) (commands st0)) ->
  Exists (fun c => promises_with (markdown st0) c Hangs)
    (filter (in_round (lowestWeight ws)) (commands st0)) ->
  0 < fuel ->
  snd (get helpers sched fuel GFM) = Pending.
Proof.
  intros Hs Hp Ew _ Hall Hex Hf.
  rewrite <- in_round_filter in *.
  destruct (invoke_all_promises 0 (markdown st0)
              (filter (has_weight (lowestWeight ws))
                 (notExecutedCommands (commands st0))))
    as (evs & promises & Ei & HF).
  { revert Hall. apply Forall_impl. intros c (p & H & _). now exists p. }
  assert (Hnone : Forall (fun pr => forall r, snd pr <> Rejects r)
                    (sched 0 promises)).
  { apply (Permutation_Forall (Permutation_sym (Hs 0 promises))).
    apply Forall_forall. intros pr Hpr r Hr.
    destruct (round_command_of _ _ _ _ HF Hpr) as (c & Hc & h & Hh & Hcall).
    destruct (proj1 (Forall_forall _ _) Hall c Hc)
      as (p & (h' & Hh' & Hcall') & Hnr).
    rewrite Hh in Hh'. injection Hh' as <-.
    rewrite Hcall in Hcall'. injection Hcall' as Hsame.
    apply (Hnr r). now rewrite <- Hsame. }
  assert (Hhang : Exists (fun pr => snd pr = Hangs) (sched 0 promises)).
  { apply Exists_exists in Hex as (c & Hc & h & Hh & Hcall).
    destruct (round_promise_of _ _ _ _ HF Hc) as (pr & Hpr & h' & Hh' & Hcall').
    rewrite Hh in Hh'. injection Hh' as <-.
    rewrite Hcall in Hcall'. injection Hcall' as Hsame.
    apply Exists_exists. exists pr. split; [|now symmetry].
    exact (Permutation_in _ (Permutation_sym (Hs 0 promises)) Hpr). }
  pose proof (settle_pending 0 _ Hnone st0 false (or_intror Hhang)) as E.
  destruct fuel as [|fuel]; [lia|].
  unfold get. cbn [play]. rewrite Hp. unfold execute.
  destruct (notExecutedCommands (commands st0)) as [|c0 todo].
  { apply Exists_exists in Hex as (c & [] & _). }
  rewrite Ew, Ei.
  destruct (settle 0 (sched 0 promises) st0 false) as [evs' r'].
  cbn [snd] in E. subst r'. reflexivity.
Qed.

Lemma X20_unsettled_promise_leaves_run_pending_witness :
  snd (get hanging_helpers lifo 3
         (js "<<{'gitdown':'wait'}>><<{'gitdown':'upper'}>>"))
  = Pending.
Proof.
  refine (X20_unsettled_promise_leaves_run_pending hanging_helpers lifo 3
            (js "<<{'gitdown':'wait'}>><<{'gitdown':'upper'}>>")
            {| markdown := placeholder 1 ++ placeholder 2;
               commands :=
                 [{| bindingIndex := 1;
                     name := Some (JString (js "wait"));
                     parameters := JObject [];
                     helper := hanging_helpers (Some (JString (js "wait")));
                     executed := false |};
                  {| bindingIndex := 2;
                     name := Some (JString (js "upper"));
                     parameters := JObject [];
                     helper := hanging_helpers (Some (JString (js "upper")));
                     executed := false |}];
               change := true |} 2 [0%Z; 0%Z]
            lifo_permutation _ _ _ _ _ _).
  - vm_compute. reflexivity.
  - vm_compute. reflexivity.
  - repeat constructor.
  - repeat constructor; eexists;
      (split; [eexists; split; [vm_compute; reflexivity|reflexivity]
              |discriminate]).
  - apply Exists_cons_hd.
    eexists. split; [vm_compute; reflexivity|reflexivity].
  - lia.
Defined.

(* ================================================================== *)
(** ** Further properties: values with [$] *)
(* ================================================================== *)

Lemma GetSubstitution_escaped (matched pre post v : jsstring) :
  GetSubstitution matched pre post (escape_dollars v) = v.
Proof.
  induction v as [|c v IH]; [reflexivity|].
  cbn [escape_dollars].
  destruct (N.eqb_spec c 36) as [->|Hc].
  - cbn [GetSubstitution]. change (N.eqb 36 36) with true. cbn iota.
    now rewrite IH.
  - cbn [GetSubstitution].
    destruct (N.eqb_spec c 36); [contradiction|]. now rewrite IH.
Qed.

(** X21.  A value is inserted as it is, whatever it contains, when each
    of its [$] is doubled: the callback of a fulfilled promise whose value
    is escaped this way replaces the first occurrence of the placeholder
    by the value itself. *)
Theorem X21_doubled_dollar_inserts_value
  (binding : nat) (value pre post : jsstring) (st : State) :
  index_of (placeholder binding) (markdown st) = Some (pre, post) ->
  markdown (substitute binding (escape_dollars value) st)
  = pre ++ value ++ post.
Proof.
  intros Hi. cbn [substitute markdown].
  rewrite (replace_found _ (escape_dollars value) _ _ _ Hi).
  now rewrite GetSubstitution_escaped.
Qed.

Lemma X21_doubled_dollar_inserts_value_witness :
  markdown
    (substitute 1 (escape_dollars (js "$& costs $1"))
       {| markdown := js "a" ++ placeholder 1 ++ js "b";
          commands := []; change := true |})
  = js "a" ++ js "$& costs $1" ++ js "b".
Proof.
  apply (X21_doubled_dollar_inserts_value 1 (js "$& costs $1")
           (js "a") (js "b")).
  vm_compute. reflexivity.
Defined.
